(** * TextProcessor: the transformation pipeline

    A shallow embedding of [textprocessor/transformer.py] and of the file
    helpers of [textprocessor/utils.py] it calls, followed by the properties
    of the dispatcher, of the individual operations and of [transform_file].
    The settings of [textprocessor/config.py] ([Config.get], [Config.set])
    and the counts of [textprocessor/analyzer.py] ([_get_basic_stats],
    [_analyze_characters]) are embedded as well.

    Conventions of the embedding:
    - a Python [str] is a list of Unicode code points;
    - a file holds bytes; text is obtained by decoding, as [open(..., 'r')]
      does, including the translation of line endings on reading;
    - [**kwargs] is a finite map from option names to Python values
      ([None], booleans, integers and strings); the ones [transform_file]
      passes on to [transform_text] may hold the name [text], which is
      then a [TypeError];
    - a raised exception is the [Err] case of [result];
    - the file system is a finite map from files to their contents,
      together with the file each path names (two paths can name one
      file) and the log of the writes done; it is threaded through the
      file operations;
    - a dictionary of [Config] lives in a store under its address, so that
      two references to one dictionary see each other's writes; the
      configuration file is given by the document [yaml.safe_load] reads
      from it, if any.

    Outside the model: directories, permissions and full disks (a write
    always succeeds once its content is encoded), the limits Python puts
    on integers (a [reverse] beyond a C [int], a [width] beyond
    [ssize_t], the decimal form of a number of more than 4300 digits),
    and line endings other than the line feed on writing (the platform is
    POSIX).  [pathlib] is the one of Python 3.8 to 3.12.  Also outside:
    YAML documents with sequences, floating-point numbers or keys that are
    not strings, the output formats of [format_output], the word and
    sentence analyses (they rest on floating-point numbers, NLTK and
    textstat) and the command line. *)

From Stdlib Require Import ZArith NArith Ascii String List Bool Lia.
From Stdlib Require Import Strings.Byte DecimalPos.
From Stdlib Require Import Sorting.Sorted Sorting.Permutation.
From stdpp Require Import gmap strings list fin_maps.

(** ** Strings *)

Definition char := N.
Definition str := list char.

(** An ASCII literal of the source as a [str]. *)
Definition lit (s : string) : str :=
  map N_of_ascii (list_ascii_of_string s).

(** A character literal of the source. *)
Definition ch (a : ascii) : char := N_of_ascii a.
Arguments ch a%_char.

Definition NL : char := 10%N.
Definition CR : char := 13%N.
Definition SP : char := 32%N.

(** [s.split(sep)] for a one-character separator: never the empty list. *)
Fixpoint split_on (sep : char) (s : str) : list str :=
  match s with
  | [] => [[]]
  | c :: s' =>
      if N.eqb c sep then [] :: split_on sep s'
      else match split_on sep s' with
           | [] => [[c]]
           | l :: ls => (c :: l) :: ls
           end
  end.

(** [sep.join(parts)]. *)
Fixpoint join (sep : str) (parts : list str) : str :=
  match parts with
  | [] => []
  | [p] => p
  | p :: ps => p ++ sep ++ join sep ps
  end.

(** [s.lstrip()], [s.rstrip()] and [s.strip()] for a whitespace predicate. *)
Fixpoint lstrip_by (sp : char -> bool) (s : str) : str :=
  match s with
  | [] => []
  | c :: s' => if sp c then lstrip_by sp s' else s
  end.

Definition rstrip_by (sp : char -> bool) (s : str) : str :=
  rev (lstrip_by sp (rev s)).

Definition strip_by (sp : char -> bool) (s : str) : str :=
  rstrip_by sp (lstrip_by sp s).

(** [s.split()]: the maximal runs of non-whitespace characters. *)
Fixpoint words_by (sp : char -> bool) (cur : str) (s : str) : list str :=
  match s with
  | [] => match cur with [] => [] | _ => [rev cur] end
  | c :: s' =>
      if sp c then
        match cur with
        | [] => words_by sp [] s'
        | _ => rev cur :: words_by sp [] s'
        end
      else words_by sp (c :: cur) s'
  end.

(** [str(n)] for an integer: its decimal notation. *)
Fixpoint uint_text (d : Decimal.uint) : str :=
  match d with
  | Decimal.Nil => []
  | Decimal.D0 d' => 48%N :: uint_text d'
  | Decimal.D1 d' => 49%N :: uint_text d'
  | Decimal.D2 d' => 50%N :: uint_text d'
  | Decimal.D3 d' => 51%N :: uint_text d'
  | Decimal.D4 d' => 52%N :: uint_text d'
  | Decimal.D5 d' => 53%N :: uint_text d'
  | Decimal.D6 d' => 54%N :: uint_text d'
  | Decimal.D7 d' => 55%N :: uint_text d'
  | Decimal.D8 d' => 56%N :: uint_text d'
  | Decimal.D9 d' => 57%N :: uint_text d'
  end.

Definition str_int (n : Z) : str :=
  match n with
  | Z0 => [48%N]
  | Zpos p => uint_text (Pos.to_uint p)
  | Zneg p => 45%N :: uint_text (Pos.to_uint p)
  end.

(** [len(s)] as a Python integer. *)
Definition len {A} (l : list A) : Z := Z.of_nat (length l).

(** [s.rjust(width)]: pad with spaces on the left up to [width]. *)
Definition rjust (width : Z) (s : str) : str :=
  repeat SP (Z.to_nat (width - len s)) ++ s.

(** Comparison of two [str]: lexicographic on code points. *)
Fixpoint text_lt (a b : str) : bool :=
  match a, b with
  | _, [] => false
  | [], _ :: _ => true
  | x :: a', y :: b' =>
      if N.ltb x y then true
      else if N.ltb y x then false
      else text_lt a' b'
  end.

(** ** The Unicode tables

    Case conversion, [str.isspace] and the regular-expression classes [\d],
    [\w] and [\s] are driven by the Unicode character database.  The
    development is parametric in these tables; [ascii_tables] below gives
    them on the ASCII range, where examples are evaluated. *)

Class UnicodeDB := {
  is_space : char -> bool;          (* str.isspace, \s *)
  is_decimal : char -> bool;        (* \d *)
  is_alnum : char -> bool;          (* str.isalnum; \w is this or '_' *)
  str_upper : str -> str;
  str_lower : str -> str;
  str_title : str -> str;
  decimal_is_alnum : forall c, is_decimal c = true -> is_alnum c = true;
  str_upper_empty : str_upper [] = [];
  str_lower_empty : str_lower [] = [];
  str_title_empty : str_title [] = [];
}.

Definition in_range (lo hi c : N) : bool := N.leb lo c && N.leb c hi.

Definition ascii_is_space (c : char) : bool :=
  in_range 9 13 c || in_range 28 32 c.
Definition ascii_is_decimal (c : char) : bool := in_range 48 57 c.
Definition ascii_is_upper (c : char) : bool := in_range 65 90 c.
Definition ascii_is_lower (c : char) : bool := in_range 97 122 c.
Definition ascii_is_alnum (c : char) : bool :=
  ascii_is_decimal c || ascii_is_upper c || ascii_is_lower c.

Definition ascii_upper_char (c : char) : char :=
  if ascii_is_lower c then (c - 32)%N else c.
Definition ascii_lower_char (c : char) : char :=
  if ascii_is_upper c then (c + 32)%N else c.

(** [str.title]: a cased character is upper-cased when it follows an
    uncased one and lower-cased otherwise. *)
Fixpoint ascii_title_from (prev_cased : bool) (s : str) : str :=
  match s with
  | [] => []
  | c :: s' =>
      if ascii_is_upper c || ascii_is_lower c then
        (if prev_cased then ascii_lower_char c else ascii_upper_char c)
          :: ascii_title_from true s'
      else c :: ascii_title_from false s'
  end.

Definition ascii_tables : UnicodeDB := {|
  is_space := ascii_is_space;
  is_decimal := ascii_is_decimal;
  is_alnum := ascii_is_alnum;
  str_upper := map ascii_upper_char;
  str_lower := map ascii_lower_char;
  str_title := ascii_title_from false;
  decimal_is_alnum := fun c H =>
    @eq_ind_r bool true
      (fun b : bool => b || ascii_is_upper c || ascii_is_lower c = true)
      eq_refl (ascii_is_decimal c) H;
  str_upper_empty := eq_refl;
  str_lower_empty := eq_refl;
  str_title_empty := eq_refl;
|}.

(** ** Regular expressions

    The fragment of [re] the module uses: character classes, greedy bounded
    repetition of a class, [\b], one-character negative look-around and
    groups that capture one character.  Matching is by backtracking, leftmost
    first, as in [re]. *)

Inductive citem :=
| CChar (c : char)      (* a literal character *)
| CDigit                (* \d *)
| CWord                 (* \w *)
| CSpace.               (* \s *)

Inductive cclass :=
| One (i : citem)
| AnyOf (items : list citem)     (* [...] *)
| NoneOf (items : list citem).   (* [^...] *)

Inductive atom :=
| Chr (k : cclass)
| Rep (k : cclass) (lo : nat) (hi : option nat)   (* k{lo,hi}, greedy *)
| Bound                                           (* \b *)
| NotBehind (k : cclass)                          (* (?<!k) *)
| NotAhead (k : cclass)                           (* (?!k) *)
| Group (k : cclass).                             (* (k) *)

(** A replacement template: literal text and group references [\1], [\2]. *)
Inductive ritem :=
| RText (t : str)
| RGroup (i : nat).

Section Regex.
Context {U : UnicodeDB}.

Definition is_word (c : char) : bool := is_alnum c || N.eqb c 95.

Definition citem_match (i : citem) (c : char) : bool :=
  match i with
  | CChar d => N.eqb c d
  | CDigit => is_decimal c
  | CWord => is_word c
  | CSpace => is_space c
  end.

Definition cmatch (k : cclass) (c : char) : bool :=
  match k with
  | One i => citem_match i c
  | AnyOf items => existsb (fun i => citem_match i c) items
  | NoneOf items => negb (existsb (fun i => citem_match i c) items)
  end.

Definition opt_test (p : char -> bool) (o : option char) : bool :=
  match o with
  | Some c => p c
  | None => false
  end.

(** [\b]: exactly one of the two neighbours is a word character. *)
Definition at_boundary (prev : option char) (s : str) : bool :=
  xorb (opt_test is_word prev) (opt_test is_word (head s)).

Definition may_repeat (hi : option nat) : bool :=
  match hi with
  | Some O => false
  | _ => true
  end.

(** Greedy repetition: take one more character when allowed and fall back
    to stopping here when the rest of the pattern fails further on. *)
Fixpoint rep {R} (k : cclass) (cont : option char -> str -> nat -> option R)
    (lo : nat) (hi : option nat) (prev : option char) (s : str) (n : nat)
    {struct s} : option R :=
  let stop := match lo with
              | O => cont prev s n
              | S _ => None
              end in
  match s with
  | c :: s' =>
      if cmatch k c && may_repeat hi then
        match rep k cont (pred lo) (option_map pred hi) (Some c) s' (S n) with
        | Some r => Some r
        | None => stop
        end
      else stop
  | [] => stop
  end.

(** [re_match pat prev s n gs]: match [pat] at a position whose preceding
    character is [prev] and whose remaining input is [s]; [n] characters
    have been consumed and [gs] captured so far.  The result is the length
    of the match and its groups. *)
Fixpoint re_match (pat : list atom) (prev : option char) (s : str)
    (n : nat) (gs : list char) {struct pat} : option (nat * list char) :=
  match pat with
  | [] => Some (n, gs)
  | Chr k :: pat' =>
      match s with
      | c :: s' => if cmatch k c then re_match pat' (Some c) s' (S n) gs else None
      | [] => None
      end
  | Group k :: pat' =>
      match s with
      | c :: s' =>
          if cmatch k c then re_match pat' (Some c) s' (S n) (gs ++ [c]) else None
      | [] => None
      end
  | Rep k lo hi :: pat' =>
      rep k (fun prev' s' n' => re_match pat' prev' s' n' gs) lo hi prev s n
  | Bound :: pat' =>
      if at_boundary prev s then re_match pat' prev s n gs else None
  | NotBehind k :: pat' =>
      if opt_test (cmatch k) prev then None else re_match pat' prev s n gs
  | NotAhead k :: pat' =>
      if opt_test (cmatch k) (head s) then None else re_match pat' prev s n gs
  end.

Definition expand (repl : list ritem) (gs : list char) : str :=
  flat_map (fun r => match r with
                     | RText t => t
                     | RGroup i => match nth_error gs (pred i) with
                                   | Some c => [c]
                                   | None => []
                                   end
                     end) repl.

(** The scan of [re.sub]: [skip] counts the characters of the current
    match that are still to be dropped.  The patterns of the module match
    at least one character; an empty match is treated as no match. *)
Fixpoint sub_scan (pat : list atom) (repl : list ritem) (prev : option char)
    (s : str) (skip : nat) {struct s} : str :=
  match skip with
  | S k =>
      match s with
      | [] => []
      | c :: s' => sub_scan pat repl (Some c) s' k
      end
  | O =>
      match re_match pat prev s 0 [] with
      | Some (S k, gs) =>
          expand repl gs ++
          match s with
          | [] => []
          | c :: s' => sub_scan pat repl (Some c) s' k
          end
      | _ =>
          match s with
          | [] => []
          | c :: s' => c :: sub_scan pat repl (Some c) s' 0
          end
      end
  end.

(** [re.sub(pat, repl, s)]. *)
Definition re_sub (pat : list atom) (repl : list ritem) (s : str) : str :=
  sub_scan pat repl None s 0.

End Regex.

(** ** Python values, keyword arguments and exceptions *)

Inductive value :=
| VNone
| VBool (b : bool)
| VInt (n : Z)
| VStr (s : str).

(** [**kwargs]: a dictionary from option names to values. *)
Abbreviation kwargs := (gmap string value).

(** [kwargs.get(key, default)]. *)
Definition kw_get (kw : kwargs) (key : string) (dflt : value) : value :=
  default dflt (kw !! key).

(** The truth value of an object, as [if] tests it. *)
Definition truthy (v : value) : bool :=
  match v with
  | VNone => false
  | VBool b => b
  | VInt n => negb (Z.eqb n 0)
  | VStr s => match s with [] => false | _ => true end
  end.

(** The integer an object stands for where an integer is required
    ([bool] is a subclass of [int]); [None] where Python raises. *)
Definition as_index (v : value) : option Z :=
  match v with
  | VBool b => Some (Z.b2z b)
  | VInt n => Some n
  | _ => None
  end.

(** [str(v)], which is what an f-string field without format inserts. *)
Definition str_value (v : value) : str :=
  match v with
  | VNone => lit "None"
  | VBool true => lit "True"
  | VBool false => lit "False"
  | VInt n => str_int n
  | VStr s => s
  end.

(** [ValueError] carries the message the module builds; [None] stands for
    a message built inside a library. *)
Inductive exn :=
| ValueError (msg : option str)
| TypeError
| AttributeError
| FileNotFoundError (msg : str)
| UnicodeDecodeError
| UnicodeEncodeError.

Inductive result (A : Type) :=
| Ok (a : A)
| Err (e : exn).
Arguments Ok {A} a.
Arguments Err {A} e.

Definition bind {A B} (r : result A) (f : A -> result B) : result B :=
  match r with
  | Ok a => f a
  | Err e => Err e
  end.

Definition require_index (v : value) : result Z :=
  match as_index v with
  | Some n => Ok n
  | None => Err TypeError
  end.

(** ** Sorting and de-duplication *)

(** [list.sort] is stable; insertion from the right, each element going
    before the first one that is not smaller, gives the same list. *)
Fixpoint insert_by {A} (lt : A -> A -> bool) (x : A) (l : list A) : list A :=
  match l with
  | [] => [x]
  | y :: l' => if lt y x then y :: insert_by lt x l' else x :: l
  end.

Definition stable_sort {A} (lt : A -> A -> bool) (l : list A) : list A :=
  fold_right (insert_by lt) [] l.

(** [l.sort(key=key, reverse=reverse)]: with [reverse] the list is reversed,
    sorted and reversed again, which keeps equal keys in their order. *)
Definition list_sort (key : str -> str) (reverse : bool) (l : list str)
    : list str :=
  let lt a b := text_lt (key a) (key b) in
  if reverse then rev (stable_sort lt (rev l)) else stable_sort lt l.

Fixpoint mem_text (x : str) (l : list str) : bool :=
  match l with
  | [] => false
  | y :: l' => if decide (x = y) then true else mem_text x l'
  end.

(** [list(dict.fromkeys(l))]: a key that is already present keeps its
    place, a new one goes to the end. *)
Definition fromkeys (l : list str) : list str :=
  fold_left (fun keys x => if mem_text x keys then keys else keys ++ [x]) l [].

(** ** The operations of [TextTransformer] *)

(** The patterns of the module, each under the source text of its raw
    string. *)

(** [r' +'] *)
Definition spaces_pat : list atom := [Rep (One (CChar SP)) 1 None].

(** [[,.!?;:]] *)
Definition punct : cclass :=
  AnyOf [CChar (ch ","); CChar (ch "."); CChar (ch "!"); CChar (ch "?");
         CChar (ch ";"); CChar (ch ":")].

(** [r' +([,.!?;:])'] *)
Definition space_punct_pat : list atom :=
  [Rep (One (CChar SP)) 1 None; Group punct].

(** [r'([,.!?;:])([^\s\n])'] *)
Definition punct_next_pat : list atom :=
  [Group punct; Group (NoneOf [CSpace; CChar NL])].

(** The pattern of [standardize_quotes] is written as two adjacent string
    literals, which Python concatenates: its class holds the double quote
    (twice) and the backquote. *)
Definition quotes_pat : list atom :=
  [Chr (AnyOf [CChar 34%N; CChar 34%N; CChar 96%N])].

(** [r'\b(?<!\d)\d{1,3}(?!\d)\b'] *)
Definition short_number_pat : list atom :=
  [Bound; NotBehind (One CDigit); Rep (One CDigit) 1 (Some 3);
   NotAhead (One CDigit); Bound].

(** [r'\b\d{5,}\b'] *)
Definition long_number_pat : list atom :=
  [Bound; Rep (One CDigit) 5 None; Bound].

(** [r'\d+'] *)
Definition digits_pat : list atom := [Rep (One CDigit) 1 None].

Definition nonempty (s : str) : bool :=
  match s with
  | [] => false
  | _ => true
  end.

Section Operations.
Context {U : UnicodeDB}.

Definition _to_upper (text : str) (kw : kwargs) : result str :=
  Ok (str_upper text).

Definition _to_lower (text : str) (kw : kwargs) : result str :=
  Ok (str_lower text).

Definition _to_title (text : str) (kw : kwargs) : result str :=
  Ok (str_title text).

Definition _to_sentence_case (text : str) (kw : kwargs)
    : result str :=
  match text with
  | [] => Ok text
  | c :: rest => Ok (str_upper [c] ++ str_lower rest)
  end.

Definition _clean_whitespace (text : str) (kw : kwargs)
    : result str :=
  let result := text in
  let result :=
    if truthy (kw_get kw "strip_lines" (VBool true)) then
      let lines := split_on NL result in
      join [NL] (map (rstrip_by is_space) lines)
    else result in
  let result :=
    if truthy (kw_get kw "normalize_spaces" (VBool true)) then
      re_sub spaces_pat [RText [SP]] result
    else result in
  let result :=
    if truthy (kw_get kw "remove_empty_lines" (VBool false)) then
      let lines := split_on NL result in
      join [NL] (filter (fun line => nonempty (strip_by is_space line)) lines)
    else result in
  Ok (strip_by is_space result).

Definition _normalize_text (text : str) (kw : kwargs)
    : result str :=
  bind (_clean_whitespace text kw) (fun result =>
  let result :=
    if truthy (kw_get kw "fix_punctuation" (VBool true)) then
      let result := re_sub space_punct_pat [RGroup 1] result in
      re_sub punct_next_pat [RGroup 1; RText [SP]; RGroup 2] result
    else result in
  let result :=
    if truthy (kw_get kw "standardize_quotes" (VBool true)) then
      re_sub quotes_pat [RText [34%N]] result
    else result in
  Ok result).

Definition _remove_punctuation (text : str) (kw : kwargs)
    : result str :=
  let punctuation := [CWord; CSpace] in
  let punctuation :=
    if truthy (kw_get kw "keep_periods" (VBool false))
    then punctuation ++ [CChar (ch ".")] else punctuation in
  let punctuation :=
    if truthy (kw_get kw "keep_apostrophes" (VBool false))
    then punctuation ++ [CChar (ch "'")] else punctuation in
  Ok (re_sub [Chr (NoneOf punctuation)] [] text).

Definition _remove_numbers (text : str) (kw : kwargs)
    : result str :=
  let result :=
    if truthy (kw_get kw "keep_years" (VBool false)) then
      let result := re_sub short_number_pat [] text in
      re_sub long_number_pat [] result
    else re_sub digits_pat [] text in
  Ok (strip_by is_space (re_sub spaces_pat [RText [SP]] result)).

Definition _reverse_text (text : str) (kw : kwargs)
    : result str :=
  if truthy (kw_get kw "by_lines" (VBool false)) then
    let lines := split_on NL text in
    Ok (join [NL] (rev lines))
  else if truthy (kw_get kw "by_words" (VBool false)) then
    let words := words_by is_space [] text in
    Ok (join [SP] (rev words))
  else Ok (rev text).

(** The [reverse] argument of [list.sort] is read as an integer (a string
    or [None] is a [TypeError]) and then tested for truth. *)
Definition _sort_lines (text : str) (kw : kwargs) : result str :=
  let lines := split_on NL text in
  let lines :=
    if truthy (kw_get kw "remove_duplicates" (VBool false))
    then fromkeys lines else lines in
  bind (require_index (kw_get kw "reverse" (VBool false))) (fun reverse =>
  let reverse := negb (Z.eqb reverse 0) in
  let lines :=
    if truthy (kw_get kw "ignore_case" (VBool false))
    then list_sort str_lower reverse lines
    else list_sort (fun line => line) reverse lines in
  Ok (join [NL] lines)).

Definition _remove_empty_lines (text : str) (kw : kwargs)
    : result str :=
  let lines := split_on NL text in
  Ok (join [NL] (filter (fun line => nonempty (strip_by is_space line)) lines)).

(** The loop of [_add_line_numbers]: [i] is the counter of [enumerate]. *)
Fixpoint numbered_lines (width : Z) (separator : value) (i : Z)
    (lines : list str) : list str :=
  match lines with
  | [] => []
  | line :: rest =>
      let line_num := rjust width (str_int i) in
      (line_num ++ str_value separator ++ line)
        :: numbered_lines width separator (i + 1) rest
  end.

(** [start] enters an addition and [enumerate], [width] enters [rjust]:
    both have to be integers.  The default of [width] is computed whether
    or not the option is given. *)
Definition _add_line_numbers (text : str) (kw : kwargs)
    : result str :=
  let lines := split_on NL text in
  let start := kw_get kw "start" (VInt 1) in
  let separator := kw_get kw "separator" (VStr (lit ": ")) in
  bind (require_index start) (fun start =>
  let width := kw_get kw "width" (VInt (len (str_int (len lines + start - 1)))) in
  bind (require_index width) (fun width =>
  Ok (join [NL] (numbered_lines width separator start lines)))).

(** The dictionary of [transform_text], in insertion order. *)
Definition operations
    : list (str * (str -> kwargs -> result str)) :=
  [ (lit "upper", _to_upper);
    (lit "lower", _to_lower);
    (lit "title", _to_title);
    (lit "sentence", _to_sentence_case);
    (lit "clean", _clean_whitespace);
    (lit "normalize", _normalize_text);
    (lit "remove_punctuation", _remove_punctuation);
    (lit "remove_numbers", _remove_numbers);
    (lit "reverse", _reverse_text);
    (lit "sort_lines", _sort_lines);
    (lit "remove_empty_lines", _remove_empty_lines);
    (lit "add_line_numbers", _add_line_numbers) ].

(** [operations[name]], [None] when [name not in operations]. *)
Fixpoint lookup_operation {F} (name : str)
    (ops : list (str * F)) : option F :=
  match ops with
  | [] => None
  | (k, f) :: ops' => if decide (name = k) then Some f else lookup_operation name ops'
  end.

Definition transform_text (text : str) (operation : str)
    (kw : kwargs) : result str :=
  match lookup_operation operation operations with
  | None =>
      let available := join (lit ", ") (map fst operations) in
      Err (ValueError (Some (lit "Unknown operation '" ++ operation
                               ++ lit "'. Available: " ++ available)))
  | Some f => f text kw
  end.

End Operations.

(** ** Files: bytes, codecs and paths *)

Definition bytes := list Byte.byte.

Definition byte_of (n : N) : Byte.byte :=
  match Byte.of_N n with
  | Some b => b
  | None => Byte.x00
  end.

(** The payload of a UTF-8 continuation byte (80..BF). *)
Definition continuation (b : Byte.byte) : option N :=
  let n := Byte.to_N b in
  if in_range 128 191 n then Some (n - 128)%N else None.

Definition is_surrogate (c : N) : bool := in_range 55296 57343 c.

(** Strict UTF-8: shortest form only, no surrogates, nothing above
    U+10FFFF. *)
Fixpoint utf8_decode (bs : bytes) : option str :=
  match bs with
  | [] => Some []
  | b0 :: r0 =>
      let n0 := Byte.to_N b0 in
      if N.ltb n0 128 then option_map (cons n0) (utf8_decode r0)
      else match r0 with
      | [] => None
      | b1 :: r1 =>
          match continuation b1 with
          | None => None
          | Some c1 =>
              if in_range 194 223 n0 then
                option_map (cons ((n0 - 192) * 64 + c1)%N) (utf8_decode r1)
              else match r1 with
              | [] => None
              | b2 :: r2 =>
                  match continuation b2 with
                  | None => None
                  | Some c2 =>
                      if in_range 224 239 n0 then
                        let c := ((n0 - 224) * 4096 + c1 * 64 + c2)%N in
                        if N.leb 2048 c && negb (is_surrogate c)
                        then option_map (cons c) (utf8_decode r2)
                        else None
                      else match r2 with
                      | [] => None
                      | b3 :: r3 =>
                          match continuation b3 with
                          | None => None
                          | Some c3 =>
                              if in_range 240 244 n0 then
                                let c := ((n0 - 240) * 262144 + c1 * 4096
                                          + c2 * 64 + c3)%N in
                                if in_range 65536 1114111 c
                                then option_map (cons c) (utf8_decode r3)
                                else None
                              else None
                          end
                      end
                  end
              end
          end
      end
  end.

Definition utf8_encode_char (c : char) : option bytes :=
  if N.ltb c 128 then Some [byte_of c]
  else if N.ltb c 2048 then
    Some [byte_of (192 + c / 64); byte_of (128 + c mod 64)]%N
  else if N.ltb c 65536 then
    if is_surrogate c then None
    else Some [byte_of (224 + c / 4096); byte_of (128 + (c / 64) mod 64);
               byte_of (128 + c mod 64)]%N
  else if N.leb c 1114111 then
    Some [byte_of (240 + c / 262144); byte_of (128 + (c / 4096) mod 64);
          byte_of (128 + (c / 64) mod 64); byte_of (128 + c mod 64)]%N
  else None.

Fixpoint utf8_encode (s : str) : option bytes :=
  match s with
  | [] => Some []
  | c :: s' =>
      match utf8_encode_char c, utf8_encode s' with
      | Some b, Some bs => Some (b ++ bs)
      | _, _ => None
      end
  end.

(** The C1 area of Windows-1252; five of its bytes are unassigned. *)
Definition cp1252_high (n : N) : option char :=
  match n with
  | 128 => Some 8364 | 130 => Some 8218 | 131 => Some 402 | 132 => Some 8222
  | 133 => Some 8230 | 134 => Some 8224 | 135 => Some 8225 | 136 => Some 710
  | 137 => Some 8240 | 138 => Some 352 | 139 => Some 8249 | 140 => Some 338
  | 142 => Some 381 | 145 => Some 8216 | 146 => Some 8217 | 147 => Some 8220
  | 148 => Some 8221 | 149 => Some 8226 | 150 => Some 8211 | 151 => Some 8212
  | 152 => Some 732 | 153 => Some 8482 | 154 => Some 353 | 155 => Some 8250
  | 156 => Some 339 | 158 => Some 382 | 159 => Some 376
  | 129 | 141 | 143 | 144 | 157 => None
  | _ => Some n
  end%N.

Fixpoint cp1252_decode (bs : bytes) : option str :=
  match bs with
  | [] => Some []
  | b :: bs' =>
      match cp1252_high (Byte.to_N b), cp1252_decode bs' with
      | Some c, Some s => Some (c :: s)
      | _, _ => None
      end
  end.

Inductive encoding := Utf8 | Utf8Sig | Latin1 | Cp1252.

Definition decode (e : encoding) (bs : bytes) : option str :=
  match e with
  | Utf8 => utf8_decode bs
  | Utf8Sig =>
      match bs with
      | Byte.xef :: Byte.xbb :: Byte.xbf :: bs' => utf8_decode bs'
      | _ => utf8_decode bs
      end
  | Latin1 => Some (map Byte.to_N bs)
  | Cp1252 => cp1252_decode bs
  end.

(** Reading in text mode turns every line ending (CR LF or a lone CR)
    into a line feed. *)
Fixpoint universal_newlines (s : str) : str :=
  match s with
  | [] => []
  | c :: s' =>
      if N.eqb c CR then
        NL :: match s' with
              | [] => []
              | d :: s'' =>
                  if N.eqb d NL then universal_newlines s''
                  else universal_newlines s'
              end
      else c :: universal_newlines s'
  end.

(** [open(p, 'r', encoding=e).read()] on the bytes of the file. *)
Definition read_as (e : encoding) (bs : bytes) : option str :=
  option_map universal_newlines (decode e bs).

(** A [pathlib.Path] of a POSIX system: whether it starts at the root, and
    its components. *)
Record path := Path { absolute : bool; parts : list str }.

#[global] Instance path_eq_dec : EqDecision path.
Proof. solve_decision. Defined.

#[global] Instance path_countable : Countable path :=
  inj_countable' (fun p => (absolute p, parts p))
                 (fun ap => Path (fst ap) (snd ap))
                 (fun p => match p with Path _ _ => eq_refl end).

(** [p.name]: the last component, empty when there is none. *)
Definition name (p : path) : str := List.last (parts p) [].

(** [s.rfind('.')]. *)
Fixpoint rfind (c : char) (s : str) (i : nat) : option nat :=
  match s with
  | [] => None
  | d :: s' =>
      match rfind c s' (S i) with
      | Some j => Some j
      | None => if N.eqb d c then Some i else None
      end
  end.

(** [p.suffix]: from the last dot of the name on, unless that dot is the
    first or the last character of the name. *)
Definition suffix (p : path) : str :=
  match rfind (ch ".") (name p) 0 with
  | Some i =>
      if (0 <? i)%nat && (i <? length (name p) - 1)%nat
      then drop i (name p) else []
  | None => []
  end.

(** [p.with_name(n)] for a path that has a name. *)
Definition with_name (p : path) (n : str) : path :=
  Path (absolute p) (removelast (parts p) ++ [n]).

Definition starts_with_dot (s : str) : bool :=
  match s with
  | c :: _ => N.eqb c (ch ".")
  | [] => false
  end.

(** [p.with_suffix(suffix)]. *)
Definition with_suffix (p : path) (sfx : str) : result path :=
  if existsb (N.eqb (ch "/")) sfx then Err (ValueError None)
  else if (nonempty sfx && negb (starts_with_dot sfx))
          || (if decide (sfx = [ch "."]) then true else false)
  then Err (ValueError None)
  else if negb (nonempty (name p)) then Err (ValueError None)
  else
    let old_suffix := suffix p in
    let n :=
      if nonempty old_suffix
      then take (length (name p) - length old_suffix) (name p) ++ sfx
      else name p ++ sfx in
    Ok (with_name p n).

(** [str(p)]. *)
Definition str_path (p : path) : str :=
  match absolute p, parts p with
  | false, [] => [ch "."]
  | false, ps => join [ch "/"] ps
  | true, ps => ch "/" :: join [ch "/"] ps
  end.

(** ** The file system *)

(** The files, each under the one path that stands for it; the writes done
    so far, oldest first, each with the path as it was given and the content
    the file got; and the file a path names, which is where the working
    directory, [..] components and links come in: two paths can name one
    file. *)
Record fs := Fs {
  files : gmap path bytes;
  writes : list (path * bytes);
  realpath : path -> path;
}.

(** The bytes of the file a path names, when there is one. *)
Definition file_at (st : fs) (p : path) : option bytes :=
  files st !! realpath st p.

(** The file system after the file [p] names got the content [bs]. *)
Definition put (st : fs) (p : path) (bs : bytes) : fs :=
  Fs (<[realpath st p := bs]> (files st)) (writes st ++ [(p, bs)])
     (realpath st).

(** A file operation: the outcome and the file system it leaves. *)
Definition io (A : Type) : Type := fs -> result A * fs.

Definition ret {A} (a : A) : io A := fun st => (Ok a, st).
Definition raise {A} (e : exn) : io A := fun st => (Err e, st).
Definition lift {A} (r : result A) : io A := fun st => (r, st).

Definition io_bind {A B} (m : io A) (f : A -> io B) : io B :=
  fun st =>
    match m st with
    | (Ok a, st') => f a st'
    | (Err e, st') => (Err e, st')
    end.

Notation "x <- m ;; k" := (io_bind m (fun x => k))
  (at level 100, m at next level, right associativity).
Notation "m ;;; k" := (io_bind m (fun _ => k))
  (at level 100, right associativity).

(** [p.exists()]. *)
Definition exists_file (p : path) : io bool :=
  fun st => (Ok (bool_decide (is_Some (file_at st p))), st).

(** The bytes of a file that exists. *)
Definition file_bytes (p : path) : io bytes :=
  fun st =>
    match file_at st p with
    | Some bs => (Ok bs, st)
    | None => (Err (FileNotFoundError (str_path p)), st)
    end.

(** Give the file [p] the content [bs]. *)
Definition store (p : path) (bs : bytes) : io unit :=
  fun st => (Ok tt, put st p bs).

(** [open(p, 'w', encoding='utf-8')] followed by [write(content)]: opening
    empties the file, and the content is written when it can be encoded. *)
Definition write_utf8 (p : path) (content : str) : io unit :=
  match utf8_encode content with
  | Some bs => store p bs
  | None => store p [] ;;; raise UnicodeEncodeError
  end.

(** [p.read_text(encoding='utf-8')]. *)
Definition read_text_utf8 (p : path) : io str :=
  bs <- file_bytes p ;;
  match read_as Utf8 bs with
  | Some s => ret s
  | None => raise UnicodeDecodeError
  end.

(** The loop of [read_text_file] over the encodings.  The statement after
    the loop builds a [UnicodeDecodeError] from one argument, which is a
    [TypeError]. *)
Fixpoint try_encodings (encodings : list encoding) (bs : bytes) : result str :=
  match encodings with
  | [] => Err TypeError
  | e :: encodings' =>
      match read_as e bs with
      | Some s => Ok s
      | None => try_encodings encodings' bs
      end
  end.

Definition read_text_file (file_path : path) : io str :=
  found <- exists_file file_path ;;
  if negb found
  then raise (FileNotFoundError (lit "File not found: " ++ str_path file_path))
  else
    bs <- file_bytes file_path ;;
    lift (try_encodings [Utf8; Utf8Sig; Latin1; Cp1252] bs).

(** Directories are not modelled: [mkdir(parents=True, exist_ok=True)] has
    no effect on the files. *)
Definition write_text_file (file_path : path) (content : str) : io unit :=
  write_utf8 file_path content.

Definition create_backup (file_path : path) (sfx : str) : io path :=
  backup_path <- lift (with_suffix file_path (suffix file_path ++ sfx)) ;;
  found <- exists_file file_path ;;
  (if found
   then s <- read_text_utf8 file_path ;; write_utf8 backup_path s
   else ret tt) ;;;
  ret backup_path.

(** The two attributes of a [TextTransformer]. *)
Record TextTransformer := {
  preserve_original : bool;
  backup_suffix : str;
}.

Section TransformFile.
Context {U : UnicodeDB}.

(** [self.transform_text(text, operation, **kwargs)] as [transform_file]
    calls it, passing its own keyword arguments on: one named [text] is a
    second value for the first parameter, which Python refuses with a
    [TypeError] before the body runs.  (No other name can collide: the
    other parameters are parameters of [transform_file] too.) *)
Definition call_transform_text (text : str) (operation : str) (kw : kwargs)
    : result str :=
  if bool_decide (is_Some (kw !! "text")) then Err TypeError
  else transform_text text operation kw.

Definition transform_file (self : TextTransformer) (file_path : path)
    (operation : str) (output_path : option path) (kw : kwargs) : io path :=
  let input_path := file_path in
  text <- read_text_file input_path ;;
  transformed_text <- lift (call_transform_text text operation kw) ;;
  let output_path :=
    match output_path with
    | None => input_path
    | Some p => p
    end in
  (if preserve_original self && bool_decide (output_path = input_path)
   then create_backup input_path (backup_suffix self) ;;; ret tt
   else ret tt) ;;;
  write_text_file output_path transformed_text ;;;
  ret output_path.

End TransformFile.

(** ** Notions used in the statements *)

(** The keys of the dictionary of [transform_text]. *)
Definition operation_names : list str :=
  [ lit "upper"; lit "lower"; lit "title"; lit "sentence"; lit "clean";
    lit "normalize"; lit "remove_punctuation"; lit "remove_numbers";
    lit "reverse"; lit "sort_lines"; lit "remove_empty_lines";
    lit "add_line_numbers" ].

Definition unknown_operation_message (operation : str) : str :=
  lit "Unknown operation '" ++ operation ++ lit "'. Available: "
    ++ join (lit ", ") operation_names.

(** What each operation gives on the empty text with its default options:
    one numbered empty line for [add_line_numbers], the empty text for the
    others. *)
Definition on_empty (operation : str) : str :=
  if decide (operation = lit "add_line_numbers") then lit "1: " else [].

(** The key [sort_lines] compares lines by. *)
Definition sort_key `{U : UnicodeDB} (ignore_case : bool) : str -> str :=
  if ignore_case then str_lower else fun line => line.

Section Specification.
Context {U : UnicodeDB}.

(** The number of leading characters of [s] that are in the class. *)
Fixpoint run (k : cclass) (s : str) : nat :=
  match s with
  | c :: s' => if cmatch k c then S (run k s') else O
  | [] => O
  end.

(** The character before position [r] of [s], for a position that
    follows [prev]. *)
Definition prev_at (prev : option char) (s : str) (r : nat) : option char :=
  match r with
  | O => prev
  | S r' => nth_error s r'
  end.

Definition within (r : nat) (hi : option nat) : bool :=
  match hi with
  | Some h => (r <=? h)%nat
  | None => true
  end.

(** The [n] characters at the start of [s], which follows [prev], stand
    alone: there is at least one, and neither the character before nor
    the character after is a word character. *)
Definition standalone (prev : option char) (s : str) (n : nat) : bool :=
  (0 <? n)%nat && negb (opt_test is_word prev)
    && negb (opt_test is_word (head (drop n s))).

(** One pass of [keep_years], stated without regular expressions: delete
    the runs of digits that stand alone and whose length satisfies [ok];
    [skip] counts the digits of the current run that are still to be
    deleted. *)
Fixpoint drop_runs (ok : nat -> bool) (prev : option char) (s : str)
    (skip : nat) {struct s} : str :=
  match s with
  | [] => []
  | c :: s' =>
      match skip with
      | S k => drop_runs ok (Some c) s' k
      | O =>
          let n := run (One CDigit) s in
          if standalone prev s n && ok n
          then drop_runs ok (Some c) s' (n - 1)
          else c :: drop_runs ok (Some c) s' 0
      end
  end.

(** The clean-up of spaces, stated without regular expressions: keep one
    space of each run of spaces. *)
Fixpoint squeeze_spaces (s : str) : str :=
  match s with
  | [] => []
  | c :: s' =>
      if N.eqb c SP && opt_test (N.eqb SP) (head s')
      then squeeze_spaces s'
      else c :: squeeze_spaces s'
  end.

(** A length between [lo] and [hi], or of at least [lo] without [hi]. *)
Definition length_between (lo : nat) (hi : option nat) (n : nat) : bool :=
  (lo <=? n)%nat && within n hi.

End Specification.

(** The code points UTF-8 encodes: up to U+10FFFF, surrogates excluded. *)
Definition scalar (c : char) : bool :=
  N.leb c 1114111 && negb (is_surrogate c).

(** A write sets the file to the encoded content, or empties it when the
    content cannot be encoded, and is logged either way. *)
Definition written (content : str) : bytes :=
  default [] (utf8_encode content).

Definition write_result (content : str) : result unit :=
  match utf8_encode content with
  | Some _ => Ok tt
  | None => Err UnicodeEncodeError
  end.

(** The steps of [transform_file] after a successful read and dispatch. *)
Definition finish (self : TextTransformer) (input_path output_path : path)
    (transformed_text : str) : io path :=
  (if preserve_original self && bool_decide (output_path = input_path)
   then create_backup input_path (backup_suffix self) ;;; ret tt
   else ret tt) ;;;
  write_text_file output_path transformed_text ;;;
  ret output_path.

(** A transformer with the default attributes, and a file system with one
    file, [/tmp/test.txt], holding ["abc"], in which every path names a
    file of its own. *)
Definition default_transformer : TextTransformer :=
  {| preserve_original := true; backup_suffix := lit ".bak" |}.
Definition sample_path : path := Path true [lit "tmp"; lit "test.txt"].
Definition sample_backup : path := Path true [lit "tmp"; lit "test.txt.bak"].
Definition abc : bytes := [Byte.x61; Byte.x62; Byte.x63].
Definition sample_fs : fs := Fs {[ sample_path := abc ]} [] id.

(** The file a path names when the working directory is [/tmp] and there
    are no links: a relative path is taken from [/tmp]. *)
Definition from_tmp (p : path) : path :=
  if absolute p then p else Path true (lit "tmp" :: parts p).

(** ** Notions used in the further properties *)

(** A line that [str.strip] does not empty. *)
Definition nonblank `{U : UnicodeDB} (line : str) : bool :=
  nonempty (strip_by is_space line).

(** A word as [str.split] yields them: not empty and free of whitespace. *)
Definition is_word_of `{U : UnicodeDB} (w : str) : Prop :=
  w <> [] /\ Forall (fun c => is_space c = false) w.

(** The lines [sort_lines] sorts: those of the text, each one only where it
    first occurs when [remove_duplicates] is set. *)
Definition sort_input (remove_duplicates : bool) (text : str) : list str :=
  if remove_duplicates then fromkeys (split_on NL text) else split_on NL text.

(** The lines of a list that have the key [k], in their order. *)
Definition with_key (key : str -> str) (k : str) (lines : list str)
    : list str :=
  filter (fun line => key line = k) lines.

(** The order [sort_lines] puts the keys in. *)
Definition in_order (key : str -> str) (descending : bool) (a b : str) : Prop :=
  if descending then text_lt (key a) (key b) = false
  else text_lt (key b) (key a) = false.

(** The characters [remove_punctuation] keeps: word characters, whitespace
    and, on request, periods and apostrophes. *)
Definition kept_char `{U : UnicodeDB} (keep_periods keep_apostrophes : bool)
    (c : char) : bool :=
  is_word c || is_space c || (keep_periods && N.eqb c (ch "."))
    || (keep_apostrophes && N.eqb c (ch "'")).

(** A text [str.strip] leaves as it is: neither its first nor its last
    character is whitespace. *)
Definition stripped `{U : UnicodeDB} (s : str) : Prop :=
  opt_test is_space (head s) = false /\ opt_test is_space (last s) = false.

(** Two spaces in a row. *)
Fixpoint double_space (s : str) : bool :=
  match s with
  | [] => false
  | c :: s' =>
      (N.eqb c SP && opt_test (N.eqb SP) (head s')) || double_space s'
  end.

(** The text [read_text_file] gives for the bytes of a file: their UTF-8
    decoding, or the Latin-1 one when they are not UTF-8, with the line
    endings of text mode. *)
Definition file_text (bs : bytes) : str :=
  universal_newlines
    (match utf8_decode bs with
     | Some t => t
     | None => map Byte.to_N bs
     end).

(** The byte order mark, as a character and as UTF-8 bytes. *)
Definition BOM : char := 65279%N.
Definition utf8_bom : bytes := [Byte.xef; Byte.xbb; Byte.xbf].

(** ** Configuration objects

    [Config] keeps its settings in nested dictionaries, and dictionaries
    are shared by reference: the store below holds every dictionary under
    its address. *)

Module Config.

(** What a key of a dictionary holds: a scalar, or a dictionary, known by
    its address. *)
Inductive object :=
| Scalar (v : value)
| Dict (a : nat).

(** The dictionaries created so far; a new one takes the next address. *)
Abbreviation heap := (list (gmap str object)).

(** The dictionary at an address in use. *)
Definition dict_at (h : heap) (a : nat) : gmap str object :=
  default ∅ (h !! a).

(** The class body creates three dictionaries: the two inner ones and then
    [DEFAULT_CONFIG], which refers to them. *)
Definition DEFAULT_CONFIG : nat := 2.

Definition class_heap : heap :=
  [ {[ lit "include_readability" := Scalar (VBool true);
       lit "include_sentiment" := Scalar (VBool false) ]};
    {[ lit "preserve_original" := Scalar (VBool true);
       lit "backup_suffix" := Scalar (VStr (lit ".bak")) ]};
    {[ lit "default_output_format" := Scalar (VStr (lit "text"));
       lit "analysis" := Dict 0;
       lit "transform" := Dict 1 ]} ].

(** What [yaml.safe_load] gives for the configuration file: a scalar, or a
    mapping, given by its items in the order of the document.  The keys
    are strings and differ from one another; sequences, numbers with a
    fraction and anchors are left out. *)
#[warnings="-register-all"]
Inductive yaml :=
| YScalar (v : value)
| YMap (items : list (str * yaml)).

(** The truth value of a document, as [if user_config] tests it. *)
Definition yaml_truthy (doc : yaml) : bool :=
  match doc with
  | YScalar v => truthy v
  | YMap items => match items with [] => false | _ => true end
  end.

(** The object a loaded value is, once its dictionaries are in the
    store. *)
Fixpoint alloc (doc : yaml) (h : heap) : object * heap :=
  match doc with
  | YScalar v => (Scalar v, h)
  | YMap items =>
      let fix fill (items : list (str * yaml)) (d : gmap str object)
          (h : heap) : gmap str object * heap :=
        match items with
        | [] => (d, h)
        | (k, v) :: items' =>
            let '(o, h) := alloc v h in fill items' (<[k := o]> d) h
        end in
      let '(d, h) := fill items ∅ h in
      (Dict (length h), h ++ [d])
  end.

(** [_merge_config(base, override)], [base] being known by its address:
    a dictionary of [override] is merged into a dictionary that [base]
    holds under the same key, any other value is assigned.  A document
    that is no mapping has no [items]. *)
Fixpoint _merge_config (base : nat) (override : yaml) (h : heap)
    : result unit * heap :=
  match override with
  | YScalar _ => (Err AttributeError, h)
  | YMap items =>
      let fix each (items : list (str * yaml)) (h : heap)
          : result unit * heap :=
        match items with
        | [] => (Ok tt, h)
        | (key, value) :: items' =>
            match dict_at h base !! key, value with
            | Some (Dict a), YMap _ =>
                match _merge_config a value h with
                | (Ok _, h) => each items' h
                | (Err e, h) => (Err e, h)
                end
            | _, _ =>
                let '(o, h) := alloc value h in
                each items' (<[base := <[key := o]> (dict_at h base)]> h)
            end
        end in
      each items h
  end.

(** [_load_config]: [user_config] is the document read from the
    configuration file, [None] when the file does not exist, or cannot be
    read or parsed, in which case a warning is printed and nothing else
    happens.  Only [yaml.YAMLError] and [IOError] are caught. *)
Definition _load_config (self : nat) (user_config : option yaml) (h : heap)
    : result unit * heap :=
  match user_config with
  | Some doc =>
      if yaml_truthy doc then _merge_config self doc h else (Ok tt, h)
  | None => (Ok tt, h)
  end.

(** [Config(config_path)]: [DEFAULT_CONFIG.copy()] is a new dictionary
    with the items of [DEFAULT_CONFIG], so the inner dictionaries are the
    same objects; then the configuration file is merged in.  A [Config]
    is known by the address of its [_config]. *)
Definition __init__ (user_config : option yaml) (h : heap)
    : result nat * heap :=
  let self := length h in
  let h := h ++ [dict_at h DEFAULT_CONFIG] in
  match _load_config self user_config h with
  | (Ok _, h) => (Ok self, h)
  | (Err e, h) => (Err e, h)
  end.

(** The loop of [get]: [None] stands for the [KeyError] of a missing key
    and the [TypeError] of subscripting a scalar, which [get] both
    catches. *)
Fixpoint lookup_path (h : heap) (value : object) (keys : list str)
    : option object :=
  match keys with
  | [] => Some value
  | k :: keys' =>
      match value with
      | Dict a =>
          match dict_at h a !! k with
          | Some v => lookup_path h v keys'
          | None => None
          end
      | Scalar _ => None
      end
  end.

Definition get (self : nat) (key : str) (dflt : object) (h : heap) : object :=
  let keys := split_on (ch ".") key in
  default dflt (lookup_path h (Dict self) keys).

(** The loop of [set] and the assignment after it, for the keys [k :: rest]:
    a missing dictionary on the way is created, and a scalar on the way is
    a [TypeError], whether at the test [k not in config], at the
    subscript or at the assignment. *)
Fixpoint store_path (h : heap) (config : object) (k : str) (rest : list str)
    (value : object) : result unit * heap :=
  match config with
  | Scalar _ => (Err TypeError, h)
  | Dict a =>
      match rest with
      | [] => (Ok tt, <[a := <[k := value]> (dict_at h a)]> h)
      | k' :: rest' =>
          match dict_at h a !! k with
          | Some config' => store_path h config' k' rest' value
          | None =>
              let n := length h in
              let h := h ++ [∅] in
              let h := <[a := <[k := Dict n]> (dict_at h a)]> h in
              store_path h (Dict n) k' rest' value
          end
      end
  end.

Definition set (self : nat) (key : str) (value : object) (h : heap)
    : result unit * heap :=
  match split_on (ch ".") key with
  | k :: rest => store_path h (Dict self) k rest value
  | [] => (Ok tt, h)
  end.

(** Two of the properties, as [cli.py] reads them to build a
    [TextTransformer]. *)
Definition preserve_original (self : nat) (h : heap) : object :=
  get self (lit "transform.preserve_original") (Scalar (VBool true)) h.

Definition backup_suffix (self : nat) (h : heap) : object :=
  get self (lit "transform.backup_suffix") (Scalar (VStr (lit ".bak"))) h.

End Config.

(** ** Statistics of a text (analyzer.py) *)

(** [s.split(sep)] for a separator of two characters [a], [b]: the
    occurrences are taken from the left and do not overlap. *)
Fixpoint split_on2 (a b : char) (s : str) : list str :=
  match s with
  | [] => [[]]
  | c :: s' =>
      let keep := match split_on2 a b s' with
                  | [] => [[c]]
                  | p :: ps => (c :: p) :: ps
                  end in
      match s' with
      | d :: s'' =>
          if N.eqb c a && N.eqb d b then [] :: split_on2 a b s'' else keep
      | [] => keep
      end
  end.

(** [s.replace(c, '')] for a character [c]. *)
Definition remove_char (c : char) (s : str) : str :=
  List.filter (fun x => negb (N.eqb x c)) s.

(** [sum(1 for c in text if p(c))]. *)
Definition count_if (p : char -> bool) (text : str) : Z :=
  len (List.filter p text).

Record basic_stats := {
  character_count : Z;
  character_count_no_spaces : Z;
  word_count : Z;
  line_count : Z;
  paragraph_count : Z;
  blank_lines : Z;
}.

Record char_counts := {
  uppercase_letters : Z;
  lowercase_letters : Z;
  digits : Z;
  spaces : Z;
  punctuation : Z;
  special_characters : Z;
}.

(** The characters [_analyze_characters] counts as punctuation. *)
Definition punctuation_chars : str :=
  lit ".,!?;:" ++ [34%N] ++ lit "()[]{}".

Section Analyzer.
Context {U : UnicodeDB}.

(** [str.isupper], [str.islower] and [str.isdigit] of one character. *)
Variables is_upper is_lower is_digit : char -> bool.

Definition _get_basic_stats (text : str) : basic_stats :=
  let lines := split_on NL text in
  let words := words_by is_space [] text in
  let paragraphs :=
    map (strip_by is_space)
        (filter (fun p => nonempty (strip_by is_space p))
                (split_on2 NL NL text)) in
  {| character_count := len text;
     character_count_no_spaces := len (remove_char SP text);
     word_count := len words;
     line_count := len lines;
     paragraph_count := len paragraphs;
     blank_lines :=
       len (filter (fun line => negb (nonempty (strip_by is_space line)))
                   lines) |}.

Definition _analyze_characters (text : str) : char_counts :=
  {| uppercase_letters := count_if is_upper text;
     lowercase_letters := count_if is_lower text;
     digits := count_if is_digit text;
     spaces := count_if is_space text;
     punctuation :=
       count_if (fun c => existsb (N.eqb c) punctuation_chars) text;
     special_characters :=
       count_if (fun c => negb (is_alnum c) && negb (is_space c)) text |}.

End Analyzer.

(** The quote step of [normalize]: a double quote or a backquote becomes a
    double quote, every other character stays. *)
Definition straighten (on : bool) (c : char) : char :=
  if on && (N.eqb c 34 || N.eqb c 96) then 34%N else c.

(** * Properties *)

(** ** Splitting and joining *)

Lemma split_on_nonempty sep s : split_on sep s <> [].
Proof.
  destruct s as [|c s]; simpl; [discriminate|].
  destruct (N.eqb c sep); [discriminate|].
  destruct (split_on sep s); discriminate.
Qed.

Lemma join_cons sep p q ps :
  join sep (p :: q :: ps) = p ++ sep ++ join sep (q :: ps).
Proof. reflexivity. Qed.

(** Joining the pieces of a split gives the string back. *)
Lemma join_split_on sep s : join [sep] (split_on sep s) = s.
Proof.
  induction s as [|c s IH]; simpl; [reflexivity|].
  destruct (N.eqb_spec c sep) as [->|Hne].
  - pose proof (split_on_nonempty sep s) as Hn.
    destruct (split_on sep s) as [|l ls]; [congruence|].
    rewrite join_cons. simpl. simpl in IH. rewrite IH. reflexivity.
  - pose proof (split_on_nonempty sep s) as Hn.
    destruct (split_on sep s) as [|l ls]; [congruence|].
    destruct ls as [|l' ls]; simpl in *; congruence.
Qed.

Lemma split_on_app_sep sep p s :
  sep ∉ p -> split_on sep (p ++ sep :: s) = p :: split_on sep s.
Proof.
  induction p as [|c p IH]; intros Hp; simpl.
  - rewrite N.eqb_refl. reflexivity.
  - destruct (N.eqb_spec c sep) as [->|Hne].
    + exfalso. apply Hp. left.
    + rewrite IH; [reflexivity|]. intros H. apply Hp. right. exact H.
Qed.

Lemma split_on_no_sep sep p : sep ∉ p -> split_on sep p = [p].
Proof.
  induction p as [|c p IH]; intros Hp; simpl; [reflexivity|].
  destruct (N.eqb_spec c sep) as [->|Hne].
  - exfalso. apply Hp. left.
  - rewrite IH; [reflexivity|]. intros H. apply Hp. right. exact H.
Qed.

(** Splitting a join of separator-free pieces gives the pieces back. *)
Lemma split_on_join sep ps :
  ps <> [] -> Forall (fun p => sep ∉ p) ps ->
  split_on sep (join [sep] ps) = ps.
Proof.
  induction ps as [|p ps IH]; intros Hne Hall; [congruence|].
  inversion Hall as [|? ? Hp Hps]; subst.
  destruct ps as [|q ps].
  - simpl. apply split_on_no_sep. exact Hp.
  - rewrite join_cons.
    change (p ++ [sep] ++ join [sep] (q :: ps))
      with (p ++ sep :: join [sep] (q :: ps)).
    rewrite split_on_app_sep by exact Hp.
    rewrite IH; [reflexivity|discriminate|exact Hps].
Qed.

(** No piece of a split contains the separator. *)
Lemma split_on_pieces sep s : Forall (fun p => sep ∉ p) (split_on sep s).
Proof.
  induction s as [|c s IH]; simpl.
  - constructor; [|constructor]. intros H. inversion H.
  - destruct (N.eqb_spec c sep) as [->|Hne].
    + constructor; [|exact IH]. intros H. inversion H.
    + destruct (split_on sep s) as [|l ls].
      * constructor; [|constructor]. intros H.
        inversion H; subst; [congruence|]. inversion H2.
      * inversion IH; subst. constructor; [|assumption].
        intros H. inversion H; subst; [congruence|]. contradiction.
Qed.

(** Every piece of a join occurs in it. *)
Lemma join_contains sep ps p :
  p ∈ ps -> exists pre post, join sep ps = pre ++ p ++ post.
Proof.
  induction ps as [|q ps IH]; intros Hin; [inversion Hin|].
  destruct ps as [|r ps].
  - inversion Hin; subst; [|inversion H1].
    exists [], []. simpl. rewrite app_nil_r. reflexivity.
  - rewrite join_cons. inversion Hin; subst.
    + exists [], (sep ++ join sep (r :: ps)). reflexivity.
    + destruct (IH H1) as (pre & post & E). rewrite E.
      exists (q ++ sep ++ pre), post. rewrite <- !app_assoc. reflexivity.
Qed.

(** ** Dispatch *)

Lemma operations_keys `{U : UnicodeDB} : map fst operations = operation_names.
Proof. reflexivity. Qed.

Lemma lookup_operation_none {F} name (ops : list (str * F)) :
  name ∉ map fst ops -> lookup_operation name ops = None.
Proof.
  induction ops as [|[k f] ops IH]; intros Hn; simpl; [reflexivity|].
  destruct (decide (name = k)) as [->|Hne].
  - exfalso. apply Hn. simpl. left.
  - apply IH. intros H. apply Hn. simpl. right. exact H.
Qed.

Lemma dispatch_unknown `{U : UnicodeDB} (text operation : str) (kw : kwargs) :
  operation ∉ operation_names ->
  transform_text text operation kw
  = Err (ValueError (Some (unknown_operation_message operation))).
Proof.
  intros Hn. unfold transform_text. rewrite lookup_operation_none; [reflexivity|].
  rewrite operations_keys. exact Hn.
Qed.

(** C1. For every text and every options map, [transform_text] with an
    operation name that is not one of the twelve registered names fails
    with the [ValueError] of the unknown operation, and the message of the
    error contains each of the twelve names. *)
Theorem transform_text_unknown_operation `{U : UnicodeDB}
    (text operation : str) (kw : kwargs) :
  operation ∉ operation_names ->
  transform_text text operation kw
    = Err (ValueError (Some (unknown_operation_message operation)))
  /\ length operation_names = 12%nat
  /\ NoDup operation_names
  /\ forall n, n ∈ operation_names ->
       exists pre post, unknown_operation_message operation = pre ++ n ++ post.
Proof.
  intros Hn. split; [|split; [reflexivity|split]].
  - apply dispatch_unknown. exact Hn.
  - apply (bool_decide_unpack _). vm_compute. exact I.
  - intros n Hin. destruct (join_contains (lit ", ") _ _ Hin) as (pre & post & E).
    unfold unknown_operation_message. rewrite E.
    exists (lit "Unknown operation '" ++ operation ++ lit "'. Available: " ++ pre), post.
    rewrite <- !app_assoc. reflexivity.
Qed.

Lemma transform_text_unknown_operation_witness :
  (lit "unknown_operation" ∉ operation_names)
  /\ @transform_text ascii_tables (lit "test") (lit "unknown_operation") ∅
     = Err (ValueError (Some (unknown_operation_message (lit "unknown_operation")))).
Proof.
  assert (H : lit "unknown_operation" ∉ operation_names).
  { apply (bool_decide_unpack _). vm_compute. exact I. }
  split; [exact H|].
  exact (proj1 (@transform_text_unknown_operation ascii_tables
                  (lit "test") (lit "unknown_operation") ∅ H)).
Defined.

(** ** The empty text *)

Lemma str_int_nonempty n : str_int n <> [].
Proof.
  assert (H : forall d, d <> Decimal.Nil -> uint_text d <> []).
  { intros d Hd. destruct d; simpl; congruence. }
  destruct n as [|p|p]; simpl; [discriminate| |discriminate].
  apply H, DecimalPos.Unsigned.to_uint_nonnil.
Qed.

(** C8. For each of the twelve registered operations and the default
    options, dispatching the empty text returns a value and raises nothing;
    [sentence] in particular returns the empty text. *)
Theorem transform_text_empty `{U : UnicodeDB} (operation : str) :
  operation ∈ operation_names ->
  transform_text [] operation ∅ = Ok (on_empty operation)
  /\ transform_text [] (lit "sentence") ∅ = Ok [].
Proof.
  intros Hin. split; [|reflexivity].
  unfold operation_names in Hin.
  repeat (apply elem_of_cons in Hin; destruct Hin as [->|Hin]);
    [ .. | inversion Hin ];
    unfold transform_text; simpl lookup_operation; unfold on_empty;
    try (cbv [_to_upper _to_lower _to_title];
         rewrite ?str_upper_empty, ?str_lower_empty, ?str_title_empty;
         reflexivity);
    vm_compute; reflexivity.
Qed.

Lemma transform_text_empty_witness :
  (lit "sort_lines" ∈ operation_names)
  /\ @transform_text ascii_tables [] (lit "sort_lines") ∅ = Ok [].
Proof.
  assert (H : lit "sort_lines" ∈ operation_names).
  { apply (bool_decide_unpack _). vm_compute. exact I. }
  split; [exact H|].
  exact (proj1 (@transform_text_empty ascii_tables (lit "sort_lines") H)).
Defined.

(** ** Reversal *)

(** C9. In character mode, that is with neither [by_lines] nor [by_words]
    set, reversing twice gives the text back. *)
Theorem reverse_twice `{U : UnicodeDB} (text : str) (kw : kwargs) :
  truthy (kw_get kw "by_lines" (VBool false)) = false ->
  truthy (kw_get kw "by_words" (VBool false)) = false ->
  bind (transform_text text (lit "reverse") kw)
       (fun reversed => transform_text reversed (lit "reverse") kw)
  = Ok text.
Proof.
  intros Hl Hw.
  assert (E : forall t, transform_text t (lit "reverse") kw = Ok (rev t)).
  { intros t. unfold transform_text. simpl lookup_operation.
    unfold _reverse_text. rewrite Hl, Hw. reflexivity. }
  rewrite E. simpl. rewrite E. rewrite rev_involutive. reflexivity.
Qed.

Lemma reverse_twice_witness :
  bind (@transform_text ascii_tables (lit "Hello World") (lit "reverse") ∅)
       (fun reversed => @transform_text ascii_tables reversed (lit "reverse") ∅)
  = Ok (lit "Hello World").
Proof.
  apply (@reverse_twice ascii_tables (lit "Hello World") ∅); reflexivity.
Defined.

(** ** Line numbers *)

Lemma transform_text_add_line_numbers `{U : UnicodeDB} text kw :
  transform_text text (lit "add_line_numbers") kw = _add_line_numbers text kw.
Proof. reflexivity. Qed.

(** C10. On the empty text [add_line_numbers] returns one numbered empty
    line: the number, right-justified, and the separator.  The result is
    never empty, and with the default options it is ["1: "]. *)
Theorem add_line_numbers_empty `{U : UnicodeDB} (kw : kwargs) (start width : Z) :
  as_index (kw_get kw "start" (VInt 1)) = Some start ->
  as_index (kw_get kw "width" (VInt (len (str_int start)))) = Some width ->
  let separator := kw_get kw "separator" (VStr (lit ": ")) in
  let line := rjust width (str_int start) ++ str_value separator in
  transform_text [] (lit "add_line_numbers") kw = Ok line
  /\ line <> []
  /\ transform_text [] (lit "add_line_numbers") ∅ = Ok (lit "1: ").
Proof.
  intros Hs Hw separator line. split; [|split].
  - rewrite transform_text_add_line_numbers. unfold _add_line_numbers.
    unfold require_index. rewrite Hs. cbv beta iota delta [bind].
    replace (len (split_on NL []) + start - 1)%Z with start
      by (unfold len; simpl; lia).
    cbv zeta. rewrite Hw. simpl. unfold line, separator. rewrite app_nil_r. reflexivity.
  - unfold line, rjust. intros E.
    apply app_eq_nil in E as [E _]. apply app_eq_nil in E as [_ E].
    exact (str_int_nonempty _ E).
  - vm_compute. reflexivity.
Qed.

Lemma add_line_numbers_empty_witness :
  @transform_text ascii_tables [] (lit "add_line_numbers")
     {[ "start" := VInt 7; "width" := VInt 3 ]}
  = Ok (lit "  7: ").
Proof.
  exact (proj1 (@add_line_numbers_empty ascii_tables
                  {[ "start" := VInt 7; "width" := VInt 3 ]} 7 3
                  eq_refl eq_refl)).
Defined.

Lemma uint_text_no_newline d : NL ∉ uint_text d.
Proof.
  induction d; simpl; intros H;
    [ inversion H
    | apply elem_of_cons in H as [H|H]; [discriminate|contradiction] .. ].
Qed.

Lemma str_int_no_newline n : NL ∉ str_int n.
Proof.
  destruct n as [|p|p]; simpl.
  - intros H. apply list_elem_of_singleton in H. discriminate.
  - apply uint_text_no_newline.
  - intros H. apply elem_of_cons in H as [H|H]; [discriminate|].
    exact (uint_text_no_newline _ H).
Qed.

Lemma rjust_no_newline width s : NL ∉ s -> NL ∉ rjust width s.
Proof.
  intros Hs H. unfold rjust in H. apply elem_of_app in H as [H|H]; [|auto].
  apply list_elem_of_In, repeat_spec in H. discriminate.
Qed.

Lemma numbered_lines_length width separator i lines :
  length (numbered_lines width separator i lines) = length lines.
Proof.
  revert i. induction lines as [|l lines IH]; intros i; simpl;
    [reflexivity | rewrite IH; reflexivity].
Qed.

Lemma numbered_lines_lookup width separator i lines k line :
  lines !! k = Some line ->
  numbered_lines width separator i lines !! k
  = Some (rjust width (str_int (i + Z.of_nat k)) ++ str_value separator ++ line).
Proof.
  revert i k. induction lines as [|l lines IH]; intros i k Hk; [discriminate|].
  destruct k as [|k]; simpl in *.
  - inversion Hk; subst. change (Z.of_nat 0) with 0%Z.
    rewrite Z.add_0_r. reflexivity.
  - rewrite (IH _ _ Hk).
    replace (i + 1 + Z.of_nat k)%Z with (i + Z.of_nat (S k))%Z by lia.
    reflexivity.
Qed.

Lemma numbered_lines_no_newline width separator i lines :
  NL ∉ str_value separator ->
  Forall (fun l => NL ∉ l) lines ->
  Forall (fun l => NL ∉ l) (numbered_lines width separator i lines).
Proof.
  intros Hsep. revert i.
  induction lines as [|l lines IH]; intros i Hall; simpl; [constructor|].
  inversion Hall; subst. constructor; [|apply IH; assumption].
  intros H. apply elem_of_app in H as [H|H].
  - exact (rjust_no_newline _ _ (str_int_no_newline _) H).
  - apply elem_of_app in H as [H|H]; auto.
Qed.

(** C7, as the code has it.  [add_line_numbers] returns the join, with
    line feeds, of one string for each line of the text: string [k]
    (counting from 0) is the number [start + k], right-justified to the
    width, then the separator, then line [k] of the text.  Without the
    options the start is 1, the separator is [": "] and the width is the
    length of [str(len(lines) + start - 1)].  When the separator holds no
    line feed these strings are the lines of the result, which then has as
    many lines as the text. *)
Theorem add_line_numbers_lines `{U : UnicodeDB}
    (text : str) (kw : kwargs) (start width : Z) :
  let lines := split_on NL text in
  let separator := str_value (kw_get kw "separator" (VStr (lit ": "))) in
  as_index (kw_get kw "start" (VInt 1)) = Some start ->
  as_index (kw_get kw "width" (VInt (len (str_int (len lines + start - 1)))))
    = Some width ->
  exists out_lines,
    transform_text text (lit "add_line_numbers") kw = Ok (join [NL] out_lines)
    /\ length out_lines = length lines
    /\ (forall k line, lines !! k = Some line ->
          out_lines !! k
          = Some (rjust width (str_int (start + Z.of_nat k)) ++ separator ++ line))
    /\ (kw !! "start" = None -> start = 1%Z)
    /\ (kw !! "separator" = None -> separator = lit ": ")
    /\ (kw !! "width" = None -> width = len (str_int (len lines + start - 1)))
    /\ (NL ∉ separator ->
        split_on NL (join [NL] out_lines) = out_lines
        /\ length (split_on NL (join [NL] out_lines)) = length lines).
Proof.
  intros lines separator Hs Hw.
  exists (numbered_lines width (kw_get kw "separator" (VStr (lit ": "))) start lines).
  assert (Hsplit : NL ∉ separator ->
            split_on NL (join [NL] (numbered_lines width
               (kw_get kw "separator" (VStr (lit ": "))) start lines))
            = numbered_lines width
                (kw_get kw "separator" (VStr (lit ": "))) start lines).
  { intros Hsep. apply split_on_join.
    - pose proof (split_on_nonempty NL text) as Hne. fold lines in Hne.
      destruct lines; [congruence|discriminate].
    - apply numbered_lines_no_newline; [exact Hsep|apply split_on_pieces]. }
  split; [|split; [|split; [|split; [|split; [|split]]]]].
  - rewrite transform_text_add_line_numbers. unfold _add_line_numbers.
    unfold require_index. rewrite Hs. cbv beta iota delta [bind].
    fold lines. cbv zeta. rewrite Hw. reflexivity.
  - apply numbered_lines_length.
  - intros k line Hk. apply numbered_lines_lookup. exact Hk.
  - intros Hnone. unfold kw_get in Hs. rewrite Hnone in Hs.
    simpl in Hs. congruence.
  - intros Hnone. unfold separator, kw_get. rewrite Hnone. reflexivity.
  - intros Hnone. unfold kw_get in Hw. rewrite Hnone in Hw.
    simpl in Hw. congruence.
  - intros Hsep. split; [exact (Hsplit Hsep)|].
    rewrite (Hsplit Hsep). apply numbered_lines_length.
Qed.

Lemma add_line_numbers_lines_witness :
  exists out_lines,
    @transform_text ascii_tables (lit "First line" ++ [NL] ++ lit "Second line")
       (lit "add_line_numbers") {[ "start" := VInt 10 ]}
    = Ok (join [NL] out_lines)
    /\ length out_lines = 2%nat
    /\ out_lines !! 1%nat = Some (lit "11: Second line")
    /\ length (split_on NL (join [NL] out_lines)) = 2%nat.
Proof.
  destruct (@add_line_numbers_lines ascii_tables
              (lit "First line" ++ [NL] ++ lit "Second line")
              {[ "start" := VInt 10 ]} 10 2)
    as (out_lines & Hout & Hlen & Hk & _ & _ & _ & Hsep).
  { vm_compute. reflexivity. }
  { vm_compute. reflexivity. }
  exists out_lines. split; [exact Hout|]. split; [exact Hlen|].
  split; [exact (Hk 1%nat (lit "Second line") eq_refl)|].
  apply Hsep. apply (bool_decide_unpack _). vm_compute. exact I.
Defined.

(** C7, as stated, fails when the separator holds a line feed: one input
    line gives two output lines. *)
Lemma add_line_numbers_newline_separator :
  @transform_text ascii_tables (lit "a") (lit "add_line_numbers")
     {[ "separator" := VStr [NL] ]}
  = Ok (lit "1" ++ [NL] ++ lit "a")
  /\ length (split_on NL (lit "1" ++ [NL] ++ lit "a"))
     <> length (split_on NL (lit "a")).
Proof. split; [vm_compute; reflexivity | vm_compute; discriminate]. Qed.

(** ** The order on strings *)

Lemma text_lt_irrefl a : text_lt a a = false.
Proof.
  induction a as [|x a IH]; simpl; [reflexivity|].
  rewrite N.ltb_irrefl. exact IH.
Qed.

Lemma text_lt_trans a b c :
  text_lt a b = true -> text_lt b c = true -> text_lt a c = true.
Proof.
  revert b c. induction a as [|x a IH]; intros [|y b] [|z c]; simpl;
    try discriminate; try reflexivity.
  destruct (N.ltb_spec x y), (N.ltb_spec y x), (N.ltb_spec y z),
    (N.ltb_spec z y), (N.ltb_spec x z), (N.ltb_spec z x);
    try discriminate; try reflexivity; try lia.
  apply IH.
Qed.

Lemma text_lt_connex a b :
  text_lt a b = false -> text_lt b a = false -> a = b.
Proof.
  revert b. induction a as [|x a IH]; intros [|y b]; simpl;
    try discriminate; try reflexivity.
  destruct (N.ltb_spec x y), (N.ltb_spec y x); try discriminate; try lia.
  intros H1 H2. assert (x = y) by lia. subst. f_equal. apply IH; assumption.
Qed.

Lemma text_lt_asym a b : text_lt a b = true -> text_lt b a = false.
Proof.
  intros H. destruct (text_lt b a) eqn:E; [|reflexivity].
  pose proof (text_lt_trans _ _ _ H E) as Hc.
  rewrite text_lt_irrefl in Hc. discriminate.
Qed.

(** "Not greater" is transitive. *)
Lemma text_le_trans a b c :
  text_lt b a = false -> text_lt c b = false -> text_lt c a = false.
Proof.
  intros Hab Hbc. destruct (text_lt c a) eqn:Hca; [|reflexivity].
  destruct (text_lt b c) eqn:Hbc'.
  - rewrite (text_lt_trans _ _ _ Hbc' Hca) in Hab. discriminate.
  - rewrite (text_lt_connex b c Hbc' Hbc) in Hab. congruence.
Qed.

(** ** Sorting *)

Section Sort.
Context {A : Type} (lt : A -> A -> bool).
Hypothesis lt_asym : forall a b, lt a b = true -> lt b a = false.
Hypothesis le_trans :
  forall a b c, lt b a = false -> lt c b = false -> lt c a = false.

Lemma insert_by_perm x l : insert_by lt x l ≡ₚ x :: l.
Proof.
  induction l as [|y l IH]; simpl; [reflexivity|].
  destruct (lt y x); [|reflexivity].
  rewrite IH. apply perm_swap.
Qed.

Lemma stable_sort_perm l : stable_sort lt l ≡ₚ l.
Proof.
  induction l as [|x l IH]; simpl; [reflexivity|].
  rewrite insert_by_perm, IH. reflexivity.
Qed.

Lemma insert_by_sorted x l :
  StronglySorted (fun a b => lt b a = false) l ->
  StronglySorted (fun a b => lt b a = false) (insert_by lt x l).
Proof.
  induction l as [|y l IH]; intros Hs; simpl.
  - constructor; constructor.
  - inversion Hs as [|? ? Hl Hy]; subst.
    destruct (lt y x) eqn:E.
    + constructor; [apply IH; exact Hl|].
      apply Forall_forall. intros z Hz.
      rewrite insert_by_perm in Hz.
      apply elem_of_cons in Hz as [->|Hz].
      * apply lt_asym. exact E.
      * rewrite Forall_forall in Hy. apply Hy, Hz.
    + constructor; [exact Hs|].
      constructor; [exact E|].
      eapply Forall_impl; [exact Hy|]. simpl. intros z Hz.
      eapply le_trans; eassumption.
Qed.

Lemma stable_sort_sorted l :
  StronglySorted (fun a b => lt b a = false) (stable_sort lt l).
Proof.
  induction l as [|x l IH]; simpl; [constructor|].
  apply insert_by_sorted. exact IH.
Qed.
End Sort.

Lemma StronglySorted_app {A} (R : A -> A -> Prop) l1 l2 :
  StronglySorted R l1 -> StronglySorted R l2 ->
  (forall a b, a ∈ l1 -> b ∈ l2 -> R a b) ->
  StronglySorted R (l1 ++ l2).
Proof.
  induction l1 as [|x l1 IH]; intros H1 H2 H12; simpl; [exact H2|].
  inversion H1 as [|? ? Hl Hx]; subst. constructor.
  - apply IH; [exact Hl|exact H2|]. intros a b Ha Hb.
    apply H12; [right; exact Ha|exact Hb].
  - apply Forall_app. split; [exact Hx|].
    apply Forall_forall. intros b Hb. apply H12; [left|exact Hb].
Qed.

Lemma StronglySorted_rev {A} (R : A -> A -> Prop) l :
  StronglySorted R l -> StronglySorted (fun a b => R b a) (rev l).
Proof.
  induction 1 as [|x l Hl IH Hx]; simpl; [constructor|].
  apply StronglySorted_app; [exact IH|constructor; constructor|].
  intros a b Ha Hb. apply list_elem_of_singleton in Hb as ->.
  rewrite Forall_forall in Hx. apply Hx.
  apply list_elem_of_In, in_rev, list_elem_of_In. exact Ha.
Qed.

Lemma StronglySorted_strengthen {A} (R S : A -> A -> Prop) l :
  NoDup l -> (forall a b, a <> b -> R a b -> S a b) ->
  StronglySorted R l -> StronglySorted S l.
Proof.
  intros Hnd HRS Hs. induction Hs as [|x l Hl IH Hx]; [constructor|].
  apply NoDup_cons in Hnd as [Hx' Hnd]. constructor; [apply IH; exact Hnd|].
  apply Forall_forall. intros y Hy. apply HRS.
  - intros ->. apply Hx', Hy.
  - rewrite Forall_forall in Hx. apply Hx, Hy.
Qed.

(** [list.sort]: a permutation of the list, in the order of the keys. *)
Lemma list_sort_perm (key : str -> str) (reverse : bool) (l : list str) :
  list_sort key reverse l ≡ₚ l.
Proof.
  unfold list_sort. destruct reverse.
  - rewrite <- Permutation_rev, stable_sort_perm, <- Permutation_rev.
    reflexivity.
  - apply stable_sort_perm.
Qed.

Lemma list_sort_sorted (key : str -> str) (reverse : bool) (l : list str) :
  StronglySorted
    (fun a b => if reverse then text_lt (key a) (key b) = false
                else text_lt (key b) (key a) = false)
    (list_sort key reverse l).
Proof.
  assert (Hs : forall l', StronglySorted
            (fun a b => text_lt (key b) (key a) = false)
            (stable_sort (fun a b => text_lt (key a) (key b)) l')).
  { intros l'. apply stable_sort_sorted.
    - intros a b. apply text_lt_asym.
    - intros a b c. apply text_le_trans. }
  unfold list_sort. destruct reverse.
  - apply (StronglySorted_rev _ _ (Hs (rev l))).
  - apply Hs.
Qed.

(** ** De-duplication *)

Lemma mem_text_spec x l : mem_text x l = true <-> x ∈ l.
Proof.
  induction l as [|y l IH]; simpl.
  - split; [discriminate|]. intros H. inversion H.
  - destruct (decide (x = y)) as [->|Hne].
    + split; [intros _; left|reflexivity].
    + rewrite IH. split; [intros H; right; exact H|].
      intros H. apply elem_of_cons in H as [H|H]; [congruence|exact H].
Qed.

Lemma fromkeys_from l keys :
  NoDup keys ->
  let r := fold_left (fun keys x => if mem_text x keys then keys else keys ++ [x])
                     l keys in
  NoDup r /\ forall x, x ∈ r <-> x ∈ keys \/ x ∈ l.
Proof.
  revert keys. induction l as [|y l IH]; intros keys Hnd; simpl.
  - split; [exact Hnd|]. intros x. split; [intros H; left; exact H|].
    intros [H|H]; [exact H|inversion H].
  - destruct (mem_text y keys) eqn:E.
    + destruct (IH keys Hnd) as [H1 H2]. split; [exact H1|].
      intros x. rewrite H2. apply mem_text_spec in E.
      rewrite elem_of_cons. split; [tauto|].
      intros [H|[->|H]]; tauto.
    + assert (Hy : y ∉ keys).
      { intros H. apply mem_text_spec in H. congruence. }
      assert (Hnd' : NoDup (keys ++ [y])).
      { apply NoDup_app. split; [exact Hnd|]. split.
        - intros x Hx Hx'. apply list_elem_of_singleton in Hx' as ->. auto.
        - apply NoDup_singleton. }
      destruct (IH _ Hnd') as [H1 H2]. split; [exact H1|].
      intros x. rewrite H2, elem_of_app, list_elem_of_singleton, elem_of_cons.
      tauto.
Qed.

Lemma fromkeys_NoDup l : NoDup (fromkeys l).
Proof. apply (fromkeys_from l []). constructor. Qed.

Lemma fromkeys_elem l x : x ∈ fromkeys l <-> x ∈ l.
Proof.
  pose proof (proj2 (fromkeys_from l [] (NoDup_nil_2)) x) as H.
  unfold fromkeys. rewrite H. split; [|tauto].
  intros [Hx|Hx]; [inversion Hx|exact Hx].
Qed.

(** ** Sorted lines *)

Lemma transform_text_sort_lines `{U : UnicodeDB} text kw :
  transform_text text (lit "sort_lines") kw = _sort_lines text kw.
Proof. reflexivity. Qed.

(** C5, as the code has it.  With [remove_duplicates] set, the lines
    [sort_lines] yields have no repeated line, are exactly the distinct
    lines of the text, and are ordered by their keys: never decreasing, or
    never increasing with [reverse].  When [ignore_case] is not set the
    order is strict.  (With [ignore_case], lines that differ only in case
    are both kept and have equal keys.) *)
Theorem sort_lines_remove_duplicates `{U : UnicodeDB}
    (text : str) (kw : kwargs) (rv : Z) :
  truthy (kw_get kw "remove_duplicates" (VBool false)) = true ->
  as_index (kw_get kw "reverse" (VBool false)) = Some rv ->
  let ignore_case := truthy (kw_get kw "ignore_case" (VBool false)) in
  let key := sort_key ignore_case in
  let descending := negb (Z.eqb rv 0) in
  exists lines,
    transform_text text (lit "sort_lines") kw = Ok (join [NL] lines)
    /\ split_on NL (join [NL] lines) = lines
    /\ NoDup lines
    /\ (forall line, line ∈ lines <-> line ∈ split_on NL text)
    /\ StronglySorted
         (fun a b => if descending then text_lt (key a) (key b) = false
                     else text_lt (key b) (key a) = false) lines
    /\ (ignore_case = false ->
        StronglySorted
          (fun a b => if descending then text_lt b a = true
                      else text_lt a b = true) lines).
Proof.
  intros Hd Hr ignore_case key descending.
  set (lines := list_sort key descending (fromkeys (split_on NL text))).
  assert (Hperm : lines ≡ₚ fromkeys (split_on NL text))
    by apply list_sort_perm.
  assert (Hnd : NoDup lines).
  { rewrite Hperm. apply fromkeys_NoDup. }
  assert (Hel : forall line, line ∈ lines <-> line ∈ split_on NL text).
  { intros line. rewrite Hperm. apply fromkeys_elem. }
  assert (Hsorted : StronglySorted
         (fun a b => if descending then text_lt (key a) (key b) = false
                     else text_lt (key b) (key a) = false) lines)
    by apply list_sort_sorted.
  exists lines. split; [|split; [|split; [|split; [|split]]]];
    try assumption.
  - rewrite transform_text_sort_lines. unfold _sort_lines.
    rewrite Hd. unfold require_index. rewrite Hr. cbv beta iota delta [bind].
    fold descending. unfold lines, key, sort_key. fold ignore_case.
    destruct ignore_case; reflexivity.
  - apply split_on_join.
    + intros E. pose proof (split_on_nonempty NL text) as Hne.
      destruct (split_on NL text) as [|l ls] eqn:Es; [congruence|].
      assert (Hl : l ∈ lines) by (apply Hel; left).
      rewrite E in Hl. inversion Hl.
    + apply Forall_forall. intros line Hline. apply Hel in Hline.
      pose proof (split_on_pieces NL text) as Hp.
      rewrite Forall_forall in Hp. apply Hp. exact Hline.
  - intros Hic. unfold key, sort_key in Hsorted. rewrite Hic in Hsorted.
    eapply StronglySorted_strengthen; [exact Hnd| |exact Hsorted].
    intros a b Hne. simpl. destruct descending; intros Hle.
    + destruct (text_lt b a) eqn:E; [reflexivity|].
      exfalso. apply Hne. apply text_lt_connex; assumption.
    + destruct (text_lt a b) eqn:E; [reflexivity|].
      exfalso. apply Hne. apply text_lt_connex; assumption.
Qed.

Lemma sort_lines_remove_duplicates_witness :
  exists lines,
    @transform_text ascii_tables
       (lit "Apple" ++ [NL] ++ lit "Banana" ++ [NL] ++ lit "Apple" ++ [NL]
          ++ lit "Zebra")
       (lit "sort_lines") {[ "remove_duplicates" := VBool true ]}
    = Ok (join [NL] lines)
    /\ NoDup lines.
Proof.
  destruct (@sort_lines_remove_duplicates ascii_tables
              (lit "Apple" ++ [NL] ++ lit "Banana" ++ [NL] ++ lit "Apple" ++ [NL]
                 ++ lit "Zebra")
              {[ "remove_duplicates" := VBool true ]} 0)
    as (lines & Hout & _ & Hnd & _).
  { vm_compute. reflexivity. }
  { vm_compute. reflexivity. }
  exists lines. split; [exact Hout|exact Hnd].
Defined.

(** C5, as stated, fails with [ignore_case]: the lines ["A"] and ["a"] are
    distinct, both are kept, and neither comes strictly before the other
    in the case-insensitive comparison. *)
Lemma sort_lines_ignore_case_not_strict :
  @transform_text ascii_tables (lit "A" ++ [NL] ++ lit "a") (lit "sort_lines")
     {[ "remove_duplicates" := VBool true; "ignore_case" := VBool true ]}
  = Ok (join [NL] [lit "A"; lit "a"])
  /\ split_on NL (join [NL] [lit "A"; lit "a"]) = [lit "A"; lit "a"]
  /\ text_lt (@str_lower ascii_tables (lit "A")) (@str_lower ascii_tables (lit "a"))
     = false.
Proof. repeat split; vm_compute; reflexivity. Qed.

(** ** Matching runs of a class *)

Section Runs.
Context {U : UnicodeDB}.

Lemma prev_at_cons prev c s r :
  prev_at (Some c) s r = prev_at prev (c :: s) (S r).
Proof. destruct r; reflexivity. Qed.

(** A repetition whose continuation fails inside a run takes the whole
    run or nothing. *)
Lemma rep_whole_run {R} k (cont : option char -> str -> nat -> option R)
    lo hi prev s n :
  (forall p s' n', opt_test (cmatch k) p = true ->
                   opt_test (cmatch k) (head s') = true ->
                   cont p s' n' = None) ->
  (lo = O -> opt_test (cmatch k) prev = true) ->
  rep k cont lo hi prev s n
  = if (lo <=? run k s)%nat && within (run k s) hi
    then cont (prev_at prev s (run k s)) (drop (run k s) s) (n + run k s)%nat
    else None.
Proof.
  intros Hcont. revert lo hi prev n.
  induction s as [|c s IH]; intros lo hi prev n Hlo.
  - simpl. destruct lo; simpl.
    + destruct hi; simpl; rewrite Nat.add_0_r; reflexivity.
    + reflexivity.
  - simpl rep. simpl run. destruct (cmatch k c) eqn:Ec.
    + assert (Hstop : match lo with
                      | O => cont prev (c :: s) n
                      | S _ => None
                      end = None).
      { destruct lo; [|reflexivity]. apply Hcont; [auto|].
        simpl. exact Ec. }
      rewrite Hstop. clear Hstop.
      destruct hi as [[|h]|]; simpl may_repeat; simpl andb.
      * simpl within. rewrite andb_false_r. reflexivity.
      * rewrite IH by (intros _; simpl; exact Ec).
        rewrite (prev_at_cons prev). simpl drop.
        replace (S n + run k s)%nat with (n + S (run k s))%nat by lia.
        simpl within. simpl option_map.
        replace (Nat.pred lo <=? run k s)%nat with (lo <=? S (run k s))%nat
          by (destruct lo; reflexivity).
        match goal with
        | |- context [if ?b then _ else _] => destruct b
        end; [|reflexivity].
        destruct (cont _ _ _); reflexivity.
      * rewrite IH by (intros _; simpl; exact Ec).
        rewrite (prev_at_cons prev). simpl drop.
        replace (S n + run k s)%nat with (n + S (run k s))%nat by lia.
        simpl within. rewrite !andb_true_r.
        replace (Nat.pred lo <=? run k s)%nat with (lo <=? S (run k s))%nat
          by (destruct lo; reflexivity).
        destruct (lo <=? S (run k s))%nat; [|reflexivity].
        destruct (cont _ _ _); reflexivity.
    + simpl andb. destruct lo; simpl.
      * destruct hi; simpl; rewrite Nat.add_0_r; reflexivity.
      * reflexivity.
Qed.

(** A run ends before a character that is not in the class. *)
Lemma run_end k s : opt_test (cmatch k) (head (drop (run k s) s)) = false.
Proof.
  induction s as [|c s IH]; simpl; [reflexivity|].
  destruct (cmatch k c) eqn:Ec; simpl; [exact IH|exact Ec].
Qed.

(** A run that is not empty starts with a character of the class. *)
Lemma run_head k s r :
  run k s = S r -> opt_test (cmatch k) (head s) = true.
Proof.
  destruct s as [|c s]; simpl; [discriminate|].
  destruct (cmatch k c); [reflexivity|discriminate].
Qed.

(** The characters of a run are in the class. *)
Lemma run_last k prev s r :
  run k s = S r -> opt_test (cmatch k) (prev_at prev s (S r)) = true.
Proof.
  simpl. revert r. induction s as [|c s IH]; intros r; simpl; [discriminate|].
  destruct (cmatch k c) eqn:Ec; [|discriminate].
  intros Hr. injection Hr as Hr. destruct r as [|r]; simpl; [exact Ec|].
  apply IH. exact Hr.
Qed.

(** A repetition that ends the pattern takes the whole run. *)
Lemma rep_to_end {G} k (gs : G) lo prev s n :
  rep k (fun _ _ n' => Some (n', gs)) lo None prev s n
  = if (lo <=? run k s)%nat then Some ((n + run k s)%nat, gs) else None.
Proof.
  revert lo prev n. induction s as [|c s IH]; intros lo prev n.
  - simpl. destruct lo; simpl; [rewrite Nat.add_0_r|]; reflexivity.
  - simpl rep. simpl run. destruct (cmatch k c) eqn:Ec; simpl andb.
    + rewrite IH. simpl option_map.
      replace (Nat.pred lo <=? run k s)%nat with (lo <=? S (run k s))%nat
        by (destruct lo; reflexivity).
      replace (S n + run k s)%nat with (n + S (run k s))%nat by lia.
      destruct (lo <=? S (run k s))%nat eqn:El; [reflexivity|].
      destruct lo; [discriminate|reflexivity].
    + destruct lo; simpl; [rewrite Nat.add_0_r|]; reflexivity.
Qed.

Lemma match_rep_only k lo prev s :
  re_match [Rep k lo None] prev s 0 []
  = if (lo <=? run k s)%nat then Some (run k s, []) else None.
Proof. exact (rep_to_end k [] lo prev s 0). Qed.

End Runs.

(** ** Numbers *)

Section RemoveNumbers.
Context {U : UnicodeDB}.

Lemma decimal_is_word c : is_decimal c = true -> is_word c = true.
Proof.
  intros H. unfold is_word. rewrite (decimal_is_alnum c H). reflexivity.
Qed.

(** What a pattern of the form [\b ... \d{lo,hi} ... \b] matches: a
    run of digits that stands alone and has an allowed length. *)
Lemma number_match lo hi (guard_before guard_after : list atom) prev s :
  (lo <> 0)%nat ->
  (guard_before = [] \/ guard_before = [NotBehind (One CDigit)]) ->
  (guard_after = [] \/ guard_after = [NotAhead (One CDigit)]) ->
  re_match (Bound :: guard_before ++ Rep (One CDigit) lo hi
              :: guard_after ++ [Bound]) prev s 0 []
  = let n := run (One CDigit) s in
    if standalone prev s n && ((lo <=? n)%nat && within n hi)
    then Some (n, []) else None.
Proof.
  intros Hlo Hb Ha.
  assert (Hcont : forall p s' n',
    opt_test (cmatch (One CDigit)) p = true ->
    opt_test (cmatch (One CDigit)) (head s') = true ->
    re_match (guard_after ++ [Bound]) p s' n' [] = None).
  { intros p s' n' Hp Hs'.
    assert (Hbd : at_boundary p s' = false).
    { unfold at_boundary. destruct p as [d|]; [|discriminate].
      destruct s' as [|e s']; [discriminate|]. simpl in *.
      rewrite (decimal_is_word _ Hp), (decimal_is_word _ Hs'). reflexivity. }
    destruct Ha as [->| ->]; simpl.
    - rewrite Hbd. reflexivity.
    - rewrite Hs'. reflexivity. }
  assert (Hrep : forall p,
    rep (One CDigit)
        (fun prev' s' n' => re_match (guard_after ++ [Bound]) prev' s' n' [])
        lo hi p s 0
    = if (lo <=? run (One CDigit) s)%nat && within (run (One CDigit) s) hi
      then (if negb (opt_test is_word (head (drop (run (One CDigit) s) s)))
            then Some (run (One CDigit) s, []) else None)
      else None).
  { intros p. rewrite rep_whole_run; [|exact Hcont|intros E; congruence].
    destruct ((lo <=? run (One CDigit) s)%nat) eqn:El; [|reflexivity].
    destruct (within (run (One CDigit) s) hi); [|reflexivity]. simpl andb.
    cbv iota. destruct (run (One CDigit) s) as [|r] eqn:Er.
    { destruct lo; [congruence|discriminate]. }
    rewrite <- Er.
    assert (Hbd : at_boundary (prev_at p s (run (One CDigit) s))
                    (drop (run (One CDigit) s) s)
                  = negb (opt_test is_word
                            (head (drop (run (One CDigit) s) s)))).
    { unfold at_boundary. rewrite Er.
      pose proof (run_last (One CDigit) p s r Er) as Hl.
      destruct (prev_at p s (S r)) as [d|]; [|discriminate]. simpl in Hl.
      simpl opt_test at 1. rewrite (decimal_is_word _ Hl). reflexivity. }
    pose proof (run_end (One CDigit) s) as Hend.
    destruct Ha as [->| ->]; simpl app; simpl re_match.
    - rewrite Hbd. reflexivity.
    - rewrite Hend, Hbd. reflexivity. }
  assert (Hgb : re_match (guard_before ++ Rep (One CDigit) lo hi
                            :: guard_after ++ [Bound]) prev s 0 []
                = if opt_test is_decimal prev
                     && match guard_before with [] => false | _ => true end
                  then None
                  else rep (One CDigit)
                         (fun prev' s' n' =>
                            re_match (guard_after ++ [Bound]) prev' s' n' [])
                         lo hi prev s 0).
  { destruct Hb as [->| ->]; simpl.
    - rewrite andb_false_r. reflexivity.
    - rewrite andb_true_r. reflexivity. }
  cbv zeta. unfold standalone. simpl re_match. unfold at_boundary at 1.
  rewrite Hgb, Hrep. clear Hgb Hrep Hcont.
  pose proof (run_head (One CDigit) s) as Hhead.
  destruct (run (One CDigit) s) as [|r].
  - replace (lo <=? 0)%nat with false by (destruct lo; [congruence|reflexivity]).
    simpl. repeat match goal with
           | |- context [if ?b then _ else _] => destruct b
           end; reflexivity.
  - specialize (Hhead r eq_refl).
    assert (Hw : opt_test is_word (head s) = true).
    { destruct (head s) as [c|]; [|discriminate]. simpl in *.
      apply decimal_is_word. exact Hhead. }
    rewrite Hw, xorb_true_r. simpl Nat.ltb. simpl andb at 2.
    destruct (opt_test is_word prev) eqn:Ep; simpl negb; [reflexivity|].
    assert (Hnb : opt_test is_decimal prev = false).
    { destruct prev as [d|]; [|reflexivity]. simpl in *.
      destruct (is_decimal d) eqn:Ed; [|reflexivity].
      rewrite (decimal_is_word _ Ed) in Ep. discriminate. }
    rewrite Hnb. simpl andb.
    destruct ((lo <=? S r)%nat && within (S r) hi);
      rewrite ?andb_true_r, ?andb_false_r; reflexivity.
Qed.

Lemma sub_scan_zero pat repl prev s :
  sub_scan pat repl prev s 0
  = match re_match pat prev s 0 [] with
    | Some (S k, gs) =>
        expand repl gs ++
        match s with
        | [] => []
        | c :: s' => sub_scan pat repl (Some c) s' k
        end
    | _ =>
        match s with
        | [] => []
        | c :: s' => c :: sub_scan pat repl (Some c) s' 0
        end
    end.
Proof. destruct s; reflexivity. Qed.

Lemma drop_runs_zero ok prev c s :
  drop_runs ok prev (c :: s) 0
  = if standalone prev (c :: s) (run (One CDigit) (c :: s))
       && ok (run (One CDigit) (c :: s))
    then drop_runs ok (Some c) s (run (One CDigit) (c :: s) - 1)
    else c :: drop_runs ok (Some c) s 0.
Proof. reflexivity. Qed.

Lemma sub_scan_numbers lo hi guard_before guard_after prev s skip :
  (lo <> 0)%nat ->
  (guard_before = [] \/ guard_before = [NotBehind (One CDigit)]) ->
  (guard_after = [] \/ guard_after = [NotAhead (One CDigit)]) ->
  sub_scan (Bound :: guard_before ++ Rep (One CDigit) lo hi
              :: guard_after ++ [Bound]) [] prev s skip
  = drop_runs (length_between lo hi) prev s skip.
Proof.
  intros Hlo Hb Ha. revert prev skip.
  induction s as [|c s IH]; intros prev skip.
  - destruct skip; [|reflexivity]. rewrite sub_scan_zero.
    rewrite (number_match lo hi _ _ prev [] Hlo Hb Ha). reflexivity.
  - destruct skip as [|k]; [|apply IH].
    rewrite sub_scan_zero, drop_runs_zero.
    rewrite (number_match lo hi _ _ prev (c :: s) Hlo Hb Ha).
    cbv zeta. fold (length_between lo hi (run (One CDigit) (c :: s))).
    destruct (standalone prev (c :: s) (run (One CDigit) (c :: s))
              && length_between lo hi (run (One CDigit) (c :: s))) eqn:E.
    + destruct (run (One CDigit) (c :: s)) as [|r] eqn:Er.
      { unfold standalone in E. simpl in E. discriminate. }
      simpl expand. simpl app. rewrite IH. f_equal. lia.

    + rewrite IH. reflexivity.
Qed.

(** The first pass of [keep_years] deletes the numbers of one to three
    digits, the second those of five digits or more. *)
Lemma sub_short_numbers s :
  re_sub short_number_pat [] s = drop_runs (length_between 1 (Some 3)) None s 0.
Proof.
  apply (sub_scan_numbers 1 (Some 3) [NotBehind (One CDigit)]
           [NotAhead (One CDigit)]); auto.
Qed.

Lemma sub_long_numbers s :
  re_sub long_number_pat [] s = drop_runs (length_between 5 None) None s 0.
Proof. apply (sub_scan_numbers 5 None [] []); auto. Qed.

Lemma squeeze_spaces_cons c s :
  squeeze_spaces (c :: s)
  = if N.eqb c SP && opt_test (N.eqb SP) (head s)
    then squeeze_spaces s else c :: squeeze_spaces s.
Proof. reflexivity. Qed.

Lemma run_spaces_cons c s :
  run (One (CChar SP)) (c :: s)
  = if N.eqb c SP then S (run (One (CChar SP)) s) else O.
Proof. reflexivity. Qed.

Lemma squeeze_spaces_run s r :
  run (One (CChar SP)) s = S r ->
  squeeze_spaces s = SP :: squeeze_spaces (drop (S r) s).
Proof.
  revert r. induction s as [|c s IH]; intros r Hr; [discriminate|].
  rewrite run_spaces_cons in Hr.
  destruct (N.eqb_spec c SP) as [->|Hne]; [|discriminate].
  injection Hr as Hr. rewrite squeeze_spaces_cons, N.eqb_refl.
  change (drop (S r) (SP :: s)) with (drop r s).
  destruct s as [|d s].
  - simpl in Hr. subst r. reflexivity.
  - change (opt_test (N.eqb SP) (head (d :: s))) with (N.eqb SP d).
    pose proof Hr as Hr'. rewrite run_spaces_cons in Hr'.
    destruct (N.eqb_spec SP d) as [<-|Hd]; simpl andb; cbv iota.
    + rewrite N.eqb_refl in Hr'. destruct r as [|r]; [discriminate|].
      apply IH. exact Hr.
    + destruct (N.eqb_spec d SP); [congruence|]. clear Hr. subst r.
      reflexivity.
Qed.

Lemma squeeze_spaces_other c s :
  c <> SP -> squeeze_spaces (c :: s) = c :: squeeze_spaces s.
Proof.
  intros Hc. rewrite squeeze_spaces_cons.
  destruct (N.eqb_spec c SP); [congruence|]. reflexivity.
Qed.

Lemma sub_scan_spaces prev s skip :
  sub_scan spaces_pat [RText [SP]] prev s skip = squeeze_spaces (drop skip s).
Proof.
  revert prev skip. induction s as [|c s IH]; intros prev skip.
  - destruct skip; reflexivity.
  - destruct skip as [|k]; [|apply IH]. rewrite sub_scan_zero.
    unfold spaces_pat. rewrite match_rep_only.
    change (drop 0 (c :: s)) with (c :: s).
    destruct (run (One (CChar SP)) (c :: s)) as [|r] eqn:Er.
    + simpl Nat.leb. cbv iota. rewrite IH.
      rewrite squeeze_spaces_other; [reflexivity|].
      intros ->. rewrite run_spaces_cons, N.eqb_refl in Er. discriminate.
    + simpl Nat.leb. cbv iota. rewrite IH.
      rewrite (squeeze_spaces_run (c :: s) r Er). reflexivity.
Qed.

Lemma sub_spaces s : re_sub spaces_pat [RText [SP]] s = squeeze_spaces s.
Proof. apply (sub_scan_spaces None s 0). Qed.

End RemoveNumbers.

Lemma transform_text_remove_numbers `{U : UnicodeDB} text kw :
  transform_text text (lit "remove_numbers") kw = _remove_numbers text kw.
Proof. reflexivity. Qed.

(** C6, as the code has it.  With [keep_years] set, [remove_numbers]
    deletes, in a first pass, the runs of one to three digits and, in a
    second pass, the runs of five digits or more, in both passes only runs
    that stand alone, that is with no word character (letter, digit or
    underscore) next to them; runs of four digits are kept.  It then keeps
    one space of each run of spaces and strips the ends.  On the text of
    the scenario, 1990 is kept and 123 is removed. *)
Theorem remove_numbers_keep_years `{U : UnicodeDB} (text : str) (kw : kwargs) :
  truthy (kw_get kw "keep_years" (VBool false)) = true ->
  transform_text text (lit "remove_numbers") kw
  = Ok (strip_by is_space
          (squeeze_spaces
             (drop_runs (length_between 5 None) None
                (drop_runs (length_between 1 (Some 3)) None text 0) 0)))
  /\ length_between 1 (Some 3) 4 = false
  /\ length_between 5 None 4 = false
  /\ @transform_text ascii_tables
       (lit "I have 123 apples and was born in 1990.")
       (lit "remove_numbers") {[ "keep_years" := VBool true ]}
     = Ok (lit "I have apples and was born in 1990.").
Proof.
  intros Hk. split; [|split; [|split]]; try reflexivity.
  rewrite transform_text_remove_numbers. unfold _remove_numbers. rewrite Hk.
  rewrite sub_short_numbers, sub_long_numbers, sub_spaces. reflexivity.
Qed.

Lemma remove_numbers_keep_years_witness :
  @transform_text ascii_tables (lit "12 3456 78901") (lit "remove_numbers")
     {[ "keep_years" := VBool true ]}
  = Ok (lit "3456").
Proof.
  refine (eq_trans
            (proj1 (@remove_numbers_keep_years ascii_tables
                      (lit "12 3456 78901") {[ "keep_years" := VBool true ]} _))
            _).
  - vm_compute. reflexivity.
  - vm_compute. reflexivity.
Defined.

(** C6, as stated, fails for a run of digits next to a letter: neither the
    one digit of ["a1"] nor the five digits of ["x12345"] are removed. *)
Lemma remove_numbers_keeps_digits_in_words :
  @transform_text ascii_tables (lit "a1") (lit "remove_numbers")
     {[ "keep_years" := VBool true ]} = Ok (lit "a1")
  /\ @transform_text ascii_tables (lit "x12345") (lit "remove_numbers")
       {[ "keep_years" := VBool true ]} = Ok (lit "x12345").
Proof. split; vm_compute; reflexivity. Qed.

(** ** UTF-8 *)

Lemma to_N_byte_of n : (n < 256)%N -> Byte.to_N (byte_of n) = n.
Proof.
  intros Hn. unfold byte_of. destruct (Byte.of_N n) as [b|] eqn:E.
  - apply Byte.to_of_N. exact E.
  - apply Byte.of_N_None_iff in E. lia.
Qed.

Lemma continuation_byte_of n :
  (n < 64)%N -> continuation (byte_of (128 + n)) = Some n.
Proof.
  intros Hn. unfold continuation. rewrite to_N_byte_of by lia.
  unfold in_range.
  replace (128 <=? 128 + n)%N with true by (symmetry; apply N.leb_le; lia).
  replace (128 + n <=? 191)%N with true by (symmetry; apply N.leb_le; lia).
  simpl. f_equal. lia.
Qed.

Lemma continuation_range b c :
  continuation b = Some c -> (c < 64)%N.
Proof.
  unfold continuation, in_range. intros Hc.
  destruct (N.leb_spec 128 (Byte.to_N b)), (N.leb_spec (Byte.to_N b) 191);
    simpl in Hc; try discriminate.
  injection Hc as <-. lia.
Qed.

Lemma scalar_encodes c : scalar c = true -> is_Some (utf8_encode_char c).
Proof.
  unfold scalar, utf8_encode_char. intros H.
  apply andb_true_iff in H as [H1 H2]. apply negb_true_iff in H2.
  rewrite H1, H2.
  destruct (c <? 128)%N; [eauto|]. destruct (c <? 2048)%N; [eauto|].
  destruct (c <? 65536)%N; eauto.
Qed.

Lemma encodes_scalar c bs : utf8_encode_char c = Some bs -> scalar c = true.
Proof.
  unfold scalar, utf8_encode_char, is_surrogate, in_range. intros Henc.
  destruct (N.ltb_spec c 128), (N.ltb_spec c 2048), (N.ltb_spec c 65536),
    (N.leb_spec c 1114111), (N.leb_spec 55296 c), (N.leb_spec c 57343);
    simpl in *; try discriminate; try reflexivity; lia.
Qed.

(** The four shapes of a character in [utf8_decode]. *)
Lemma utf8_decode_1 b0 r :
  (Byte.to_N b0 < 128)%N ->
  utf8_decode (b0 :: r) = option_map (cons (Byte.to_N b0)) (utf8_decode r).
Proof.
  intros H0. simpl. apply N.ltb_lt in H0. rewrite H0. reflexivity.
Qed.

Lemma utf8_decode_2 b0 b1 r c1 :
  (194 <= Byte.to_N b0 <= 223)%N ->
  continuation b1 = Some c1 ->
  utf8_decode (b0 :: b1 :: r)
  = option_map (cons ((Byte.to_N b0 - 192) * 64 + c1)%N) (utf8_decode r).
Proof.
  intros H0 H1. simpl. rewrite H1.
  replace (Byte.to_N b0 <? 128)%N with false
    by (symmetry; apply N.ltb_ge; lia).
  unfold in_range.
  replace (194 <=? Byte.to_N b0)%N with true by (symmetry; apply N.leb_le; lia).
  replace (Byte.to_N b0 <=? 223)%N with true by (symmetry; apply N.leb_le; lia).
  reflexivity.
Qed.

Lemma utf8_decode_3 b0 b1 b2 r c1 c2 :
  (224 <= Byte.to_N b0 <= 239)%N ->
  continuation b1 = Some c1 ->
  continuation b2 = Some c2 ->
  utf8_decode (b0 :: b1 :: b2 :: r)
  = let c := ((Byte.to_N b0 - 224) * 4096 + c1 * 64 + c2)%N in
    if N.leb 2048 c && negb (is_surrogate c)
    then option_map (cons c) (utf8_decode r) else None.
Proof.
  intros H0 H1 H2. simpl. rewrite H1, H2.
  replace (Byte.to_N b0 <? 128)%N with false
    by (symmetry; apply N.ltb_ge; lia).
  unfold in_range at 1.
  replace (Byte.to_N b0 <=? 223)%N with false
    by (symmetry; apply N.leb_gt; lia).
  rewrite andb_false_r. unfold in_range at 1.
  replace (224 <=? Byte.to_N b0)%N with true by (symmetry; apply N.leb_le; lia).
  replace (Byte.to_N b0 <=? 239)%N with true by (symmetry; apply N.leb_le; lia).
  reflexivity.
Qed.

Lemma utf8_decode_4 b0 b1 b2 b3 r c1 c2 c3 :
  (240 <= Byte.to_N b0 <= 244)%N ->
  continuation b1 = Some c1 ->
  continuation b2 = Some c2 ->
  continuation b3 = Some c3 ->
  utf8_decode (b0 :: b1 :: b2 :: b3 :: r)
  = let c := ((Byte.to_N b0 - 240) * 262144 + c1 * 4096 + c2 * 64 + c3)%N in
    if in_range 65536 1114111 c
    then option_map (cons c) (utf8_decode r) else None.
Proof.
  intros H0 H1 H2 H3. simpl. rewrite H1, H2, H3.
  replace (Byte.to_N b0 <? 128)%N with false
    by (symmetry; apply N.ltb_ge; lia).
  unfold in_range at 1.
  replace (Byte.to_N b0 <=? 223)%N with false
    by (symmetry; apply N.leb_gt; lia).
  rewrite andb_false_r. unfold in_range at 1.
  replace (Byte.to_N b0 <=? 239)%N with false
    by (symmetry; apply N.leb_gt; lia).
  rewrite andb_false_r. unfold in_range at 1.
  replace (240 <=? Byte.to_N b0)%N with true by (symmetry; apply N.leb_le; lia).
  replace (Byte.to_N b0 <=? 244)%N with true by (symmetry; apply N.leb_le; lia).
  reflexivity.
Qed.

(** Linear arithmetic with division and remainder by constants. *)
Ltac div_lia := zify; Z.to_euclidean_division_equations; lia.

(** Decoding what [utf8_encode_char] gives returns the character. *)
Lemma utf8_decode_encode_char c bs r :
  utf8_encode_char c = Some bs ->
  utf8_decode (bs ++ r) = option_map (cons c) (utf8_decode r).
Proof.
  unfold utf8_encode_char. intros Henc.
  destruct (N.ltb_spec c 128) as [L1|L1].
  { injection Henc as <-. simpl app.
    rewrite utf8_decode_1; rewrite to_N_byte_of by lia; [reflexivity|lia]. }
  destruct (N.ltb_spec c 2048) as [L2|L2].
  { injection Henc as <-. simpl app.
    rewrite (utf8_decode_2 _ _ _ (c mod 64)).
    - rewrite to_N_byte_of by div_lia.
      replace ((192 + c / 64 - 192) * 64 + c mod 64)%N with c by div_lia.
      reflexivity.
    - rewrite to_N_byte_of by div_lia. div_lia.
    - apply continuation_byte_of. div_lia. }
  destruct (N.ltb_spec c 65536) as [L3|L3].
  { destruct (is_surrogate c) eqn:Es; [discriminate|].
    injection Henc as <-. simpl app.
    rewrite (utf8_decode_3 _ _ _ _ ((c / 64) mod 64) (c mod 64)).
    - cbv zeta. rewrite to_N_byte_of by div_lia.
      replace ((224 + c / 4096 - 224) * 4096 + (c / 64) mod 64 * 64 + c mod 64)%N
        with c by div_lia.
      rewrite Es. replace (2048 <=? c)%N with true
        by (symmetry; apply N.leb_le; lia).
      reflexivity.
    - rewrite to_N_byte_of by div_lia. div_lia.
    - apply continuation_byte_of. div_lia.
    - apply continuation_byte_of. div_lia. }
  destruct (N.leb_spec c 1114111) as [L4|L4]; [|discriminate].
  injection Henc as <-. simpl app.
  rewrite (utf8_decode_4 _ _ _ _ _ ((c / 4096) mod 64) ((c / 64) mod 64)
             (c mod 64)).
  - cbv zeta. rewrite to_N_byte_of by div_lia.
    replace ((240 + c / 262144 - 240) * 262144 + (c / 4096) mod 64 * 4096
             + (c / 64) mod 64 * 64 + c mod 64)%N with c by div_lia.
    unfold in_range.
    replace (65536 <=? c)%N with true by (symmetry; apply N.leb_le; lia).
    replace (c <=? 1114111)%N with true by (symmetry; apply N.leb_le; lia).
    reflexivity.
  - rewrite to_N_byte_of by div_lia. div_lia.
  - apply continuation_byte_of. div_lia.
  - apply continuation_byte_of. div_lia.
  - apply continuation_byte_of. div_lia.
Qed.

Lemma utf8_decode_encode s bs :
  utf8_encode s = Some bs -> utf8_decode bs = Some s.
Proof.
  revert bs. induction s as [|c s IH]; intros bs; simpl.
  - intros H. injection H as <-. reflexivity.
  - destruct (utf8_encode_char c) as [b|] eqn:Ec; [|discriminate].
    destruct (utf8_encode s) as [bs'|]; [|discriminate].
    intros H. injection H as <-.
    rewrite (utf8_decode_encode_char c b bs' Ec), (IH bs' eq_refl).
    reflexivity.
Qed.

Lemma in_range_spec lo hi c :
  in_range lo hi c = true <-> (lo <= c <= hi)%N.
Proof.
  unfold in_range. rewrite andb_true_iff, !N.leb_le. reflexivity.
Qed.

Lemma scalar_spec c :
  scalar c = true <-> (c < 55296 \/ 57343 < c <= 1114111)%N.
Proof.
  unfold scalar, is_surrogate, in_range.
  destruct (N.leb_spec c 1114111), (N.leb_spec 55296 c), (N.leb_spec c 57343);
    simpl; split; intros Hs; try discriminate; try reflexivity; lia.
Qed.

Lemma option_map_cons_inv (c : char) (o : option str) t :
  option_map (cons c) o = Some t -> exists t', o = Some t' /\ t = c :: t'.
Proof.
  destruct o as [t'|]; simpl; [|discriminate].
  intros H. injection H as <-. eauto.
Qed.

(** The first character [utf8_decode] returns is a scalar value, and the
    rest is the decoding of a shorter input. *)
Lemma utf8_decode_cons_inv b0 r0 t :
  utf8_decode (b0 :: r0) = Some t ->
  exists c t' r,
    t = c :: t' /\ scalar c = true /\ utf8_decode r = Some t'
    /\ (length r <= length r0)%nat.
Proof.
  intros H. simpl in H.
  destruct (N.ltb_spec (Byte.to_N b0) 128) as [L0|L0].
  { apply option_map_cons_inv in H as (t' & Hr & ->).
    exists (Byte.to_N b0), t', r0. repeat split; auto.
    apply scalar_spec. lia. }
  destruct r0 as [|b1 r1]; [discriminate|].
  destruct (continuation b1) as [c1|] eqn:E1; [|discriminate].
  pose proof (continuation_range _ _ E1) as R1.
  destruct (in_range 194 223 (Byte.to_N b0)) eqn:Ea.
  { apply in_range_spec in Ea.
    apply option_map_cons_inv in H as (t' & Hr & ->).
    eexists _, t', r1. repeat split; eauto; [|simpl; lia].
    apply scalar_spec. lia. }
  destruct r1 as [|b2 r2]; [discriminate|].
  destruct (continuation b2) as [c2|] eqn:E2; [|discriminate].
  pose proof (continuation_range _ _ E2) as R2.
  destruct (in_range 224 239 (Byte.to_N b0)) eqn:Ec.
  { apply in_range_spec in Ec. cbv zeta in H.
    match type of H with
    | (if ?b then _ else _) = _ => destruct b eqn:Eb; [|discriminate]
    end.
    apply option_map_cons_inv in H as (t' & Hr & ->).
    eexists _, t', r2. repeat split; eauto; [|simpl; lia].
    apply andb_true_iff in Eb as [Eb1 Eb2].
    unfold scalar. rewrite Eb2, andb_true_r. apply N.leb_le. lia. }
  destruct r2 as [|b3 r3]; [discriminate|].
  destruct (continuation b3) as [c3|] eqn:E3; [|discriminate].
  destruct (in_range 240 244 (Byte.to_N b0)) eqn:Ed; [|discriminate].
  cbv zeta in H.
  match type of H with
  | (if ?b then _ else _) = _ => destruct b eqn:Eb; [|discriminate]
  end.
  apply option_map_cons_inv in H as (t' & Hr & ->).
  eexists _, t', r3. repeat split; eauto; [|simpl; lia].
  apply in_range_spec in Eb. apply scalar_spec. lia.
Qed.

Lemma utf8_decode_scalar bs t :
  utf8_decode bs = Some t -> Forall (fun c => scalar c = true) t.
Proof.
  remember (length bs) as n eqn:Hn. revert bs t Hn.
  induction n as [n IH] using lt_wf_ind. intros bs t Hn Hd.
  destruct bs as [|b0 r0].
  - simpl in Hd. injection Hd as <-. constructor.
  - apply utf8_decode_cons_inv in Hd as (c & t' & r & -> & Hc & Hr & Hl).
    constructor; [exact Hc|].
    apply (IH (length r)) with (bs := r);
      [subst n; simpl; lia|reflexivity|exact Hr].
Qed.

Lemma scalar_text_encodes s :
  Forall (fun c => scalar c = true) s -> is_Some (utf8_encode s).
Proof.
  induction 1 as [|c s Hc Hs IH]; simpl; [eauto|].
  destruct (scalar_encodes c Hc) as [b ->]. destruct IH as [bs ->]. eauto.
Qed.

(** Translating line endings keeps scalar values and is idempotent. *)
Lemma universal_newlines_scalar s :
  Forall (fun c => scalar c = true) s ->
  Forall (fun c => scalar c = true) (universal_newlines s).
Proof.
  remember (length s) as n eqn:Hn. revert s Hn.
  induction n as [n IH] using lt_wf_ind. intros s Hn Hs.
  destruct s as [|c s']; [constructor|].
  inversion Hs as [|? ? Hc Hs']; subst. simpl.
  destruct (N.eqb c CR).
  - constructor; [reflexivity|].
    destruct s' as [|d s'']; [constructor|].
    inversion Hs' as [|? ? Hd Hs'']; subst.
    destruct (N.eqb d NL).
    + apply (IH (length s'')); [try subst n; simpl; lia|reflexivity|exact Hs''].
    + apply (IH (length (d :: s''))); [try subst n; simpl; lia|reflexivity|exact Hs'].
  - constructor; [exact Hc|].
    apply (IH (length s')); [try subst n; simpl; lia|reflexivity|exact Hs'].
Qed.

Lemma universal_newlines_no_cr s : CR ∉ universal_newlines s.
Proof.
  remember (length s) as n eqn:Hn. revert s Hn.
  induction n as [n IH] using lt_wf_ind. intros s Hn.
  destruct s as [|c s']; simpl; [intros H; inversion H|].
  destruct (N.eqb_spec c CR) as [->|Hc].
  - intros H. apply elem_of_cons in H as [H|H]; [discriminate|].
    destruct s' as [|d s'']; [inversion H|].
    destruct (N.eqb d NL).
    + exact (IH (length s'') ltac:(subst n; simpl; lia) s'' eq_refl H).
    + exact (IH (length (d :: s'')) ltac:(subst n; simpl; lia) _ eq_refl H).
  - intros H. apply elem_of_cons in H as [H|H]; [congruence|].
    exact (IH (length s') ltac:(subst n; simpl; lia) s' eq_refl H).
Qed.

Lemma universal_newlines_id s : CR ∉ s -> universal_newlines s = s.
Proof.
  induction s as [|c s IH]; intros Hs; simpl; [reflexivity|].
  destruct (N.eqb_spec c CR) as [->|Hc].
  - exfalso. apply Hs. left.
  - rewrite IH; [reflexivity|]. intros H. apply Hs. right. exact H.
Qed.

(** A text read as UTF-8 can be written, and reading what was written
    gives the same text. *)
Lemma read_write_read bs s :
  read_as Utf8 bs = Some s ->
  exists bb, utf8_encode s = Some bb /\ read_as Utf8 bb = Some s.
Proof.
  unfold read_as. simpl decode.
  destruct (utf8_decode bs) as [t|] eqn:Hd; [|discriminate].
  simpl. intros H. injection H as <-.
  destruct (scalar_text_encodes (universal_newlines t)) as [bb Hbb].
  { apply universal_newlines_scalar, (utf8_decode_scalar bs). exact Hd. }
  exists bb. split; [exact Hbb|].
  rewrite (utf8_decode_encode _ _ Hbb). simpl.
  rewrite universal_newlines_id; [reflexivity|apply universal_newlines_no_cr].
Qed.

Lemma byte_of_to_N b : byte_of (Byte.to_N b) = b.
Proof. unfold byte_of. rewrite Byte.of_to_N. reflexivity. Qed.

Lemma continuation_byte b c :
  continuation b = Some c -> byte_of (128 + c) = b.
Proof.
  unfold continuation, in_range. intros Hc.
  destruct (N.leb_spec 128 (Byte.to_N b)), (N.leb_spec (Byte.to_N b) 191);
    simpl in Hc; try discriminate.
  injection Hc as <-.
  replace (128 + (Byte.to_N b - 128))%N with (Byte.to_N b) by lia.
  apply byte_of_to_N.
Qed.

Lemma div_mod_64 a b :
  (b < 64)%N -> ((a * 64 + b) / 64 = a /\ (a * 64 + b) mod 64 = b)%N.
Proof.
  intros Hb. split.
  - symmetry. apply (N.div_unique _ 64 a b); lia.
  - symmetry. apply (N.mod_unique _ 64 a b); lia.
Qed.

(** What [utf8_decode] accepts is what [utf8_encode_char] produces: the
    bytes of the first character are its encoding. *)
Lemma utf8_decode_cons_bytes b0 r0 t :
  utf8_decode (b0 :: r0) = Some t ->
  exists c t' pre r,
    t = c :: t' /\ b0 :: r0 = pre ++ r /\ utf8_encode_char c = Some pre
    /\ utf8_decode r = Some t' /\ (length r <= length r0)%nat.
Proof.
  intros H. simpl in H. unfold utf8_encode_char.
  destruct (N.ltb_spec (Byte.to_N b0) 128) as [L0|L0].
  { apply option_map_cons_inv in H as (t' & Hr & ->).
    exists (Byte.to_N b0), t', [b0], r0.
    destruct (N.ltb_spec (Byte.to_N b0) 128); [|lia].
    rewrite byte_of_to_N. repeat split; auto. }
  destruct r0 as [|b1 r1]; [discriminate|].
  destruct (continuation b1) as [c1|] eqn:E1; [|discriminate].
  pose proof (continuation_range _ _ E1) as R1.
  pose proof (continuation_byte _ _ E1) as B1.
  destruct (in_range 194 223 (Byte.to_N b0)) eqn:Ea.
  { apply in_range_spec in Ea.
    apply option_map_cons_inv in H as (t' & Hr & ->).
    destruct (div_mod_64 (Byte.to_N b0 - 192) c1 R1) as [Hq Hm].
    eexists _, t', [b0; b1], r1.
    split; [reflexivity|]. split; [reflexivity|].
    split; [|split; [exact Hr|simpl; lia]].
    destruct (N.ltb_spec ((Byte.to_N b0 - 192) * 64 + c1) 128); [lia|].
    destruct (N.ltb_spec ((Byte.to_N b0 - 192) * 64 + c1) 2048); [|lia].
    rewrite Hq, Hm, B1.
    replace (192 + (Byte.to_N b0 - 192))%N with (Byte.to_N b0) by lia.
    rewrite byte_of_to_N. reflexivity. }
  destruct r1 as [|b2 r2]; [discriminate|].
  destruct (continuation b2) as [c2|] eqn:E2; [|discriminate].
  pose proof (continuation_range _ _ E2) as R2.
  pose proof (continuation_byte _ _ E2) as B2.
  destruct (in_range 224 239 (Byte.to_N b0)) eqn:Ec.
  { apply in_range_spec in Ec. cbv zeta in H.
    match type of H with
    | (if ?b then _ else _) = _ => destruct b eqn:Eb; [|discriminate]
    end.
    apply option_map_cons_inv in H as (t' & Hr & ->).
    apply andb_true_iff in Eb as [Eb1 Eb2]. apply N.leb_le in Eb1.
    apply negb_true_iff in Eb2.
    set (a := (Byte.to_N b0 - 224)%N) in *.
    set (c := (a * 4096 + c1 * 64 + c2)%N) in *.
    assert (Hc : c = ((a * 64 + c1) * 64 + c2)%N) by (unfold c; lia).
    destruct (div_mod_64 (a * 64 + c1) c2 R2) as [Hq Hm].
    destruct (div_mod_64 a c1 R1) as [Hq1 Hm1].
    assert (Hq2 : (c / 4096 = a)%N).
    { symmetry. apply (N.div_unique _ 4096 a (c1 * 64 + c2)); unfold c; lia. }
    exists c, t', [b0; b1; b2], r2.
    split; [reflexivity|]. split; [reflexivity|].
    split; [|split; [exact Hr|simpl; lia]].
    destruct (N.ltb_spec c 128); [lia|].
    destruct (N.ltb_spec c 2048); [lia|].
    destruct (N.ltb_spec c 65536); [|unfold c, a in *; lia].
    rewrite Eb2, Hq2. rewrite Hc at 1 2. rewrite Hq, Hm, Hm1, B1, B2.
    replace (224 + a)%N with (Byte.to_N b0) by (unfold a; lia).
    rewrite byte_of_to_N. reflexivity. }
  destruct r2 as [|b3 r3]; [discriminate|].
  destruct (continuation b3) as [c3|] eqn:E3; [|discriminate].
  pose proof (continuation_range _ _ E3) as R3.
  pose proof (continuation_byte _ _ E3) as B3.
  destruct (in_range 240 244 (Byte.to_N b0)) eqn:Ed; [|discriminate].
  apply in_range_spec in Ed. cbv zeta in H.
  match type of H with
  | (if ?b then _ else _) = _ => destruct b eqn:Eb; [|discriminate]
  end.
  apply option_map_cons_inv in H as (t' & Hr & ->).
  apply in_range_spec in Eb.
  set (a := (Byte.to_N b0 - 240)%N) in *.
  set (c := (a * 262144 + c1 * 4096 + c2 * 64 + c3)%N) in *.
  assert (Hc : c = (((a * 64 + c1) * 64 + c2) * 64 + c3)%N) by (unfold c; lia).
  destruct (div_mod_64 ((a * 64 + c1) * 64 + c2) c3 R3) as [Hq Hm].
  destruct (div_mod_64 (a * 64 + c1) c2 R2) as [Hq1 Hm1].
  destruct (div_mod_64 a c1 R1) as [_ Hm2].
  assert (Hq2 : (c / 4096 = a * 64 + c1)%N).
  { symmetry. apply (N.div_unique _ 4096 _ (c2 * 64 + c3)); unfold c; lia. }
  assert (Hq3 : (c / 262144 = a)%N).
  { symmetry. apply (N.div_unique _ 262144 _ (c1 * 4096 + c2 * 64 + c3));
      unfold c; lia. }
  exists c, t', [b0; b1; b2; b3], r3.
  split; [reflexivity|]. split; [reflexivity|].
  split; [|split; [exact Hr|simpl; lia]].
  destruct (N.ltb_spec c 128); [lia|].
  destruct (N.ltb_spec c 2048); [lia|].
  destruct (N.ltb_spec c 65536); [lia|].
  destruct (N.leb_spec c 1114111); [|lia].
  rewrite Hq2, Hq3, Hm2. rewrite Hc at 1 2. rewrite Hq, Hm, Hm1, B1, B2, B3.
  replace (240 + a)%N with (Byte.to_N b0) by (unfold a; lia).
  rewrite byte_of_to_N. reflexivity.
Qed.

(** Strict UTF-8 has one encoding for each text: encoding what was decoded
    gives the bytes back. *)
Lemma utf8_encode_decode bs t :
  utf8_decode bs = Some t -> utf8_encode t = Some bs.
Proof.
  remember (length bs) as n eqn:Hn. revert bs t Hn.
  induction n as [n IH] using lt_wf_ind. intros bs t Hn Hd.
  destruct bs as [|b0 r0].
  - simpl in Hd. injection Hd as <-. reflexivity.
  - apply utf8_decode_cons_bytes in Hd
      as (c & t' & pre & r & -> & Hb & Hc & Hr & Hl).
    simpl. rewrite Hc.
    rewrite (IH (length r) ltac:(subst n; simpl; lia) r t' eq_refl Hr).
    rewrite Hb. reflexivity.
Qed.

(** ** Backup paths *)

Lemma suffix_is_tail p : exists i, suffix p = drop i (name p).
Proof.
  unfold suffix. destruct (rfind _ _ _) as [i|].
  - destruct (_ && _); [exists i; reflexivity|].
    exists (length (name p)). rewrite drop_all. reflexivity.
  - exists (length (name p)). rewrite drop_all. reflexivity.
Qed.

Lemma take_before_tail {A} (l : list A) i :
  take (length l - length (drop i l)) l ++ drop i l = l.
Proof.
  rewrite length_drop.
  destruct (Nat.le_gt_cases i (length l)) as [Hi|Hi].
  - replace (length l - (length l - i))%nat with i by lia. apply take_drop.
  - replace (length l - (length l - i))%nat with (length l) by lia.
    rewrite drop_ge by lia. rewrite take_ge by lia. apply app_nil_r.
Qed.

(** When [with_suffix] accepts the old suffix followed by [sfx], the new
    name is the old name followed by [sfx]. *)
Lemma with_suffix_appends p sfx backup_path :
  with_suffix p (suffix p ++ sfx) = Ok backup_path ->
  backup_path = with_name p (name p ++ sfx) /\ name p <> [].
Proof.
  unfold with_suffix. destruct (existsb _ _); [discriminate|].
  destruct (_ || _); [discriminate|].
  destruct (name p) as [|c n] eqn:En; [discriminate|]. simpl negb. cbv iota.
  intros H. injection H as <-. split; [|discriminate].
  f_equal. destruct (suffix_is_tail p) as [i Hi]. rewrite En in Hi.
  destruct (nonempty (suffix p)) eqn:Es.
  - rewrite Hi. rewrite app_assoc.
    change (S (length n)) with (length (c :: n)).
    rewrite (take_before_tail (c :: n) i). reflexivity.
  - destruct (suffix p); [reflexivity|discriminate].
Qed.

Lemma join_snoc_app sep (ps : list str) (n sfx : str) :
  join sep (ps ++ [n ++ sfx]) = join sep (ps ++ [n]) ++ sfx.
Proof.
  induction ps as [|q ps IH]; simpl; [reflexivity|].
  destruct (ps ++ [n ++ sfx]) as [|x xs] eqn:E1;
    [destruct ps; discriminate|].
  destruct (ps ++ [n]) as [|y ys] eqn:E2; [destruct ps; discriminate|].
  rewrite IH. rewrite <- !app_assoc. reflexivity.
Qed.

(** As a string, the backup path is the source path followed by the
    suffix. *)
Lemma str_path_with_name p sfx :
  name p <> [] ->
  str_path (with_name p (name p ++ sfx)) = str_path p ++ sfx.
Proof.
  intros Hn. unfold name in *.
  assert (Hp : parts p <> []).
  { intros E. rewrite E in Hn. apply Hn. reflexivity. }
  pose proof (app_removelast_last [] Hp) as Hl.
  unfold str_path, with_name. simpl absolute. simpl parts.
  destruct (absolute p).
  - rewrite join_snoc_app. unfold str in *. rewrite <- Hl. reflexivity.
  - transitivity (join [ch "/"]
                    (removelast (parts p) ++ [List.last (parts p) [] ++ sfx])).
    { destruct (removelast (parts p)); reflexivity. }
    rewrite join_snoc_app. unfold str in *. rewrite <- Hl.
    destruct (parts p); [exfalso; apply Hp; reflexivity|reflexivity].
Qed.

(** ** Files *)

Lemma file_at_put st p bs q :
  file_at (put st p bs) q
  = if decide (realpath st q = realpath st p) then Some bs else file_at st q.
Proof.
  unfold file_at, put. simpl. destruct (decide _) as [E|E].
  - rewrite E. apply lookup_insert_eq.
  - apply lookup_insert_ne. congruence.
Qed.

Lemma file_at_put_eq st p bs : file_at (put st p bs) p = Some bs.
Proof. rewrite file_at_put. destruct (decide _); congruence. Qed.

Lemma file_at_put_ne st p bs q :
  realpath st q <> realpath st p -> file_at (put st p bs) q = file_at st q.
Proof. intros H. rewrite file_at_put. destruct (decide _); congruence. Qed.

Lemma utf8_decode_bom r :
  utf8_decode (utf8_bom ++ r) = option_map (cons BOM) (utf8_decode r).
Proof.
  unfold utf8_bom. simpl app.
  rewrite (utf8_decode_3 Byte.xef Byte.xbb Byte.xbf r 59 63);
    [reflexivity|vm_compute; split; discriminate|reflexivity|reflexivity].
Qed.

(** The [utf-8-sig] entry of the list of encodings is never the one that
    succeeds: it fails whenever [utf-8] has failed. *)
Lemma utf8_sig_fails bs : utf8_decode bs = None -> decode Utf8Sig bs = None.
Proof.
  intros H.
  destruct bs as [|b0 bs]; [exact H|].
  destruct (Byte.byte_eq_dec b0 Byte.xef) as [->|N0];
    [|destruct b0; try exact H; contradiction N0; reflexivity].
  destruct bs as [|b1 bs]; [exact H|].
  destruct (Byte.byte_eq_dec b1 Byte.xbb) as [->|N1];
    [|destruct b1; try exact H; contradiction N1; reflexivity].
  destruct bs as [|b2 bs]; [exact H|].
  destruct (Byte.byte_eq_dec b2 Byte.xbf) as [->|N2];
    [|destruct b2; try exact H; contradiction N2; reflexivity].
  change (utf8_decode bs = None).
  change (utf8_decode (utf8_bom ++ bs) = None) in H.
  rewrite utf8_decode_bom in H.
  destruct (utf8_decode bs); [discriminate H|reflexivity].
Qed.

(** Latin-1 decodes every file, so the loop of [read_text_file] always
    returns from its body, and with the text of the first or of the third
    encoding. *)
Lemma try_encodings_text bs :
  try_encodings [Utf8; Utf8Sig; Latin1; Cp1252] bs = Ok (file_text bs).
Proof.
  unfold file_text, try_encodings, read_as.
  change (decode Utf8 bs) with (utf8_decode bs).
  destruct (utf8_decode bs) as [t|] eqn:E; [reflexivity|].
  rewrite (utf8_sig_fails bs E). reflexivity.
Qed.

Lemma read_text_file_found file_path st bs :
  file_at st file_path = Some bs ->
  read_text_file file_path st = (Ok (file_text bs), st).
Proof.
  intros Hf. unfold read_text_file, io_bind, exists_file, file_bytes, lift.
  rewrite Hf. rewrite bool_decide_true by eauto. cbn beta iota delta [negb].
  rewrite Hf, try_encodings_text. reflexivity.
Qed.

Lemma read_text_file_missing file_path st :
  file_at st file_path = None ->
  read_text_file file_path st
  = (Err (FileNotFoundError (lit "File not found: " ++ str_path file_path)), st).
Proof.
  intros Hf. unfold read_text_file, io_bind, exists_file, raise.
  rewrite Hf. rewrite bool_decide_false; [reflexivity|].
  intros [x Hx]. discriminate.
Qed.

(** X12.  [read_text_file] fails only when the path names no file, with a
    [FileNotFoundError] that gives the path.  For a file that exists it
    returns the UTF-8 decoding of its content, or the Latin-1 decoding when
    the content is not UTF-8: the entries [utf-8-sig] and [cp1252] never
    decide, the statement after the loop is never reached, and a byte order
    mark stays in the text as U+FEFF.  The file system is left as it was. *)
Theorem read_text_file_outcome (file_path : path) (st : fs) :
  read_text_file file_path st
  = (match file_at st file_path with
     | Some bs => Ok (file_text bs)
     | None =>
         Err (FileNotFoundError (lit "File not found: " ++ str_path file_path))
     end, st)
  /\ (forall bs t, utf8_decode bs = Some t ->
        file_text bs = universal_newlines t
        /\ file_text (utf8_bom ++ bs) = BOM :: universal_newlines t)
  /\ (forall bs, utf8_decode bs = None ->
        file_text bs = universal_newlines (map Byte.to_N bs)).
Proof.
  split; [|split].
  - destruct (file_at st file_path) as [bs|] eqn:Hf.
    + apply read_text_file_found, Hf.
    + apply read_text_file_missing, Hf.
  - intros bs t Ht. unfold file_text. rewrite utf8_decode_bom, Ht.
    split; reflexivity.
  - intros bs Hn. unfold file_text. rewrite Hn. reflexivity.
Qed.

Lemma write_utf8_run p text st :
  write_utf8 p text st = (write_result text, put st p (written text)).
Proof.
  unfold write_utf8, write_result, written.
  destruct (utf8_encode text); reflexivity.
Qed.

Lemma written_encoded text bb :
  utf8_encode text = Some bb ->
  written text = bb /\ write_result text = Ok tt.
Proof. intros E. unfold written, write_result. rewrite E. auto. Qed.

Lemma file_text_encoded text bb :
  utf8_encode text = Some bb -> file_text bb = universal_newlines text.
Proof.
  intros E. unfold file_text. rewrite (utf8_decode_encode _ _ E). reflexivity.
Qed.

(** X13.  What [write_text_file] has written, [read_text_file] reads back,
    under the path written and under every other path that names the same
    file: the content itself when it holds no carriage return, and
    otherwise the content with every line ending turned into a line feed.
    No other file changes. *)
Theorem write_then_read (file_path : path) (content : str) (st : fs) :
  Forall (fun c => scalar c = true) content ->
  exists st',
    write_text_file file_path content st = (Ok tt, st')
    /\ read_text_file file_path st' = (Ok (universal_newlines content), st')
    /\ (CR ∉ content -> read_text_file file_path st' = (Ok content, st'))
    /\ (forall q, realpath st q = realpath st file_path ->
          read_text_file q st' = (Ok (universal_newlines content), st'))
    /\ (forall q, realpath st q <> realpath st file_path ->
          file_at st' q = file_at st q).
Proof.
  intros Hs. destruct (scalar_text_encodes content Hs) as [bb Hbb].
  destruct (written_encoded _ _ Hbb) as [Hw Hr].
  eexists. unfold write_text_file. rewrite write_utf8_run, Hw, Hr.
  split; [reflexivity|].
  assert (Hread : forall q, realpath st q = realpath st file_path ->
            read_text_file q (put st file_path bb)
            = (Ok (universal_newlines content), put st file_path bb)).
  { intros q Hq. rewrite (read_text_file_found q _ bb).
    - rewrite (file_text_encoded _ _ Hbb). reflexivity.
    - rewrite file_at_put. destruct (decide _); congruence. }
  split; [apply Hread; reflexivity|]. split; [|split].
  - intros Hcr. rewrite Hread by reflexivity.
    rewrite (universal_newlines_id _ Hcr). reflexivity.
  - exact Hread.
  - intros q Hq. apply file_at_put_ne, Hq.
Qed.

Lemma write_then_read_witness :
  exists st',
    write_text_file sample_backup (lit "a" ++ [CR; NL] ++ lit "b") sample_fs
    = (Ok tt, st')
    /\ read_text_file sample_backup st' = (Ok (lit "a" ++ [NL] ++ lit "b"), st').
Proof.
  destruct (write_then_read sample_backup (lit "a" ++ [CR; NL] ++ lit "b")
              sample_fs) as (st' & H1 & H2 & _).
  { repeat constructor. }
  exists st'. split; [exact H1|exact H2].
Defined.

(** ** Backups *)

Lemma read_text_utf8_run p st :
  read_text_utf8 p st
  = match file_at st p with
    | None => (Err (FileNotFoundError (str_path p)), st)
    | Some bs =>
        match read_as Utf8 bs with
        | Some s => (Ok s, st)
        | None => (Err UnicodeDecodeError, st)
        end
    end.
Proof.
  unfold read_text_utf8, io_bind, file_bytes.
  destruct (file_at st p) as [bs|]; [|reflexivity].
  destruct (read_as Utf8 bs); reflexivity.
Qed.

Lemma create_backup_run file_path sfx st :
  create_backup file_path sfx st
  = match with_suffix file_path (suffix file_path ++ sfx) with
    | Err e => (Err e, st)
    | Ok backup_path =>
        match file_at st file_path with
        | None => (Ok backup_path, st)
        | Some bs =>
            match read_as Utf8 bs with
            | None => (Err UnicodeDecodeError, st)
            | Some s => (Ok backup_path, put st backup_path (written s))
            end
        end
    end.
Proof.
  unfold create_backup. unfold io_bind at 1, lift.
  destruct (with_suffix _ _) as [bp|e]; [|reflexivity].
  unfold io_bind at 1, exists_file.
  destruct (file_at st file_path) as [bs|] eqn:Hf.
  - rewrite bool_decide_true by eauto.
    unfold io_bind. rewrite read_text_utf8_run, Hf.
    destruct (read_as Utf8 bs) as [s|] eqn:Hs; [|reflexivity].
    rewrite write_utf8_run.
    destruct (read_write_read bs s Hs) as (bb & Hbb & _).
    destruct (written_encoded _ _ Hbb) as [_ ->]. reflexivity.
  - rewrite bool_decide_false; [reflexivity|].
    intros [x Hx]. discriminate.
Qed.

Lemma with_suffix_error p sfx e : with_suffix p sfx = Err e -> e = ValueError None.
Proof.
  unfold with_suffix. destruct (existsb _ _); [congruence|].
  destruct (_ || _); [congruence|].
  destruct (negb _); [congruence|discriminate].
Qed.

(** A name without a suffix takes no suffix that does not begin with a
    dot. *)
Lemma with_suffix_rejects p sfx :
  suffix p = [] -> sfx <> [] -> starts_with_dot sfx = false ->
  with_suffix p (suffix p ++ sfx) = Err (ValueError None).
Proof.
  intros -> Hne Hdot. simpl app. unfold with_suffix.
  destruct (existsb _ _); [reflexivity|].
  rewrite Hdot. destruct sfx; [contradiction|reflexivity].
Qed.

(** X14.  [create_backup] first builds the backup path with
    [with_suffix].  When that is refused, as it is for a source without
    extension and a suffix that does not begin with a dot ([README] and
    ["~"]), the call fails with a [ValueError] and touches no file, whether
    the source exists or not.  Otherwise the path is the source path with
    the suffix appended to its name; when the source is missing nothing is
    written and the path is returned all the same; when the source is not
    UTF-8 the call fails with a [UnicodeDecodeError] before anything is
    written; otherwise exactly one file is written, the backup, which
    reads back as the text of the source in text mode. *)
Theorem create_backup_outcome (file_path : path) (sfx : str) (st : fs) :
  match with_suffix file_path (suffix file_path ++ sfx) with
  | Err e =>
      e = ValueError None /\ create_backup file_path sfx st = (Err e, st)
  | Ok backup_path =>
      backup_path = with_name file_path (name file_path ++ sfx)
      /\ str_path backup_path = str_path file_path ++ sfx
      /\ match file_at st file_path with
         | None => create_backup file_path sfx st = (Ok backup_path, st)
         | Some bs =>
             match read_as Utf8 bs with
             | None =>
                 create_backup file_path sfx st = (Err UnicodeDecodeError, st)
             | Some s =>
                 exists bb,
                   utf8_encode s = Some bb
                   /\ create_backup file_path sfx st
                      = (Ok backup_path, put st backup_path bb)
                   /\ read_text_utf8 backup_path (put st backup_path bb)
                      = (Ok s, put st backup_path bb)
             end
         end
  end
  /\ (suffix file_path = [] -> sfx <> [] -> starts_with_dot sfx = false ->
      create_backup file_path sfx st = (Err (ValueError None), st)).
Proof.
  split.
  - rewrite create_backup_run.
    destruct (with_suffix _ _) as [bp|e] eqn:Hp.
    + destruct (with_suffix_appends _ _ _ Hp) as [Hb Hn].
      split; [exact Hb|]. split.
      { rewrite Hb. apply str_path_with_name, Hn. }
      destruct (file_at st file_path) as [bs|]; [|reflexivity].
      destruct (read_as Utf8 bs) as [s|] eqn:Hs; [|reflexivity].
      destruct (read_write_read bs s Hs) as (bb & Hbb & Hback).
      destruct (written_encoded _ _ Hbb) as [Hw _].
      exists bb. rewrite Hw. split; [exact Hbb|]. split; [reflexivity|].
      rewrite read_text_utf8_run, file_at_put_eq, Hback. reflexivity.
    + split; [exact (with_suffix_error _ _ _ Hp)|reflexivity].
  - intros H1 H2 H3. rewrite create_backup_run.
    rewrite (with_suffix_rejects _ _ H1 H2 H3). reflexivity.
Qed.

Lemma create_backup_outcome_witness :
  create_backup (Path false [lit "README"]) (lit "~") sample_fs
  = (Err (ValueError None), sample_fs)
  /\ exists bb,
       create_backup sample_path (lit ".bak") sample_fs
       = (Ok sample_backup, put sample_fs sample_backup bb).
Proof.
  split.
  - apply (proj2 (create_backup_outcome (Path false [lit "README"]) (lit "~")
                    sample_fs));
      [reflexivity|discriminate|reflexivity].
  - pose proof (proj1 (create_backup_outcome sample_path (lit ".bak")
                         sample_fs)) as H.
    change (with_suffix sample_path (suffix sample_path ++ lit ".bak"))
      with (Ok sample_backup) in H.
    cbv beta iota in H. destruct H as (_ & _ & H).
    change (file_at sample_fs sample_path) with (Some abc) in H.
    change (read_as Utf8 abc) with (Some (lit "abc")) in H.
    cbv beta iota in H. destruct H as (bb & _ & H & _).
    exists bb. exact H.
Defined.

(** ** The whole of [transform_file] *)

Lemma call_transform_text_plain `{U : UnicodeDB} text operation kw :
  kw !! "text" = None ->
  call_transform_text text operation kw = transform_text text operation kw.
Proof.
  intros H. unfold call_transform_text. rewrite H.
  rewrite bool_decide_false; [reflexivity|]. intros [x Hx]. discriminate.
Qed.

Lemma call_transform_text_ok `{U : UnicodeDB} text operation kw out :
  call_transform_text text operation kw = Ok out ->
  kw !! "text" = None /\ transform_text text operation kw = Ok out.
Proof.
  unfold call_transform_text.
  destruct (kw !! "text") as [v|] eqn:E.
  - rewrite bool_decide_true by eauto. discriminate.
  - rewrite bool_decide_false; [auto|]. intros [x Hx]. discriminate.
Qed.

Lemma transform_file_run `{U : UnicodeDB} self file_path operation output_path kw st :
  transform_file self file_path operation output_path kw st
  = match file_at st file_path with
    | None =>
        (Err (FileNotFoundError (lit "File not found: " ++ str_path file_path)), st)
    | Some bs =>
        match call_transform_text (file_text bs) operation kw with
        | Err e => (Err e, st)
        | Ok transformed_text =>
            finish self file_path (default file_path output_path)
                   transformed_text st
        end
    end.
Proof.
  unfold transform_file. unfold io_bind at 1.
  destruct (file_at st file_path) as [bs|] eqn:Hf.
  - rewrite (read_text_file_found _ _ _ Hf).
    unfold io_bind at 1, lift.
    destruct (call_transform_text _ operation kw) as [t|e]; [|reflexivity].
    unfold finish. destruct output_path; reflexivity.
  - rewrite (read_text_file_missing _ _ Hf). reflexivity.
Qed.

(** C4. When the operation is not registered, [transform_file] fails and
    leaves the file system as it was: no backup, no write at the
    destination, the source untouched.  When the source exists the
    failure is the [ValueError] of the dispatcher, unless an option is
    named [text], which is a [TypeError] before the dispatcher is
    entered. *)
Theorem transform_file_unknown_operation `{U : UnicodeDB}
    (self : TextTransformer) (file_path : path) (operation : str)
    (output_path : option path) (kw : kwargs) (st : fs) :
  operation ∉ operation_names ->
  exists e,
    transform_file self file_path operation output_path kw st = (Err e, st)
    /\ (is_Some (file_at st file_path) ->
        e = if bool_decide (is_Some (kw !! "text")) then TypeError
            else ValueError (Some (unknown_operation_message operation))).
Proof.
  intros Hn. rewrite transform_file_run.
  destruct (file_at st file_path) as [bs|].
  - unfold call_transform_text.
    rewrite (dispatch_unknown (file_text bs) operation kw Hn).
    destruct (bool_decide (is_Some (kw !! "text")));
      (eexists; split; [reflexivity|]; intros _; reflexivity).
  - eexists. split; [reflexivity|]. intros [x Hx]. discriminate.
Qed.

Lemma transform_file_unknown_operation_witness :
  exists e,
    @transform_file ascii_tables default_transformer sample_path
       (lit "unknown_operation") None ∅ sample_fs
    = (Err e, sample_fs).
Proof.
  destruct (@transform_file_unknown_operation ascii_tables default_transformer
              sample_path (lit "unknown_operation") None ∅ sample_fs)
    as (e & He & _).
  { apply (bool_decide_unpack _). vm_compute. exact I. }
  exists e. exact He.
Defined.

(** Writing the transformed text at the destination. *)
Lemma write_and_return output_path transformed_text st :
  (write_text_file output_path transformed_text ;;; ret output_path) st
  = (bind (write_result transformed_text) (fun _ => Ok output_path),
     put st output_path (written transformed_text)).
Proof.
  unfold io_bind, write_text_file. rewrite write_utf8_run.
  destruct (write_result transformed_text) as [[]|e]; reflexivity.
Qed.

(** Without a backup, [finish] is the write alone. *)
Lemma finish_no_backup self input_path output_path transformed_text st :
  preserve_original self && bool_decide (output_path = input_path) = false ->
  finish self input_path output_path transformed_text st
  = (bind (write_result transformed_text) (fun _ => Ok output_path),
     put st output_path (written transformed_text)).
Proof.
  intros Hb. unfold finish. rewrite Hb. unfold io_bind at 1, ret at 1.
  apply write_and_return.
Qed.

(** With a backup, [finish] is [create_backup] and then the write. *)
Lemma finish_backup self input_path transformed_text st :
  preserve_original self = true ->
  finish self input_path input_path transformed_text st
  = match create_backup input_path (backup_suffix self) st with
    | (Ok _, st1) =>
        (bind (write_result transformed_text) (fun _ => Ok input_path),
         put st1 input_path (written transformed_text))
    | (Err e, st1) => (Err e, st1)
    end.
Proof.
  intros Hp. unfold finish. rewrite Hp.
  rewrite bool_decide_true by reflexivity. cbv beta iota delta [andb].
  unfold io_bind at 1 2.
  destruct (create_backup input_path (backup_suffix self) st) as [[bp|e] st1];
    [|reflexivity].
  unfold ret at 1. apply write_and_return.
Qed.

Lemma finish_ok self input_path output_path transformed_text st q st' :
  finish self input_path output_path transformed_text st = (Ok q, st') ->
  q = output_path
  /\ file_at st' output_path = Some (written transformed_text)
  /\ write_result transformed_text = Ok tt.
Proof.
  assert (Hend : forall st0,
            (bind (write_result transformed_text) (fun _ => Ok output_path),
             put st0 output_path (written transformed_text)) = (Ok q, st') ->
            q = output_path
            /\ file_at st' output_path = Some (written transformed_text)
            /\ write_result transformed_text = Ok tt).
  { intros st0.
    destruct (write_result transformed_text) as [[]|e]; [|discriminate].
    simpl bind. intros H. injection H as <- <-.
    split; [reflexivity|]. split; [apply file_at_put_eq|reflexivity]. }
  destruct (preserve_original self && bool_decide (output_path = input_path))
    eqn:Hc.
  - apply andb_true_iff in Hc as [Hp Hd]. apply bool_decide_eq_true in Hd.
    subst output_path. rewrite (finish_backup _ _ _ _ Hp).
    destruct (create_backup input_path (backup_suffix self) st)
      as [[bp|e] st1]; [apply Hend|discriminate].
  - rewrite (finish_no_backup _ _ _ _ _ Hc). apply Hend.
Qed.

(** Evaluate a closed call of [transform_text] in place. *)
Ltac eval_transform_text :=
  match goal with
  | |- context [@transform_text ?U ?text ?operation ?kw] =>
      let v := eval vm_compute in (@transform_text U text operation kw) in
      change (@transform_text U text operation kw) with v
  end.

(** X15.  When [transform_file] succeeds, the path it returns is the output
    path, or the input path when none was given, and reading that file
    with [read_text_file] gives the transformed text of the source (with
    its line endings as text mode reads them). *)
Theorem transform_file_then_read `{U : UnicodeDB}
    (self : TextTransformer) (file_path : path) (operation : str)
    (output_path : option path) (kw : kwargs) (st st' : fs) (q : path) :
  transform_file self file_path operation output_path kw st = (Ok q, st') ->
  exists text transformed_text,
    read_text_file file_path st = (Ok text, st)
    /\ transform_text text operation kw = Ok transformed_text
    /\ q = default file_path output_path
    /\ read_text_file q st' = (Ok (universal_newlines transformed_text), st').
Proof.
  rewrite transform_file_run.
  destruct (file_at st file_path) as [bs|] eqn:Hf; [|discriminate].
  destruct (call_transform_text (file_text bs) operation kw) as [t|e] eqn:Ht;
    [|discriminate].
  apply call_transform_text_ok in Ht as [_ Ht].
  intros H. apply finish_ok in H as (-> & Hq & Hw).
  exists (file_text bs), t.
  split; [apply read_text_file_found, Hf|].
  split; [exact Ht|]. split; [reflexivity|].
  rewrite (read_text_file_found _ _ _ Hq).
  unfold write_result in Hw. unfold written.
  destruct (utf8_encode t) as [bb|] eqn:Hbb; [|discriminate].
  simpl. rewrite (file_text_encoded _ _ Hbb). reflexivity.
Qed.

Lemma transform_file_then_read_witness :
  exists text transformed_text,
    read_text_file sample_path sample_fs = (Ok text, sample_fs)
    /\ @transform_text ascii_tables text (lit "upper") ∅ = Ok transformed_text.
Proof.
  destruct (@transform_file_then_read ascii_tables default_transformer
              sample_path (lit "upper") (Some sample_backup) ∅ sample_fs
              (put sample_fs sample_backup [Byte.x41; Byte.x42; Byte.x43])
              sample_backup)
    as (text & t & H1 & H2 & _).
  { rewrite transform_file_run.
    replace (file_at sample_fs sample_path) with (Some abc)
      by (symmetry; apply lookup_singleton_eq).
    rewrite call_transform_text_plain by reflexivity.
    replace (file_text abc) with (lit "abc") by (vm_compute; reflexivity).
    eval_transform_text. cbv beta iota.
    rewrite finish_no_backup by reflexivity.
    vm_compute written. vm_compute write_result. reflexivity. }
  exists text, t. split; [exact H1|exact H2].
Defined.

(** X16.  A transformed text that cannot be encoded as UTF-8 (a lone
    surrogate passed as [separator], say) costs the destination its
    content: without a backup step, [transform_file] fails with a
    [UnicodeEncodeError] after the destination has been opened for writing,
    which leaves it empty.  In place, this is the source file. *)
Theorem transform_file_failed_write `{U : UnicodeDB}
    (self : TextTransformer) (file_path : path) (operation : str)
    (output_path : option path) (kw : kwargs) (st : fs)
    (bs : bytes) (transformed_text : str) :
  preserve_original self = false ->
  file_at st file_path = Some bs ->
  kw !! "text" = None ->
  transform_text (file_text bs) operation kw = Ok transformed_text ->
  utf8_encode transformed_text = None ->
  let q := default file_path output_path in
  exists st',
    transform_file self file_path operation output_path kw st
    = (Err UnicodeEncodeError, st')
    /\ file_at st' q = Some []
    /\ writes st' = writes st ++ [(q, [])].
Proof.
  intros Hp Hf Hk Ht He q.
  rewrite transform_file_run, Hf, (call_transform_text_plain _ _ _ Hk), Ht.
  rewrite finish_no_backup by (rewrite Hp; reflexivity).
  unfold write_result, written. rewrite He. fold q.
  eexists. split; [reflexivity|]. split; [|reflexivity].
  apply file_at_put_eq.
Qed.

Lemma transform_file_failed_write_witness :
  exists st',
    @transform_file ascii_tables
       {| preserve_original := false; backup_suffix := lit ".bak" |}
       sample_path (lit "add_line_numbers") None
       {[ "separator" := VStr [55296%N] ]} sample_fs
    = (Err UnicodeEncodeError, st')
    /\ file_at st' sample_path = Some [].
Proof.
  destruct (@transform_file_failed_write ascii_tables
              {| preserve_original := false; backup_suffix := lit ".bak" |}
              sample_path (lit "add_line_numbers") None
              {[ "separator" := VStr [55296%N] ]} sample_fs abc
              (lit "1" ++ [55296%N] ++ lit "abc"))
    as (st' & H1 & H2 & _).
  { reflexivity. }
  { apply lookup_singleton_eq. }
  { vm_compute. reflexivity. }
  { vm_compute. reflexivity. }
  { vm_compute. reflexivity. }
  exists st'. split; [exact H1|exact H2].
Defined.

(** X17.  A source that is not UTF-8 is read all the same, as Latin-1, and
    an operation on it succeeds; but in place with the backup enabled
    [transform_file] then fails and writes nothing: with the [ValueError]
    of [with_suffix] when the backup name is refused, and otherwise with a
    [UnicodeDecodeError], because the backup reads the source again as
    UTF-8 only. *)
Theorem transform_file_backup_needs_utf8 `{U : UnicodeDB}
    (self : TextTransformer) (file_path : path) (operation : str)
    (output_path : option path) (kw : kwargs) (st : fs)
    (bs : bytes) (transformed_text : str) :
  preserve_original self = true ->
  output_path = None \/ output_path = Some file_path ->
  file_at st file_path = Some bs ->
  utf8_decode bs = None ->
  kw !! "text" = None ->
  transform_text (universal_newlines (map Byte.to_N bs)) operation kw
    = Ok transformed_text ->
  read_text_file file_path st
    = (Ok (universal_newlines (map Byte.to_N bs)), st)
  /\ transform_file self file_path operation output_path kw st
     = (Err (match with_suffix file_path
                     (suffix file_path ++ backup_suffix self) with
             | Ok _ => UnicodeDecodeError
             | Err _ => ValueError None
             end), st).
Proof.
  intros Hp Hout Hf Hd Hk Ht.
  assert (Htext : file_text bs = universal_newlines (map Byte.to_N bs))
    by (unfold file_text; rewrite Hd; reflexivity).
  split.
  - rewrite (read_text_file_found _ _ _ Hf), Htext. reflexivity.
  - rewrite transform_file_run, Hf, (call_transform_text_plain _ _ _ Hk).
    rewrite Htext, Ht.
    replace (default file_path output_path) with file_path
      by (destruct Hout as [->| ->]; reflexivity).
    rewrite (finish_backup _ _ _ _ Hp), create_backup_run, Hf.
    destruct (with_suffix _ _) as [bp|e] eqn:Hw.
    + unfold read_as. change (decode Utf8 bs) with (utf8_decode bs).
      rewrite Hd. reflexivity.
    + rewrite (with_suffix_error _ _ _ Hw). reflexivity.
Qed.

Lemma transform_file_backup_needs_utf8_witness :
  let st := Fs {[ sample_path := [Byte.xe9] ]} [] id in
  read_text_file sample_path st = (Ok [233%N], st)
  /\ @transform_file ascii_tables default_transformer sample_path
       (lit "reverse") None ∅ st
     = (Err UnicodeDecodeError, st).
Proof.
  apply (@transform_file_backup_needs_utf8 ascii_tables default_transformer
           sample_path (lit "reverse") None ∅
           (Fs {[ sample_path := [Byte.xe9] ]} [] id) [Byte.xe9] [233%N]).
  - reflexivity.
  - left. reflexivity.
  - apply lookup_singleton_eq.
  - vm_compute. reflexivity.
  - reflexivity.
  - vm_compute. reflexivity.
Defined.

(** ** In place or copy, and the backup *)

(** Evaluate the closed subterms of a call on a given file system. *)
Ltac eval_file_at :=
  match goal with
  | |- context [file_at ?st ?p] =>
      let v := eval vm_compute in (realpath st p) in
      let m := eval cbv beta iota delta [files] in (files st) in
      replace (file_at st p) with (m !! v) by reflexivity;
      first [rewrite lookup_singleton_eq
            |rewrite lookup_singleton_ne by discriminate]
  end.

Ltac eval_closed t :=
  let v := eval vm_compute in t in
  replace t with v by (vm_compute; reflexivity).

(** C3.  [transform_file] compares the destination with the source as the
    two paths are written, not as the files they name.  With the working
    directory [/tmp], the source [a.txt] and the destination [/tmp/a.txt]
    are one file under two paths: the call is taken for a copy, so that
    with backups enabled no backup is made, and the one write of the call
    overwrites the source. *)
Lemma transform_file_alias_overwrites :
  let source := Path false [lit "a.txt"] in
  let output := Path true [lit "tmp"; lit "a.txt"] in
  let st := Fs {[ output := abc ]} [] from_tmp in
  let st' := put st output [Byte.x41; Byte.x42; Byte.x43] in
  preserve_original default_transformer = true
  /\ output <> source
  /\ realpath st output = realpath st source
  /\ file_at st source = Some abc
  /\ @transform_file ascii_tables default_transformer source (lit "upper")
       (Some output) ∅ st
     = (Ok output, st')
  /\ file_at st' source = Some [Byte.x41; Byte.x42; Byte.x43]
  /\ writes st' = [(output, [Byte.x41; Byte.x42; Byte.x43])].
Proof.
  cbv zeta. split; [reflexivity|]. split; [discriminate|].
  split; [reflexivity|]. split; [apply lookup_singleton_eq|].
  split; [|split; [|reflexivity]].
  2:{ rewrite file_at_put. apply decide_True. reflexivity. }
  rewrite transform_file_run. eval_file_at.
  rewrite call_transform_text_plain by reflexivity.
  eval_closed (file_text abc). eval_transform_text. cbv beta iota.
  rewrite finish_no_backup by reflexivity.
  eval_closed (written [65; 66; 67]%N).
  eval_closed (write_result [65; 66; 67]%N). reflexivity.
Qed.

(** C2.  Three calls in place with backups enabled on a source that
    exists.  For [README] and the suffix ["~"], [with_suffix] refuses the
    backup name: the call fails and writes nothing.  A source that is not
    UTF-8 is read through the Latin-1 fallback of [read_text_file], but
    [create_backup] reads it as UTF-8 only: the call fails in the backup
    step and writes nothing.  A source with a CR LF line ending gets a
    backup, written before the destination, that holds the text of the
    source as text mode reads it, with LF for CR LF, which is not the
    content of the source. *)
Lemma transform_file_backup_slips :
  let readme := Path false [lit "README"] in
  let tilde := {| preserve_original := true; backup_suffix := lit "~" |} in
  let st1 := Fs {[ readme := abc ]} [] id in
  let st2 := Fs {[ sample_path := [Byte.xe9] ]} [] id in
  let crlf := [Byte.x61; Byte.x0d; Byte.x0a; Byte.x62] in
  let st3 := Fs {[ sample_path := crlf ]} [] id in
  (file_at st1 readme = Some abc
   /\ @transform_file ascii_tables tilde readme (lit "upper") None ∅ st1
      = (Err (ValueError None), st1))
  /\ (read_text_file sample_path st2 = (Ok [233%N], st2)
      /\ @transform_file ascii_tables default_transformer sample_path
           (lit "upper") None ∅ st2
         = (Err UnicodeDecodeError, st2))
  /\ (file_at st3 sample_path = Some crlf
      /\ @transform_file ascii_tables default_transformer sample_path
           (lit "upper") None ∅ st3
         = (Ok sample_path,
            put (put st3 sample_backup [Byte.x61; Byte.x0a; Byte.x62])
                sample_path [Byte.x41; Byte.x0a; Byte.x42])
      /\ [Byte.x61; Byte.x0a; Byte.x62] <> crlf).
Proof.
  cbv zeta. split; [|split].
  - split; [apply lookup_singleton_eq|].
    rewrite transform_file_run. eval_file_at.
    rewrite call_transform_text_plain by reflexivity.
    eval_closed (file_text abc). eval_transform_text. cbv beta iota.
    change (default ?p None) with p.
    rewrite finish_backup by reflexivity. rewrite create_backup_run.
    match goal with
    | |- context [with_suffix ?p ?s] => eval_closed (with_suffix p s)
    end.
    reflexivity.
  - split.
    + rewrite (read_text_file_found _ _ [Byte.xe9])
        by apply lookup_singleton_eq.
      reflexivity.
    + rewrite transform_file_run. eval_file_at.
      rewrite call_transform_text_plain by reflexivity.
      eval_closed (file_text [Byte.xe9]). eval_transform_text.
      cbv beta iota. change (default ?p None) with p.
      rewrite finish_backup by reflexivity. rewrite create_backup_run.
      match goal with
      | |- context [with_suffix ?p ?s] => eval_closed (with_suffix p s)
      end.
      eval_file_at. eval_closed (read_as Utf8 [Byte.xe9]). reflexivity.
  - split; [apply lookup_singleton_eq|]. split; [|discriminate].
    rewrite transform_file_run. eval_file_at.
    rewrite call_transform_text_plain by reflexivity.
    eval_closed (file_text [Byte.x61; Byte.x0d; Byte.x0a; Byte.x62]).
    eval_transform_text. cbv beta iota. change (default ?p None) with p.
    rewrite finish_backup by reflexivity. rewrite create_backup_run.
    match goal with
    | |- context [with_suffix ?p ?s] => eval_closed (with_suffix p s)
    end.
    eval_file_at.
    eval_closed (read_as Utf8 [Byte.x61; Byte.x0d; Byte.x0a; Byte.x62]).
    eval_closed (written [97; 10; 98]%N).
    eval_closed (written [65; 10; 66]%N).
    eval_closed (write_result [65; 10; 66]%N). reflexivity.
Qed.

(** X27.  The backup of a call in place, when it is made.  Take a call with
    backups enabled whose destination is the source, on a source that
    exists and is UTF-8, with an operation that returns a text and a
    backup name that [with_suffix] accepts.  The call makes exactly two
    writes: first the backup, at the source path followed by the suffix,
    and then the destination.  The backup holds the text of the source as
    text mode reads it; it is the source byte for byte when the source
    has no carriage return. *)
Theorem transform_file_backup `{U : UnicodeDB}
    (self : TextTransformer) (file_path : path) (operation : str)
    (output_path : option path) (kw : kwargs) (st : fs)
    (bs : bytes) (text transformed_text : str) (backup_path : path) :
  preserve_original self = true ->
  output_path = None \/ output_path = Some file_path ->
  file_at st file_path = Some bs ->
  utf8_decode bs = Some text ->
  call_transform_text (universal_newlines text) operation kw
    = Ok transformed_text ->
  with_suffix file_path (suffix file_path ++ backup_suffix self)
    = Ok backup_path ->
  exists bb,
    str_path backup_path = str_path file_path ++ backup_suffix self
    /\ backup_path = with_name file_path (name file_path ++ backup_suffix self)
    /\ utf8_encode (universal_newlines text) = Some bb
    /\ (CR ∉ text -> bb = bs)
    /\ transform_file self file_path operation output_path kw st
       = (bind (write_result transformed_text) (fun _ => Ok file_path),
          put (put st backup_path bb) file_path (written transformed_text)).
Proof.
  intros Hp Hout Hf Hd Ht Hw.
  assert (Hs : read_as Utf8 bs = Some (universal_newlines text)).
  { unfold read_as. change (decode Utf8 bs) with (utf8_decode bs).
    rewrite Hd. reflexivity. }
  destruct (read_write_read bs _ Hs) as (bb & Hbb & _).
  destruct (with_suffix_appends _ _ _ Hw) as [Hbp Hn].
  destruct (written_encoded _ _ Hbb) as [Hwb _].
  exists bb. split; [rewrite Hbp; apply str_path_with_name, Hn|].
  split; [exact Hbp|]. split; [exact Hbb|]. split.
  - intros Hcr. rewrite (universal_newlines_id _ Hcr) in Hbb.
    rewrite (utf8_encode_decode _ _ Hd) in Hbb. congruence.
  - rewrite transform_file_run, Hf.
    replace (file_text bs) with (universal_newlines text)
      by (unfold file_text; rewrite Hd; reflexivity).
    rewrite Ht.
    replace (default file_path output_path) with file_path
      by (destruct Hout as [->| ->]; reflexivity).
    rewrite (finish_backup _ _ _ _ Hp), create_backup_run, Hw, Hf, Hs, Hwb.
    reflexivity.
Qed.

Lemma transform_file_backup_witness :
  @transform_file ascii_tables default_transformer sample_path (lit "upper")
     None ∅ sample_fs
  = (Ok sample_path,
     put (put sample_fs sample_backup abc) sample_path
         [Byte.x41; Byte.x42; Byte.x43]).
Proof.
  destruct (@transform_file_backup ascii_tables default_transformer
              sample_path (lit "upper") None ∅ sample_fs
              abc (lit "abc") (lit "ABC") sample_backup)
    as (bb & _ & _ & _ & Hbb & Hrun).
  - reflexivity.
  - left. reflexivity.
  - apply lookup_singleton_eq.
  - vm_compute. reflexivity.
  - vm_compute. reflexivity.
  - vm_compute. reflexivity.
  - rewrite Hbb in Hrun; [exact Hrun|].
    apply (bool_decide_unpack _). vm_compute. exact I.
Defined.

(** X28.  In place or copy.  After the source has been read and the
    operation has returned a text, a call whose destination is written
    differently from the source, or whose transformer keeps no backups,
    does one thing: it writes the destination.  A call in place with
    backups enabled runs [create_backup] first, whose failure ends the
    call, and then writes the source.  A copy leaves every file but the
    destination as it was; the source is among them exactly when the two
    paths name different files, and is overwritten when they name the same
    one. *)
Theorem transform_file_in_place_or_copy `{U : UnicodeDB}
    (self : TextTransformer) (file_path : path) (operation : str)
    (output_path : option path) (kw : kwargs) (st : fs)
    (bs : bytes) (transformed_text : str) :
  file_at st file_path = Some bs ->
  call_transform_text (file_text bs) operation kw = Ok transformed_text ->
  let dest := default file_path output_path in
  let outcome := bind (write_result transformed_text) (fun _ => Ok dest) in
  let after := put st dest (written transformed_text) in
  (preserve_original self = false \/ dest <> file_path ->
   transform_file self file_path operation output_path kw st
   = (outcome, after)
   /\ (forall q, realpath st q <> realpath st dest ->
         file_at after q = file_at st q)
   /\ (realpath st dest = realpath st file_path ->
         file_at after file_path = Some (written transformed_text)))
  /\ (preserve_original self = true -> dest = file_path ->
      transform_file self file_path operation output_path kw st
      = match create_backup file_path (backup_suffix self) st with
        | (Ok _, st1) =>
            (outcome, put st1 file_path (written transformed_text))
        | (Err e, st1) => (Err e, st1)
        end).
Proof.
  intros Hf Ht dest outcome after. split.
  - intros Hc. split; [|split].
    + rewrite transform_file_run, Hf, Ht. apply finish_no_backup.
      destruct Hc as [->|Hc]; [reflexivity|].
      rewrite bool_decide_false by exact Hc. apply andb_false_r.
    + intros q Hq. apply file_at_put_ne, Hq.
    + intros Hq. unfold after. rewrite file_at_put.
      destruct (decide _); congruence.
  - intros Hp Hd. rewrite transform_file_run, Hf, Ht. fold dest.
    unfold outcome. rewrite Hd. apply finish_backup, Hp.
Qed.

Lemma transform_file_in_place_or_copy_witness :
  @transform_file ascii_tables default_transformer sample_path (lit "upper")
     (Some sample_backup) ∅ sample_fs
  = (Ok sample_backup,
     put sample_fs sample_backup [Byte.x41; Byte.x42; Byte.x43])
  /\ file_at (put sample_fs sample_backup [Byte.x41; Byte.x42; Byte.x43])
       sample_path
     = file_at sample_fs sample_path.
Proof.
  assert (Hf : file_at sample_fs sample_path = Some abc)
    by apply lookup_singleton_eq.
  assert (Ht : @call_transform_text ascii_tables (file_text abc) (lit "upper") ∅
               = Ok (lit "ABC"))
    by (vm_compute; reflexivity).
  destruct (proj1 (@transform_file_in_place_or_copy ascii_tables
                     default_transformer sample_path (lit "upper")
                     (Some sample_backup) ∅ sample_fs abc (lit "ABC") Hf Ht))
    as (H1 & H2 & _).
  - right. discriminate.
  - split; [exact H1|]. apply H2. discriminate.
Defined.

(** ** Further properties of the operations *)

Lemma Forall_filter_keep {A} (P : A -> Prop) (Q : A -> Prop)
    `{forall x, Decision (Q x)} (l : list A) :
  Forall P l -> Forall P (filter Q l).
Proof.
  induction 1 as [|x l Hx Hl IH]; [constructor|].
  rewrite filter_cons. destruct (decide (Q x)); [constructor|]; assumption.
Qed.

Lemma filter_all {A} (Q : A -> Prop) `{forall x, Decision (Q x)} (l : list A) :
  Forall Q l -> filter Q l = l.
Proof.
  induction 1 as [|x l Hx Hl IH]; [reflexivity|].
  rewrite filter_cons. destruct (decide (Q x)); [|contradiction].
  rewrite IH. reflexivity.
Qed.

Lemma filter_holds {A} (Q : A -> Prop) `{forall x, Decision (Q x)} (l : list A) :
  Forall Q (filter Q l).
Proof.
  induction l as [|x l IH]; [constructor|].
  rewrite filter_cons. destruct (decide (Q x)); [constructor|]; assumption.
Qed.

Lemma filter_length_le {A} (Q : A -> Prop) `{forall x, Decision (Q x)}
    (l : list A) :
  (length (filter Q l) <= length l)%nat.
Proof.
  induction l as [|x l IH]; [reflexivity|].
  rewrite filter_cons. destruct (decide (Q x)); simpl; lia.
Qed.

Lemma transform_text_remove_empty_lines `{U : UnicodeDB} text kw :
  transform_text text (lit "remove_empty_lines") kw
  = Ok (join [NL] (filter (fun line => nonblank line) (split_on NL text))).
Proof. reflexivity. Qed.

Lemma split_on_join_kept (Q : str -> Prop) `{forall x, Decision (Q x)} text :
  filter Q (split_on NL text) <> [] ->
  split_on NL (join [NL] (filter Q (split_on NL text)))
  = filter Q (split_on NL text).
Proof.
  intros Hne. apply split_on_join; [exact Hne|].
  apply Forall_filter_keep, split_on_pieces.
Qed.

(** X1.  [remove_empty_lines] keeps the lines that are not blank, in their
    order, whatever options are passed: the lines of a result that is not
    empty are these lines and none of them is blank; when every line of
    the text is blank the result is the empty text. *)
Theorem remove_empty_lines_keeps_nonblank `{U : UnicodeDB}
    (text : str) (kw : kwargs) :
  let kept := filter (fun line => nonblank line) (split_on NL text) in
  exists out,
    transform_text text (lit "remove_empty_lines") kw = Ok out
    /\ (kept = [] -> out = [])
    /\ (kept <> [] -> split_on NL out = kept)
    /\ (out <> [] -> Forall (fun line => nonblank line = true) (split_on NL out))
    /\ (length kept <= length (split_on NL text))%nat.
Proof.
  intros kept. exists (join [NL] kept).
  split; [apply transform_text_remove_empty_lines|].
  assert (Hs : kept <> [] -> split_on NL (join [NL] kept) = kept)
    by apply split_on_join_kept.
  split; [intros ->; reflexivity|]. split; [exact Hs|].
  split; [|apply filter_length_le].
  intros Hout. destruct (decide (kept = [])) as [E|E].
  - rewrite E in Hout. contradiction Hout. reflexivity.
  - rewrite (Hs E). unfold kept.
    eapply Forall_impl; [apply filter_holds|].
    intros line Hl. simpl in Hl. apply Is_true_true in Hl. exact Hl.
Qed.

(** X2.  [remove_empty_lines] is idempotent: applying it to its own result
    gives that result again. *)
Theorem remove_empty_lines_idempotent `{U : UnicodeDB}
    (text : str) (kw kw' : kwargs) :
  bind (transform_text text (lit "remove_empty_lines") kw)
       (fun once => transform_text once (lit "remove_empty_lines") kw')
  = transform_text text (lit "remove_empty_lines") kw.
Proof.
  rewrite !transform_text_remove_empty_lines. simpl bind.
  rewrite transform_text_remove_empty_lines. f_equal.
  set (kept := filter (fun line => nonblank line) (split_on NL text)).
  destruct (decide (kept = [])) as [E|E].
  - rewrite E. reflexivity.
  - unfold kept. rewrite split_on_join_kept by exact E.
    rewrite filter_all; [reflexivity|]. apply filter_holds.
Qed.

Lemma transform_text_reverse `{U : UnicodeDB} text kw :
  transform_text text (lit "reverse") kw = _reverse_text text kw.
Proof. reflexivity. Qed.

(** X3.  With [by_lines] set, [reverse] reverses the order of the lines,
    whether or not [by_words] is set as well, and applying it twice gives
    the text back. *)
Theorem reverse_by_lines_twice `{U : UnicodeDB} (text : str) (kw : kwargs) :
  truthy (kw_get kw "by_lines" (VBool false)) = true ->
  exists reversed,
    transform_text text (lit "reverse") kw = Ok reversed
    /\ split_on NL reversed = rev (split_on NL text)
    /\ transform_text reversed (lit "reverse") kw = Ok text.
Proof.
  intros Hl.
  assert (E : forall t, transform_text t (lit "reverse") kw
                        = Ok (join [NL] (rev (split_on NL t)))).
  { intros t. rewrite transform_text_reverse. unfold _reverse_text.
    rewrite Hl. reflexivity. }
  assert (Hs : split_on NL (join [NL] (rev (split_on NL text)))
               = rev (split_on NL text)).
  { apply split_on_join.
    - intros Hnil. apply (f_equal (@rev str)) in Hnil.
      rewrite rev_involutive in Hnil. exact (split_on_nonempty NL text Hnil).
    - apply Forall_forall. intros p Hp.
      apply list_elem_of_In, in_rev, list_elem_of_In in Hp.
      pose proof (split_on_pieces NL text) as Hall.
      rewrite Forall_forall in Hall. apply Hall, Hp. }
  exists (join [NL] (rev (split_on NL text))).
  split; [apply E|]. split; [exact Hs|].
  rewrite E, Hs, rev_involutive, join_split_on. reflexivity.
Qed.

Lemma reverse_by_lines_twice_witness :
  exists reversed,
    @transform_text ascii_tables (lit "a b" ++ [NL] ++ lit "c") (lit "reverse")
       {[ "by_lines" := VBool true; "by_words" := VBool true ]} = Ok reversed
    /\ split_on NL reversed = [lit "c"; lit "a b"].
Proof.
  destruct (@reverse_by_lines_twice ascii_tables (lit "a b" ++ [NL] ++ lit "c")
              {[ "by_lines" := VBool true; "by_words" := VBool true ]})
    as (reversed & H1 & H2 & _).
  { vm_compute. reflexivity. }
  exists reversed. split; [exact H1|]. rewrite H2. vm_compute. reflexivity.
Defined.

Lemma words_by_word sp w cur rest :
  Forall (fun c => sp c = false) w ->
  words_by sp cur (w ++ rest) = words_by sp (rev w ++ cur) rest.
Proof.
  intros Hw. revert cur.
  induction Hw as [|c w Hc Hw IH]; intros cur; [reflexivity|].
  simpl. rewrite Hc, IH, <- app_assoc. reflexivity.
Qed.

Lemma rev_cons_nonempty {A} (d : A) (l : list A) : rev l ++ [d] <> [].
Proof. intros E. apply app_eq_nil in E. destruct E. discriminate. Qed.

Lemma words_by_words `{U : UnicodeDB} cur s :
  Forall (fun c => is_space c = false) cur ->
  Forall is_word_of (words_by is_space cur s).
Proof.
  revert cur. induction s as [|c s IH]; intros cur Hcur; simpl.
  - destruct cur as [|d cur]; [constructor|].
    constructor; [|constructor]. split.
    + apply rev_cons_nonempty.
    + apply Forall_forall. intros x Hx.
      apply list_elem_of_In, in_rev, list_elem_of_In in Hx.
      rewrite Forall_forall in Hcur. apply Hcur, Hx.
  - destruct (is_space c) eqn:Hc.
    + destruct cur as [|d cur]; [apply IH; constructor|].
      constructor; [|apply IH; constructor]. split.
      * apply rev_cons_nonempty.
      * apply Forall_forall. intros x Hx.
        apply list_elem_of_In, in_rev, list_elem_of_In in Hx.
        rewrite Forall_forall in Hcur. apply Hcur, Hx.
    + apply IH. constructor; assumption.
Qed.

Lemma words_by_join `{U : UnicodeDB} ws :
  is_space SP = true -> Forall is_word_of ws ->
  words_by is_space [] (join [SP] ws) = ws.
Proof.
  intros Hsp Hws. induction Hws as [|w ws [Hne Hw] Hws IH]; [reflexivity|].
  assert (Hrev : rev w <> []).
  { intros E. apply (f_equal (@rev char)) in E.
    rewrite rev_involutive in E. exact (Hne E). }
  destruct ws as [|w2 ws].
  - change (join [SP] [w]) with w. rewrite <- (app_nil_r w) at 1.
    rewrite (words_by_word _ _ _ _ Hw), app_nil_r.
    change (words_by is_space (rev w) [])
      with (match rev w with [] => [] | _ => [rev (rev w)] end).
    rewrite rev_involutive. destruct (rev w); [contradiction|reflexivity].
  - rewrite join_cons. rewrite (words_by_word _ _ _ _ Hw), app_nil_r.
    change (words_by is_space (rev w) ([SP] ++ join [SP] (w2 :: ws)))
      with (if is_space SP
            then match rev w with
                 | [] => words_by is_space [] (join [SP] (w2 :: ws))
                 | _ => rev (rev w) :: words_by is_space [] (join [SP] (w2 :: ws))
                 end
            else words_by is_space (SP :: rev w) (join [SP] (w2 :: ws))).
    rewrite Hsp, rev_involutive, IH.
    destruct (rev w); [contradiction|reflexivity].
Qed.

(** X4.  With [by_words] set and [by_lines] not set, [reverse] reverses the
    order of the words, and applying it twice gives the words of the text
    joined by single spaces, which is the text itself only when its words
    were already separated this way. *)
Theorem reverse_by_words_twice `{U : UnicodeDB} (text : str) (kw : kwargs) :
  is_space SP = true ->
  truthy (kw_get kw "by_lines" (VBool false)) = false ->
  truthy (kw_get kw "by_words" (VBool false)) = true ->
  let words := words_by is_space [] text in
  exists reversed,
    transform_text text (lit "reverse") kw = Ok reversed
    /\ words_by is_space [] reversed = rev words
    /\ transform_text reversed (lit "reverse") kw = Ok (join [SP] words).
Proof.
  intros Hsp Hl Hw words.
  assert (E : forall t, transform_text t (lit "reverse") kw
                        = Ok (join [SP] (rev (words_by is_space [] t)))).
  { intros t. rewrite transform_text_reverse. unfold _reverse_text.
    rewrite Hl, Hw. reflexivity. }
  assert (Hs : words_by is_space [] (join [SP] (rev words)) = rev words).
  { apply words_by_join; [exact Hsp|].
    apply Forall_forall. intros w Hin.
    apply list_elem_of_In, in_rev, list_elem_of_In in Hin.
    pose proof (words_by_words [] text (List.Forall_nil _)) as Hall.
    rewrite Forall_forall in Hall. apply Hall, Hin. }
  exists (join [SP] (rev words)).
  split; [apply E|]. split; [exact Hs|].
  rewrite E, Hs, rev_involutive. reflexivity.
Qed.

Lemma reverse_by_words_twice_witness :
  exists reversed,
    @transform_text ascii_tables (lit "Hello   World Test") (lit "reverse")
       {[ "by_words" := VBool true ]} = Ok reversed
    /\ @transform_text ascii_tables reversed (lit "reverse")
         {[ "by_words" := VBool true ]} = Ok (lit "Hello World Test").
Proof.
  destruct (@reverse_by_words_twice ascii_tables (lit "Hello   World Test")
              {[ "by_words" := VBool true ]})
    as (reversed & H1 & _ & H2).
  { vm_compute. reflexivity. }
  { vm_compute. reflexivity. }
  { vm_compute. reflexivity. }
  exists reversed. split; [exact H1|]. rewrite H2. vm_compute. reflexivity.
Defined.

(** ** More on sorted lines *)

Lemma stable_sort_fixed {A} (lt : A -> A -> bool) (l : list A) :
  StronglySorted (fun a b => lt b a = false) l -> stable_sort lt l = l.
Proof.
  induction 1 as [|x l Hl IH Hx]; [reflexivity|].
  change (stable_sort lt (x :: l)) with (insert_by lt x (stable_sort lt l)).
  rewrite IH. destruct Hx as [|y l' Hy _]; [reflexivity|].
  simpl. rewrite Hy. reflexivity.
Qed.

Lemma list_sort_fixed (key : str -> str) (reverse : bool) (l : list str) :
  StronglySorted (in_order key reverse) l -> list_sort key reverse l = l.
Proof.
  unfold list_sort, in_order. destruct reverse; intros Hs.
  - rewrite stable_sort_fixed; [apply rev_involutive|].
    apply (StronglySorted_rev _ _ Hs).
  - apply stable_sort_fixed. exact Hs.
Qed.

Lemma list_sort_in_order (key : str -> str) (reverse : bool) (l : list str) :
  StronglySorted (in_order key reverse) (list_sort key reverse l).
Proof. apply list_sort_sorted. Qed.

Lemma with_key_cons key k x l :
  with_key key k (x :: l)
  = if decide (key x = k) then x :: with_key key k l else with_key key k l.
Proof. unfold with_key. rewrite filter_cons. reflexivity. Qed.

Lemma with_key_app key k l1 l2 :
  with_key key k (l1 ++ l2) = with_key key k l1 ++ with_key key k l2.
Proof. unfold with_key. apply filter_app. Qed.

Lemma with_key_rev key k l : with_key key k (rev l) = rev (with_key key k l).
Proof.
  induction l as [|x l IH]; [reflexivity|].
  simpl rev. rewrite with_key_app, IH, !with_key_cons.
  destruct (decide (key x = k)); simpl.
  - reflexivity.
  - rewrite app_nil_r. reflexivity.
Qed.

Lemma insert_by_with_key key k x l :
  with_key key k (insert_by (fun a b => text_lt (key a) (key b)) x l)
  = with_key key k (x :: l).
Proof.
  induction l as [|y l IH]; [reflexivity|].
  simpl insert_by. destruct (text_lt (key y) (key x)) eqn:E; [|reflexivity].
  rewrite (with_key_cons _ _ y), IH, !with_key_cons.
  destruct (decide (key x = k)) as [Ex|Ex], (decide (key y = k)) as [Ey|Ey];
    try reflexivity.
  rewrite Ex, Ey, text_lt_irrefl in E. discriminate.
Qed.

Lemma stable_sort_with_key key k l :
  with_key key k (stable_sort (fun a b => text_lt (key a) (key b)) l)
  = with_key key k l.
Proof.
  induction l as [|x l IH]; [reflexivity|].
  change (stable_sort (fun a b => text_lt (key a) (key b)) (x :: l))
    with (insert_by (fun a b => text_lt (key a) (key b)) x
            (stable_sort (fun a b => text_lt (key a) (key b)) l)).
  rewrite insert_by_with_key, !with_key_cons, IH. reflexivity.
Qed.

Lemma list_sort_with_key key reverse k l :
  with_key key k (list_sort key reverse l) = with_key key k l.
Proof.
  unfold list_sort. destruct reverse.
  - rewrite with_key_rev, stable_sort_with_key, with_key_rev.
    apply rev_involutive.
  - apply stable_sort_with_key.
Qed.

Lemma fromkeys_from_NoDup l keys :
  NoDup (keys ++ l) ->
  fold_left (fun keys x => if mem_text x keys then keys else keys ++ [x]) l keys
  = keys ++ l.
Proof.
  revert keys. induction l as [|x l IH]; intros keys Hnd.
  - simpl. rewrite app_nil_r. reflexivity.
  - simpl fold_left.
    assert (Hx : mem_text x keys = false).
    { destruct (mem_text x keys) eqn:E; [|reflexivity].
      apply mem_text_spec in E. apply NoDup_app in Hnd as (_ & Hd & _).
      exfalso. apply (Hd x E). left. }
    rewrite Hx, IH; rewrite <- app_assoc; [reflexivity|exact Hnd].
Qed.

Lemma fromkeys_NoDup_fixed l : NoDup l -> fromkeys l = l.
Proof. intros Hnd. apply (fromkeys_from_NoDup l []). exact Hnd. Qed.

Lemma sort_input_lines remove_duplicates text :
  sort_input remove_duplicates text <> []
  /\ Forall (fun p => NL ∉ p) (sort_input remove_duplicates text).
Proof.
  unfold sort_input. destruct remove_duplicates.
  - split.
    + intros E. pose proof (split_on_nonempty NL text) as Hne.
      destruct (split_on NL text) as [|l ls] eqn:Es; [congruence|].
      assert (Hl : l ∈ fromkeys (l :: ls)) by (apply fromkeys_elem; left).
      rewrite E in Hl. inversion Hl.
    + apply Forall_forall. intros line Hline. apply (proj1 (fromkeys_elem _ _)) in Hline.
      pose proof (split_on_pieces NL text) as Hp.
      rewrite Forall_forall in Hp. apply Hp, Hline.
  - split; [apply split_on_nonempty|apply split_on_pieces].
Qed.

Lemma split_on_join_perm (lines input : list str) :
  lines ≡ₚ input -> input <> [] -> Forall (fun p => NL ∉ p) input ->
  split_on NL (join [NL] lines) = lines.
Proof.
  intros Hperm Hne Hall. apply split_on_join.
  - intros E. rewrite E in Hperm. symmetry in Hperm.
    apply Permutation_nil_r in Hperm. exact (Hne Hperm).
  - rewrite Hperm. exact Hall.
Qed.

Lemma sort_lines_run `{U : UnicodeDB} text kw :
  transform_text text (lit "sort_lines") kw
  = match as_index (kw_get kw "reverse" (VBool false)) with
    | None => Err TypeError
    | Some rv =>
        Ok (join [NL]
              (list_sort
                 (sort_key (truthy (kw_get kw "ignore_case" (VBool false))))
                 (negb (Z.eqb rv 0))
                 (sort_input
                    (truthy (kw_get kw "remove_duplicates" (VBool false)))
                    text)))
    end.
Proof.
  rewrite transform_text_sort_lines. unfold _sort_lines, require_index.
  destruct (as_index (kw_get kw "reverse" (VBool false))) as [rv|];
    [|reflexivity].
  cbv beta iota delta [bind]. unfold sort_key, sort_input.
  destruct (truthy (kw_get kw "ignore_case" (VBool false))); reflexivity.
Qed.

(** X5.  Without [remove_duplicates], the lines [sort_lines] yields are a
    rearrangement of the lines of the text: every line is kept, as often
    as it occurs, and they are in the order of their keys. *)
Theorem sort_lines_permutation `{U : UnicodeDB}
    (text : str) (kw : kwargs) (rv : Z) :
  truthy (kw_get kw "remove_duplicates" (VBool false)) = false ->
  as_index (kw_get kw "reverse" (VBool false)) = Some rv ->
  let key := sort_key (truthy (kw_get kw "ignore_case" (VBool false))) in
  exists lines,
    transform_text text (lit "sort_lines") kw = Ok (join [NL] lines)
    /\ split_on NL (join [NL] lines) = lines
    /\ lines ≡ₚ split_on NL text
    /\ length lines = length (split_on NL text)
    /\ StronglySorted (in_order key (negb (Z.eqb rv 0))) lines.
Proof.
  intros Hd Hr key.
  set (lines := list_sort key (negb (Z.eqb rv 0)) (split_on NL text)).
  assert (Hperm : lines ≡ₚ split_on NL text) by apply list_sort_perm.
  exists lines. split; [|split; [|split; [|split]]].
  - rewrite sort_lines_run, Hr, Hd. reflexivity.
  - eapply split_on_join_perm;
      [exact Hperm|apply split_on_nonempty|apply split_on_pieces].
  - exact Hperm.
  - rewrite Hperm. reflexivity.
  - apply list_sort_in_order.
Qed.

Lemma sort_lines_permutation_witness :
  exists lines,
    @transform_text ascii_tables
       (lit "Zebra" ++ [NL] ++ lit "Apple" ++ [NL] ++ lit "Zebra")
       (lit "sort_lines") ∅ = Ok (join [NL] lines)
    /\ lines ≡ₚ [lit "Zebra"; lit "Apple"; lit "Zebra"].
Proof.
  destruct (@sort_lines_permutation ascii_tables
              (lit "Zebra" ++ [NL] ++ lit "Apple" ++ [NL] ++ lit "Zebra")
              ∅ 0%Z)
    as (lines & H1 & _ & H2 & _).
  { vm_compute. reflexivity. }
  { vm_compute. reflexivity. }
  exists lines. split; [exact H1|exact H2].
Defined.

(** X6.  The sort of [sort_lines] is stable, also with [reverse]: the lines
    that have the same key come out in the order they had in the text. *)
Theorem sort_lines_stable `{U : UnicodeDB}
    (text : str) (kw : kwargs) (rv : Z) :
  as_index (kw_get kw "reverse" (VBool false)) = Some rv ->
  let key := sort_key (truthy (kw_get kw "ignore_case" (VBool false))) in
  let input :=
    sort_input (truthy (kw_get kw "remove_duplicates" (VBool false))) text in
  exists lines,
    transform_text text (lit "sort_lines") kw = Ok (join [NL] lines)
    /\ split_on NL (join [NL] lines) = lines
    /\ forall k, with_key key k lines = with_key key k input.
Proof.
  intros Hr key input.
  set (lines := list_sort key (negb (Z.eqb rv 0)) input).
  exists lines. split; [|split].
  - rewrite sort_lines_run, Hr. reflexivity.
  - eapply split_on_join_perm; [apply list_sort_perm| |];
      apply sort_input_lines.
  - intros k. apply list_sort_with_key.
Qed.

Lemma sort_lines_stable_witness :
  exists lines,
    @transform_text ascii_tables
       (lit "b" ++ [NL] ++ lit "B" ++ [NL] ++ lit "a")
       (lit "sort_lines") {[ "ignore_case" := VBool true; "reverse" := VBool true ]}
    = Ok (join [NL] lines)
    /\ with_key (@str_lower ascii_tables) (lit "b") lines = [lit "b"; lit "B"].
Proof.
  destruct (@sort_lines_stable ascii_tables
              (lit "b" ++ [NL] ++ lit "B" ++ [NL] ++ lit "a")
              {[ "ignore_case" := VBool true; "reverse" := VBool true ]} 1%Z)
    as (lines & H1 & _ & H2).
  { vm_compute. reflexivity. }
  exists lines. split; [exact H1|].
  replace (sort_key (truthy (kw_get
             {[ "ignore_case" := VBool true; "reverse" := VBool true ]}
             "ignore_case" (VBool false))))
    with (@str_lower ascii_tables) in H2 by (vm_compute; reflexivity).
  rewrite H2. vm_compute. reflexivity.
Defined.

(** X7.  [sort_lines] is idempotent for every choice of options: sorting
    its result again with the same options changes nothing, and a call
    that fails fails the same way. *)
Theorem sort_lines_idempotent `{U : UnicodeDB} (text : str) (kw : kwargs) :
  bind (transform_text text (lit "sort_lines") kw)
       (fun sorted => transform_text sorted (lit "sort_lines") kw)
  = transform_text text (lit "sort_lines") kw.
Proof.
  rewrite sort_lines_run.
  destruct (as_index (kw_get kw "reverse" (VBool false))) as [rv|] eqn:Hr;
    [|reflexivity].
  set (key := sort_key (truthy (kw_get kw "ignore_case" (VBool false)))).
  set (dedup := truthy (kw_get kw "remove_duplicates" (VBool false))).
  set (lines := list_sort key (negb (Z.eqb rv 0)) (sort_input dedup text)).
  simpl bind. rewrite sort_lines_run, Hr. fold key dedup. do 2 f_equal.
  assert (Hperm : lines ≡ₚ sort_input dedup text) by apply list_sort_perm.
  assert (Hs : split_on NL (join [NL] lines) = lines).
  { eapply split_on_join_perm; [exact Hperm| |]; apply sort_input_lines. }
  assert (Hin : sort_input dedup (join [NL] lines) = lines).
  { unfold sort_input at 1. rewrite Hs. destruct dedup eqn:Hd; [|reflexivity].
    apply fromkeys_NoDup_fixed. rewrite Hperm. apply fromkeys_NoDup. }
  rewrite Hin. apply list_sort_fixed, list_sort_in_order.
Qed.

(** ** Stripping *)

Lemma lstrip_by_head sp s : opt_test sp (head (lstrip_by sp s)) = false.
Proof.
  induction s as [|c s IH]; [reflexivity|].
  simpl. destruct (sp c) eqn:E; [exact IH|]. simpl. exact E.
Qed.

Lemma lstrip_by_suffix sp s : exists a, s = a ++ lstrip_by sp s.
Proof.
  induction s as [|c s [a IH]]; [exists []; reflexivity|].
  simpl. destruct (sp c).
  - exists (c :: a). simpl. f_equal. exact IH.
  - exists []. reflexivity.
Qed.

Lemma rstrip_by_prefix sp s : exists b, s = rstrip_by sp s ++ b.
Proof.
  unfold rstrip_by. destruct (lstrip_by_suffix sp (rev s)) as [a Ha].
  exists (rev a). rewrite <- rev_app_distr, <- Ha, rev_involutive.
  reflexivity.
Qed.

Lemma last_rev {A} (l : list A) : last (rev l) = head l.
Proof.
  destruct l as [|x l]; [reflexivity|]. simpl rev. apply last_snoc.
Qed.

Lemma rstrip_by_last sp s : opt_test sp (last (rstrip_by sp s)) = false.
Proof. unfold rstrip_by. rewrite last_rev. apply lstrip_by_head. Qed.

Lemma rstrip_by_head sp s :
  opt_test sp (head s) = false -> opt_test sp (head (rstrip_by sp s)) = false.
Proof.
  intros Hs. destruct (rstrip_by_prefix sp s) as [b Hb].
  destruct (rstrip_by sp s) as [|c r]; [reflexivity|].
  rewrite Hb in Hs. exact Hs.
Qed.

Lemma strip_by_stripped `{U : UnicodeDB} s : stripped (strip_by is_space s).
Proof.
  split.
  - apply rstrip_by_head, lstrip_by_head.
  - apply rstrip_by_last.
Qed.

Lemma strip_by_infix sp s : exists a b, s = a ++ strip_by sp s ++ b.
Proof.
  unfold strip_by. destruct (lstrip_by_suffix sp s) as [a Ha].
  destruct (rstrip_by_prefix sp (lstrip_by sp s)) as [b Hb].
  exists a, b. rewrite <- Hb. exact Ha.
Qed.

Lemma strip_by_Forall sp (P : char -> Prop) s :
  Forall P s -> Forall P (strip_by sp s).
Proof.
  intros Hs. destruct (strip_by_infix sp s) as (a & b & E).
  rewrite E in Hs. apply Forall_app in Hs as [_ Hs].
  apply Forall_app in Hs as [Hs _]. exact Hs.
Qed.

Lemma squeeze_spaces_Forall (P : char -> Prop) s :
  Forall P s -> Forall P (squeeze_spaces s).
Proof.
  induction 1 as [|c s Hc Hs IH]; [constructor|].
  rewrite squeeze_spaces_cons.
  destruct (N.eqb c SP && opt_test (N.eqb SP) (head s));
    [exact IH|constructor; assumption].
Qed.

(** ** Deleting single characters and runs of digits *)

Lemma sub_chr `{U : UnicodeDB} k s :
  re_sub [Chr k] [] s = List.filter (fun c => negb (cmatch k c)) s.
Proof.
  unfold re_sub. generalize (@None char) as prev.
  induction s as [|c s IH]; intros prev; rewrite sub_scan_zero.
  - reflexivity.
  - simpl re_match. simpl List.filter. destruct (cmatch k c); simpl.
    + apply IH.
    + f_equal. apply IH.
Qed.

Lemma sub_scan_digits `{U : UnicodeDB} prev s skip :
  (skip <= run (One CDigit) s)%nat ->
  sub_scan digits_pat [] prev s skip
  = List.filter (fun c => negb (is_decimal c)) s.
Proof.
  revert prev skip. induction s as [|c s IH]; intros prev skip Hskip.
  - simpl in Hskip. assert (skip = O) as -> by lia. reflexivity.
  - destruct skip as [|k].
    + rewrite sub_scan_zero. unfold digits_pat. rewrite match_rep_only.
      simpl run. simpl List.filter.
      change (cmatch (One CDigit) c) with (is_decimal c).
      destruct (is_decimal c); simpl.
      * apply IH. lia.
      * f_equal. apply IH. lia.
    + simpl in Hskip. simpl List.filter.
      change (cmatch (One CDigit) c) with (is_decimal c) in Hskip.
      destruct (is_decimal c); [|lia]. simpl. apply IH. lia.
Qed.

Lemma sub_digits `{U : UnicodeDB} s :
  re_sub digits_pat [] s = List.filter (fun c => negb (is_decimal c)) s.
Proof. apply sub_scan_digits. lia. Qed.

Lemma filter_false_Forall {A} (f : A -> bool) (l : list A) :
  Forall (fun x => f x = false) (List.filter (fun x => negb (f x)) l).
Proof.
  apply Forall_forall. intros x Hx.
  apply list_elem_of_In, filter_In in Hx as [_ Hx].
  destruct (f x); [discriminate|reflexivity].
Qed.

Lemma filter_true_Forall {A} (f : A -> bool) (l : list A) :
  Forall (fun x => f x = true) (List.filter f l).
Proof.
  apply Forall_forall. intros x Hx.
  apply list_elem_of_In, filter_In in Hx as [_ Hx]. exact Hx.
Qed.

Lemma filter_fixed {A} (f : A -> bool) (l : list A) :
  Forall (fun x => f x = true) l -> List.filter f l = l.
Proof.
  induction 1 as [|x l Hx Hl IH]; [reflexivity|].
  simpl. rewrite Hx, IH. reflexivity.
Qed.

Lemma remove_punctuation_run `{U : UnicodeDB} text kw :
  transform_text text (lit "remove_punctuation") kw
  = Ok (List.filter
          (kept_char (truthy (kw_get kw "keep_periods" (VBool false)))
                     (truthy (kw_get kw "keep_apostrophes" (VBool false))))
          text).
Proof.
  change (transform_text text (lit "remove_punctuation") kw)
    with (_remove_punctuation text kw).
  unfold _remove_punctuation. rewrite sub_chr. f_equal.
  apply filter_ext. intros c. unfold kept_char.
  destruct (truthy (kw_get kw "keep_periods" (VBool false))),
           (truthy (kw_get kw "keep_apostrophes" (VBool false)));
    simpl; rewrite negb_involutive;
    repeat match goal with
           | |- context [N.eqb c ?x] => generalize (N.eqb c x); intros ?
           end;
    destruct (is_word c), (is_space c);
    repeat match goal with b : bool |- _ => destruct b end; reflexivity.
Qed.

(** X8.  [remove_punctuation] deletes single characters and nothing else:
    its result is the text without the characters that are neither word
    characters nor whitespace nor, when [keep_periods] or
    [keep_apostrophes] is set, a period or an apostrophe.  The other
    characters stay in their order, and a second application changes
    nothing. *)
Theorem remove_punctuation_filters `{U : UnicodeDB} (text : str) (kw : kwargs) :
  let keep :=
    kept_char (truthy (kw_get kw "keep_periods" (VBool false)))
              (truthy (kw_get kw "keep_apostrophes" (VBool false))) in
  exists out,
    transform_text text (lit "remove_punctuation") kw = Ok out
    /\ out = List.filter keep text
    /\ Forall (fun c => keep c = true) out
    /\ (Forall (fun c => keep c = true) text -> out = text)
    /\ transform_text out (lit "remove_punctuation") kw = Ok out.
Proof.
  intros keep. exists (List.filter keep text).
  split; [apply remove_punctuation_run|]. split; [reflexivity|].
  split; [apply filter_true_Forall|]. split; [apply filter_fixed|].
  rewrite remove_punctuation_run. fold keep. f_equal.
  apply filter_fixed, filter_true_Forall.
Qed.

(** X9.  Without [keep_years], [remove_numbers] deletes every decimal
    digit, also inside words; the spaces are then squeezed and the ends
    stripped, so that the result holds no digit and neither starts nor
    ends with whitespace. *)
Theorem remove_numbers_all_digits `{U : UnicodeDB} (text : str) (kw : kwargs) :
  truthy (kw_get kw "keep_years" (VBool false)) = false ->
  exists out,
    transform_text text (lit "remove_numbers") kw = Ok out
    /\ out = strip_by is_space
               (squeeze_spaces
                  (List.filter (fun c => negb (is_decimal c)) text))
    /\ Forall (fun c => is_decimal c = false) out
    /\ stripped out.
Proof.
  intros Hk.
  exists (strip_by is_space
            (squeeze_spaces (List.filter (fun c => negb (is_decimal c)) text))).
  split; [|split; [reflexivity|split]].
  - rewrite transform_text_remove_numbers. unfold _remove_numbers.
    rewrite Hk, sub_digits, sub_spaces. reflexivity.
  - apply strip_by_Forall, squeeze_spaces_Forall, filter_false_Forall.
  - apply strip_by_stripped.
Qed.

Lemma remove_numbers_all_digits_witness :
  exists out,
    @transform_text ascii_tables (lit "a1 b22  c") (lit "remove_numbers") ∅
    = Ok out
    /\ Forall (fun c => @is_decimal ascii_tables c = false) out.
Proof.
  destruct (@remove_numbers_all_digits ascii_tables (lit "a1 b22  c") ∅)
    as (out & H1 & _ & H2 & _).
  { vm_compute. reflexivity. }
  exists out. split; [exact H1|exact H2].
Defined.

(** ** Runs of spaces *)

Lemma squeeze_spaces_head s : head (squeeze_spaces s) = head s.
Proof.
  induction s as [|c s IH]; [reflexivity|].
  rewrite squeeze_spaces_cons.
  destruct (N.eqb c SP && opt_test (N.eqb SP) (head s)) eqn:E; [|reflexivity].
  rewrite IH. apply andb_true_iff in E as [Ec E].
  destruct s as [|d s]; [discriminate|].
  change (N.eqb SP d = true) in E. change (Some d = Some c).
  apply N.eqb_eq in Ec, E. congruence.
Qed.

Lemma double_space_cons c s :
  double_space (c :: s)
  = (N.eqb c SP && opt_test (N.eqb SP) (head s)) || double_space s.
Proof. reflexivity. Qed.

Lemma squeeze_spaces_single s : double_space (squeeze_spaces s) = false.
Proof.
  induction s as [|c s IH]; [reflexivity|].
  rewrite squeeze_spaces_cons.
  destruct (N.eqb c SP && opt_test (N.eqb SP) (head s)) eqn:E; [exact IH|].
  rewrite double_space_cons, squeeze_spaces_head, E, IH. reflexivity.
Qed.

Lemma double_space_suffix a s :
  double_space (a ++ s) = false -> double_space s = false.
Proof.
  induction a as [|c a IH]; [trivial|].
  simpl app. rewrite double_space_cons. intros H.
  apply orb_false_iff in H as [_ H]. apply IH, H.
Qed.

Lemma double_space_prefix s b :
  double_space (s ++ b) = false -> double_space s = false.
Proof.
  induction s as [|c s IH]; [reflexivity|].
  simpl app. rewrite !double_space_cons. intros H.
  apply orb_false_iff in H as [H1 H2]. rewrite (IH H2), orb_false_r.
  destruct s as [|d s]; [apply andb_false_r|exact H1].
Qed.

Lemma double_space_line l rest :
  double_space (l ++ NL :: rest) = double_space l || double_space rest.
Proof.
  induction l as [|c l IH]; [reflexivity|].
  simpl app. rewrite !double_space_cons, IH, orb_assoc. f_equal. f_equal.
  destruct l as [|d l]; reflexivity.
Qed.

Lemma double_space_join ls :
  double_space (join [NL] ls) = existsb double_space ls.
Proof.
  induction ls as [|l ls IH]; [reflexivity|].
  destruct ls as [|l2 ls].
  - simpl. rewrite orb_false_r. reflexivity.
  - rewrite join_cons. change ([NL] ++ join [NL] (l2 :: ls))
      with (NL :: join [NL] (l2 :: ls)).
    rewrite double_space_line, IH. reflexivity.
Qed.

Lemma existsb_false {A} (f : A -> bool) (l : list A) :
  existsb f l = false <-> Forall (fun x => f x = false) l.
Proof.
  induction l as [|x l IH]; simpl.
  - split; [constructor|reflexivity].
  - rewrite orb_false_iff, IH, Forall_cons. reflexivity.
Qed.

Lemma double_space_kept_lines (Q : str -> Prop) `{forall x, Decision (Q x)} s :
  double_space s = false ->
  double_space (join [NL] (filter Q (split_on NL s))) = false.
Proof.
  intros Hs. rewrite double_space_join. apply existsb_false.
  apply Forall_filter_keep. apply existsb_false.
  rewrite <- double_space_join, join_split_on. exact Hs.
Qed.

Lemma double_space_strip sp s :
  double_space s = false -> double_space (strip_by sp s) = false.
Proof.
  intros Hs. destruct (strip_by_infix sp s) as (a & b & E).
  rewrite E in Hs. apply double_space_suffix, double_space_prefix in Hs.
  exact Hs.
Qed.

Lemma double_space_occurs s pre post :
  double_space s = false -> s <> pre ++ SP :: SP :: post.
Proof.
  intros Hs E. rewrite E in Hs. apply double_space_suffix in Hs.
  discriminate Hs.
Qed.

(** X10.  The result of [clean] neither starts nor ends with whitespace,
    whatever the options; and unless [normalize_spaces] is switched off it
    holds no two spaces in a row. *)
Theorem clean_whitespace_stripped `{U : UnicodeDB} (text : str) (kw : kwargs) :
  exists out,
    transform_text text (lit "clean") kw = Ok out
    /\ stripped out
    /\ (truthy (kw_get kw "normalize_spaces" (VBool true)) = true ->
        double_space out = false
        /\ forall pre post, out <> pre ++ SP :: SP :: post).
Proof.
  change (transform_text text (lit "clean") kw)
    with (_clean_whitespace text kw).
  unfold _clean_whitespace.
  set (r1 := if truthy (kw_get kw "strip_lines" (VBool true))
             then join [NL] (map (rstrip_by is_space) (split_on NL text))
             else text).
  cbv zeta. fold r1.
  eexists. split; [reflexivity|]. split; [apply strip_by_stripped|].
  intros Hn. rewrite Hn, sub_spaces.
  assert (Hd : double_space
            (strip_by is_space
               (if truthy (kw_get kw "remove_empty_lines" (VBool false))
                then join [NL]
                       (filter (fun line => nonempty (strip_by is_space line))
                          (split_on NL (squeeze_spaces r1)))
                else squeeze_spaces r1)) = false).
  { apply double_space_strip.
    destruct (truthy (kw_get kw "remove_empty_lines" (VBool false))).
    - apply double_space_kept_lines, squeeze_spaces_single.
    - apply squeeze_spaces_single. }
  split; [exact Hd|]. intros pre post. apply double_space_occurs, Hd.
Qed.

(** ** The errors of [transform_text] *)

Lemma add_line_numbers_run `{U : UnicodeDB} text kw :
  transform_text text (lit "add_line_numbers") kw
  = match as_index (kw_get kw "start" (VInt 1)) with
    | None => Err TypeError
    | Some start =>
        let lines := split_on NL text in
        match as_index (kw_get kw "width"
                          (VInt (len (str_int (len lines + start - 1))))) with
        | None => Err TypeError
        | Some width =>
            Ok (join [NL]
                  (numbered_lines width
                     (kw_get kw "separator" (VStr (lit ": "))) start lines))
        end
    end.
Proof.
  rewrite transform_text_add_line_numbers.
  unfold _add_line_numbers, require_index.
  destruct (as_index (kw_get kw "start" (VInt 1))) as [start|]; [|reflexivity].
  cbv beta iota zeta delta [bind].
  destruct (as_index _) as [width|]; reflexivity.
Qed.

(** X11.  The errors of [transform_text].  An unknown operation name gives
    a [ValueError] whose message lists the operations.  The ten operations
    other than [sort_lines] and [add_line_numbers] return a text for every
    text and every set of options, and so does [sort_lines] when
    [reverse] is absent or a boolean.  [add_line_numbers] with a [start]
    that is neither an integer nor a boolean gives a [TypeError]. *)
Theorem transform_text_errors `{U : UnicodeDB}
    (text operation : str) (kw : kwargs) :
  (operation ∉ operation_names ->
   transform_text text operation kw
   = Err (ValueError (Some (unknown_operation_message operation))))
  /\ (operation ∈ operation_names ->
      operation <> lit "sort_lines" ->
      operation <> lit "add_line_numbers" ->
      exists out, transform_text text operation kw = Ok out)
  /\ (forall b, kw_get kw "reverse" (VBool false) = VBool b ->
      exists out, transform_text text (lit "sort_lines") kw = Ok out)
  /\ (as_index (kw_get kw "start" (VInt 1)) = None ->
      transform_text text (lit "add_line_numbers") kw = Err TypeError).
Proof.
  split; [|split; [|split]].
  - apply dispatch_unknown.
  - intros Hin Hs Ha. unfold operation_names in Hin.
    repeat (apply elem_of_cons in Hin as [->|Hin]);
      try congruence; try (exfalso; inversion Hin; fail);
      unfold transform_text; simpl lookup_operation;
      unfold _to_upper, _to_lower, _to_title, _to_sentence_case,
             _normalize_text, _clean_whitespace, _remove_punctuation,
             _remove_numbers, _reverse_text, _remove_empty_lines, bind;
      repeat match goal with
             | |- context [if ?b then _ else _] => destruct b
             | |- context [match ?t with [] => _ | _ :: _ => _ end] =>
                 destruct t
             end;
      eexists; reflexivity.
  - intros b Hb. rewrite sort_lines_run, Hb. simpl as_index. eauto.
  - intros Hs. rewrite add_line_numbers_run, Hs. reflexivity.
Qed.

Lemma transform_text_errors_witness :
  @transform_text ascii_tables (lit "a") (lit "add_line_numbers")
     {[ "start" := VStr (lit "1") ]}
  = Err TypeError
  /\ @transform_text ascii_tables (lit "a") (lit "shout") ∅
     = Err (ValueError (Some (unknown_operation_message (lit "shout")))).
Proof.
  destruct (@transform_text_errors ascii_tables (lit "a")
              (lit "add_line_numbers") {[ "start" := VStr (lit "1") ]})
    as (_ & _ & _ & H).
  destruct (@transform_text_errors ascii_tables (lit "a") (lit "shout") ∅)
    as (H' & _).
  split; [apply H; reflexivity|].
  apply H'. apply (bool_decide_unpack _). vm_compute. exact I.
Defined.

(** ** Configuration objects *)

Lemma dotted_key (section k : str) :
  ch "." ∉ section -> ch "." ∉ k ->
  split_on (ch ".") (section ++ [ch "."] ++ k) = [section; k].
Proof.
  intros Hs Hk. change (section ++ [ch "."] ++ k) with (section ++ ch "." :: k).
  rewrite (split_on_app_sep _ _ _ Hs), (split_on_no_sep _ _ Hk). reflexivity.
Qed.

Lemma dict_at_insert_eq (h : Config.heap) a d :
  (a < length h)%nat -> Config.dict_at (<[a := d]> h) a = d.
Proof.
  intros Ha. unfold Config.dict_at.
  rewrite list_lookup_insert_eq by exact Ha. reflexivity.
Qed.

Lemma dict_at_insert_ne (h : Config.heap) a b d :
  a <> b -> Config.dict_at (<[a := d]> h) b = Config.dict_at h b.
Proof.
  intros Hab. unfold Config.dict_at.
  rewrite list_lookup_insert_ne by exact Hab. reflexivity.
Qed.

Lemma dict_at_app_l (h h' : Config.heap) a :
  (a < length h)%nat -> Config.dict_at (h ++ h') a = Config.dict_at h a.
Proof.
  intros Ha. unfold Config.dict_at. rewrite lookup_app_l by exact Ha.
  reflexivity.
Qed.

Lemma dict_at_new (h : Config.heap) d :
  Config.dict_at (h ++ [d]) (length h) = d.
Proof.
  unfold Config.dict_at. rewrite lookup_app_r by lia.
  rewrite Nat.sub_diag. reflexivity.
Qed.

(** X18.  A setting without a dot is local to its [Config]: after [set],
    [get] returns the value for that key, and every other dictionary,
    [DEFAULT_CONFIG] and the inner ones included, is as before. *)
Theorem config_set_top_level (h : Config.heap) (self : nat) (key : str)
    (v d : Config.object) :
  ch "." ∉ key ->
  (self < length h)%nat ->
  exists h',
    Config.set self key v h = (Ok tt, h')
    /\ Config.get self key d h' = v
    /\ length h' = length h
    /\ forall a, a <> self -> Config.dict_at h' a = Config.dict_at h a.
Proof.
  intros Hk Hs. unfold Config.set, Config.get.
  rewrite (split_on_no_sep _ _ Hk). simpl Config.store_path.
  eexists. split; [reflexivity|]. split; [|split].
  - simpl. rewrite dict_at_insert_eq by exact Hs.
    rewrite lookup_insert_eq. reflexivity.
  - apply length_insert.
  - intros a Ha. apply dict_at_insert_ne. congruence.
Qed.

Lemma config_set_top_level_witness :
  match Config.__init__ None Config.class_heap with
  | (Ok c, h) =>
      exists h',
        Config.set c (lit "default_output_format")
          (Config.Scalar (VStr (lit "json"))) h
        = (Ok tt, h')
        /\ Config.get c (lit "default_output_format") (Config.Scalar VNone) h'
           = Config.Scalar (VStr (lit "json"))
        /\ Config.dict_at h' Config.DEFAULT_CONFIG
           = Config.dict_at Config.class_heap Config.DEFAULT_CONFIG
  | (Err _, _) => False
  end.
Proof.
  simpl.
  destruct (config_set_top_level
              (Config.class_heap
                 ++ [Config.dict_at Config.class_heap Config.DEFAULT_CONFIG])
              3 (lit "default_output_format")
              (Config.Scalar (VStr (lit "json"))) (Config.Scalar VNone))
    as (h' & H1 & H2 & _ & H3).
  { apply (bool_decide_unpack _). vm_compute. exact I. }
  { simpl. lia. }
  exists h'. split; [exact H1|]. split; [exact H2|].
  rewrite H3 by (unfold Config.DEFAULT_CONFIG; lia). reflexivity.
Defined.

(** Without a configuration file, [Config()] is the copy alone. *)
Lemma init_without_file (h : Config.heap) :
  Config.__init__ None h
  = (Ok (length h), h ++ [Config.dict_at h Config.DEFAULT_CONFIG]).
Proof. reflexivity. Qed.

(** X19.  When no configuration file is read, a setting under a section
    that [DEFAULT_CONFIG] has is shared by every [Config]: the copy made
    by [__init__] is shallow, so [set] on one object writes into the
    dictionary of the class, and an object created afterwards, again
    without a configuration file, reads the new value, like the first
    one. *)
Theorem config_nested_set_is_shared (h : Config.heap) (section k : str)
    (a : nat) (v d : Config.object) :
  ch "." ∉ section -> ch "." ∉ k ->
  (Config.DEFAULT_CONFIG < length h)%nat ->
  Config.dict_at h Config.DEFAULT_CONFIG !! section = Some (Config.Dict a) ->
  (a < length h)%nat ->
  a <> Config.DEFAULT_CONFIG ->
  let key := section ++ [ch "."] ++ k in
  exists c1 h1 h2 c2 h3,
    Config.__init__ None h = (Ok c1, h1)
    /\ Config.set c1 key v h1 = (Ok tt, h2)
    /\ Config.__init__ None h2 = (Ok c2, h3)
    /\ c2 <> c1
    /\ Config.get c1 key d h3 = v
    /\ Config.get c2 key d h3 = v
    /\ Config.dict_at h3 a = <[k := v]> (Config.dict_at h a)
    /\ Config.lookup_path h3 (Config.Dict Config.DEFAULT_CONFIG) [section; k]
       = Some v.
Proof.
  intros Hs Hk Hd Hsec Ha Hne key.
  set (top := Config.dict_at h Config.DEFAULT_CONFIG) in *.
  set (h1 := h ++ [top]).
  assert (Hl1 : length h1 = S (length h)).
  { unfold h1. rewrite length_app. simpl. lia. }
  assert (Hc1 : Config.dict_at h1 (length h) = top) by apply dict_at_new.
  assert (Ha1 : Config.dict_at h1 a = Config.dict_at h a)
    by (apply dict_at_app_l; exact Ha).
  set (h2 := <[a := <[k := v]> (Config.dict_at h1 a)]> h1).
  assert (Hl2 : length h2 = S (length h)).
  { unfold h2. rewrite length_insert. exact Hl1. }
  assert (Ha2 : Config.dict_at h2 a = <[k := v]> (Config.dict_at h a)).
  { unfold h2. rewrite dict_at_insert_eq by lia. rewrite Ha1. reflexivity. }
  assert (Hc2 : Config.dict_at h2 (length h) = top).
  { unfold h2. rewrite dict_at_insert_ne by lia. exact Hc1. }
  assert (Hd2 : Config.dict_at h2 Config.DEFAULT_CONFIG = top).
  { unfold h2. rewrite dict_at_insert_ne by exact Hne.
    unfold h1. apply dict_at_app_l. exact Hd. }
  set (h3 := h2 ++ [Config.dict_at h2 Config.DEFAULT_CONFIG]).
  assert (Hold : forall b, (b < length h2)%nat ->
                   Config.dict_at h3 b = Config.dict_at h2 b).
  { intros b Hb. unfold h3. apply dict_at_app_l. exact Hb. }
  assert (Hc3 : Config.dict_at h3 (length h2) = top).
  { unfold h3. rewrite dict_at_new. exact Hd2. }
  assert (Ha3 : Config.dict_at h3 a = <[k := v]> (Config.dict_at h a)).
  { rewrite Hold by lia. exact Ha2. }
  assert (Hwalk : forall c, Config.dict_at h3 c = top ->
            Config.lookup_path h3 (Config.Dict c) [section; k] = Some v).
  { intros c Hc. simpl. rewrite Hc, Hsec, Ha3, lookup_insert_eq.
    reflexivity. }
  exists (length h), h1, h2, (length h2), h3.
  split; [apply init_without_file|]. split.
  { unfold Config.set, key. rewrite (dotted_key _ _ Hs Hk).
    simpl Config.store_path. rewrite Hc1, Hsec. reflexivity. }
  split; [apply init_without_file|]. split; [lia|].
  unfold Config.get, key. rewrite (dotted_key _ _ Hs Hk).
  split; [|split; [|split]].
  - rewrite Hwalk; [reflexivity|]. rewrite Hold by lia. exact Hc2.
  - rewrite Hwalk; [reflexivity|exact Hc3].
  - exact Ha3.
  - apply Hwalk. rewrite Hold by (rewrite Hl2; lia). exact Hd2.
Qed.

Lemma config_nested_set_is_shared_witness :
  exists c1 h1 h2 c2 h3,
    Config.__init__ None Config.class_heap = (Ok c1, h1)
    /\ Config.set c1 (lit "transform.backup_suffix")
         (Config.Scalar (VStr (lit ".orig"))) h1
       = (Ok tt, h2)
    /\ Config.__init__ None h2 = (Ok c2, h3)
    /\ c2 <> c1
    /\ Config.backup_suffix c2 h3 = Config.Scalar (VStr (lit ".orig")).
Proof.
  destruct (config_nested_set_is_shared Config.class_heap
              (lit "transform") (lit "backup_suffix") 1
              (Config.Scalar (VStr (lit ".orig")))
              (Config.Scalar (VStr (lit ".bak"))))
    as (c1 & h1 & h2 & c2 & h3 & H1 & H2 & H3 & H4 & _ & H5 & _).
  - apply (bool_decide_unpack _). vm_compute. exact I.
  - apply (bool_decide_unpack _). vm_compute. exact I.
  - simpl. unfold Config.DEFAULT_CONFIG. lia.
  - vm_compute. reflexivity.
  - simpl. lia.
  - discriminate.
  - exists c1, h1, h2, c2, h3.
    split; [exact H1|]. split; [exact H2|]. split; [exact H3|].
    split; [exact H4|exact H5].
Defined.

(** X20.  When no configuration file is read, a setting under a section
    that [DEFAULT_CONFIG] does not have stays with its [Config]: [set]
    creates the section in the object's own dictionary, [get] then finds
    the value there, and an object created afterwards, again without a
    configuration file, still gets the default. *)
Theorem config_new_section_is_local (h : Config.heap) (section k : str)
    (v d : Config.object) :
  ch "." ∉ section -> ch "." ∉ k ->
  (Config.DEFAULT_CONFIG < length h)%nat ->
  Config.dict_at h Config.DEFAULT_CONFIG !! section = None ->
  let key := section ++ [ch "."] ++ k in
  exists c1 h1 h2 c2 h3,
    Config.__init__ None h = (Ok c1, h1)
    /\ Config.set c1 key v h1 = (Ok tt, h2)
    /\ Config.__init__ None h2 = (Ok c2, h3)
    /\ Config.get c1 key d h3 = v
    /\ Config.get c2 key d h3 = d
    /\ forall a, (a < length h)%nat ->
         Config.dict_at h3 a = Config.dict_at h a.
Proof.
  intros Hs Hk Hd Hsec key.
  set (top := Config.dict_at h Config.DEFAULT_CONFIG) in *.
  set (h1 := h ++ [top]).
  assert (Hl1 : length h1 = S (length h)).
  { unfold h1. rewrite length_app. simpl. lia. }
  assert (Hc1 : Config.dict_at h1 (length h) = top) by apply dict_at_new.
  set (n := length h1).
  set (hb := <[length h := <[section := Config.Dict n]>
                              (Config.dict_at (h1 ++ [∅]) (length h))]>
               (h1 ++ [∅])).
  set (h2 := <[n := <[k := v]> (Config.dict_at hb n)]> hb).
  assert (Hlb : length hb = S (S (length h))).
  { unfold hb. rewrite length_insert, length_app, Hl1. simpl. lia. }
  assert (Hl2 : length h2 = S (S (length h))).
  { unfold h2. rewrite length_insert. exact Hlb. }
  assert (Hn : n = S (length h)) by exact Hl1.
  assert (Hc2 : Config.dict_at h2 (length h)
                = <[section := Config.Dict n]> top).
  { unfold h2. rewrite dict_at_insert_ne by lia.
    unfold hb. rewrite dict_at_insert_eq
      by (rewrite length_app, Hl1; simpl; lia).
    rewrite dict_at_app_l by lia. rewrite Hc1. reflexivity. }
  assert (Hn2 : Config.dict_at h2 n !! k = Some v).
  { unfold h2. rewrite dict_at_insert_eq by lia. apply lookup_insert_eq. }
  assert (Hold2 : forall a, (a < length h)%nat ->
                    Config.dict_at h2 a = Config.dict_at h a).
  { intros a Ha. unfold h2. rewrite dict_at_insert_ne by lia.
    unfold hb. rewrite dict_at_insert_ne by lia.
    rewrite dict_at_app_l by lia. unfold h1. apply dict_at_app_l, Ha. }
  set (h3 := h2 ++ [Config.dict_at h2 Config.DEFAULT_CONFIG]).
  assert (Hold : forall b, (b < length h2)%nat ->
                   Config.dict_at h3 b = Config.dict_at h2 b).
  { intros b Hb. unfold h3. apply dict_at_app_l. exact Hb. }
  exists (length h), h1, h2, (length h2), h3.
  split; [apply init_without_file|]. split.
  { unfold Config.set, key. rewrite (dotted_key _ _ Hs Hk).
    simpl Config.store_path. rewrite Hc1, Hsec. reflexivity. }
  split; [apply init_without_file|].
  unfold Config.get, key. rewrite (dotted_key _ _ Hs Hk).
  split; [|split].
  - simpl. rewrite Hold by lia. rewrite Hc2, lookup_insert_eq.
    rewrite Hold by lia. rewrite Hn2. reflexivity.
  - simpl. unfold h3 at 1. rewrite dict_at_new.
    rewrite (Hold2 _ Hd). fold top. rewrite Hsec. reflexivity.
  - intros a Ha. rewrite Hold by lia. apply Hold2, Ha.
Qed.

Lemma config_new_section_is_local_witness :
  exists c1 h1 h2 c2 h3,
    Config.__init__ None Config.class_heap = (Ok c1, h1)
    /\ Config.set c1 (lit "output.color") (Config.Scalar (VBool true)) h1
       = (Ok tt, h2)
    /\ Config.__init__ None h2 = (Ok c2, h3)
    /\ Config.get c1 (lit "output.color") (Config.Scalar VNone) h3
       = Config.Scalar (VBool true)
    /\ Config.get c2 (lit "output.color") (Config.Scalar VNone) h3
       = Config.Scalar VNone.
Proof.
  destruct (config_new_section_is_local Config.class_heap
              (lit "output") (lit "color")
              (Config.Scalar (VBool true)) (Config.Scalar VNone))
    as (c1 & h1 & h2 & c2 & h3 & H1 & H2 & H3 & H4 & H5 & _).
  - apply (bool_decide_unpack _). vm_compute. exact I.
  - apply (bool_decide_unpack _). vm_compute. exact I.
  - simpl. unfold Config.DEFAULT_CONFIG. lia.
  - vm_compute. reflexivity.
  - exists c1, h1, h2, c2, h3.
    split; [exact H1|]. split; [exact H2|]. split; [exact H3|].
    split; [exact H4|exact H5].
Defined.

(** X29.  A configuration file that sets a key of a section that
    [DEFAULT_CONFIG] has changes the defaults of the class: the section
    merged into is the dictionary of the class, so an object created
    afterwards without any configuration file reads the value of the
    file.  A file whose document is a plain scalar other than an empty or
    zero one makes [Config()] fail with an [AttributeError]. *)
Theorem config_file_changes_defaults (h : Config.heap) (section k : str)
    (a : nat) (w : value) :
  (Config.DEFAULT_CONFIG < length h)%nat ->
  Config.dict_at h Config.DEFAULT_CONFIG !! section = Some (Config.Dict a) ->
  (a < length h)%nat ->
  a <> Config.DEFAULT_CONFIG ->
  let doc := Config.YMap [(section, Config.YMap [(k, Config.YScalar w)])] in
  exists c1 h1 c2 h2,
    Config.__init__ (Some doc) h = (Ok c1, h1)
    /\ Config.dict_at h1 a = <[k := Config.Scalar w]> (Config.dict_at h a)
    /\ Config.__init__ None h1 = (Ok c2, h2)
    /\ Config.lookup_path h2 (Config.Dict c2) [section; k]
       = Some (Config.Scalar w)
    /\ forall v, truthy v = true ->
         Config.__init__ (Some (Config.YScalar v)) h
         = (Err AttributeError,
            h ++ [Config.dict_at h Config.DEFAULT_CONFIG]).
Proof.
  intros Hd Hsec Ha Hne doc.
  set (top := Config.dict_at h Config.DEFAULT_CONFIG) in *.
  set (h0 := h ++ [top]).
  assert (Hl0 : length h0 = S (length h)).
  { unfold h0. rewrite length_app. simpl. lia. }
  assert (Hc0 : Config.dict_at h0 (length h) = top) by apply dict_at_new.
  assert (Ha0 : Config.dict_at h0 a = Config.dict_at h a)
    by (apply dict_at_app_l; exact Ha).
  set (h1 := <[a := <[k := Config.Scalar w]> (Config.dict_at h0 a)]> h0).
  assert (Hl1 : length h1 = S (length h)).
  { unfold h1. rewrite length_insert. exact Hl0. }
  assert (Ha1 : Config.dict_at h1 a
                = <[k := Config.Scalar w]> (Config.dict_at h a)).
  { unfold h1. rewrite dict_at_insert_eq by lia. rewrite Ha0. reflexivity. }
  assert (Hd1 : Config.dict_at h1 Config.DEFAULT_CONFIG = top).
  { unfold h1. rewrite dict_at_insert_ne by exact Hne.
    unfold h0. apply dict_at_app_l. exact Hd. }
  set (h2 := h1 ++ [Config.dict_at h1 Config.DEFAULT_CONFIG]).
  exists (length h), h1, (length h1), h2.
  split; [|split; [exact Ha1|split; [apply init_without_file|split]]].
  - unfold Config.__init__, Config._load_config, doc.
    cbn [Config.yaml_truthy Config._merge_config]. fold top. fold h0.
    rewrite Hc0, Hsec.
    cbn [Config._merge_config Config.alloc].
    destruct (Config.dict_at h0 a !! k) as [[?|?]|]; reflexivity.
  - simpl. unfold h2 at 1. rewrite dict_at_new, Hd1, Hsec.
    unfold h2. rewrite dict_at_app_l by lia.
    rewrite Ha1, lookup_insert_eq. reflexivity.
  - intros v Hv. unfold Config.__init__, Config._load_config.
    cbn [Config.yaml_truthy]. rewrite Hv. reflexivity.
Qed.

Lemma config_file_changes_defaults_witness :
  exists c1 h1 c2 h2,
    Config.__init__
      (Some (Config.YMap
               [(lit "transform",
                 Config.YMap [(lit "backup_suffix",
                               Config.YScalar (VStr (lit "~")))])]))
      Config.class_heap
    = (Ok c1, h1)
    /\ Config.__init__ None h1 = (Ok c2, h2)
    /\ Config.backup_suffix c2 h2 = Config.Scalar (VStr (lit "~")).
Proof.
  destruct (config_file_changes_defaults Config.class_heap
              (lit "transform") (lit "backup_suffix") 1 (VStr (lit "~")))
    as (c1 & h1 & c2 & h2 & H1 & _ & H2 & H3 & _).
  - simpl. unfold Config.DEFAULT_CONFIG. lia.
  - vm_compute. reflexivity.
  - simpl. lia.
  - discriminate.
  - exists c1, h1, c2, h2. split; [exact H1|]. split; [exact H2|].
    unfold Config.backup_suffix, Config.get.
    replace (split_on (ch ".") (lit "transform.backup_suffix"))
      with [lit "transform"; lit "backup_suffix"]
      by (vm_compute; reflexivity).
    rewrite H3. reflexivity.
Defined.

(** ** Statistics of a text *)

Lemma split_on_length sep s :
  length (split_on sep s)
  = S (length (List.filter (fun c => N.eqb c sep) s)).
Proof.
  induction s as [|c s IH]; [reflexivity|].
  simpl. destruct (N.eqb c sep); simpl.
  - rewrite IH. reflexivity.
  - destruct (split_on sep s); [discriminate IH|exact IH].
Qed.

Lemma words_by_concat sp cur s :
  concat (words_by sp cur s)
  = rev cur ++ List.filter (fun c => negb (sp c)) s.
Proof.
  revert cur. induction s as [|c s IH]; intros cur.
  - simpl. destruct cur as [|d cur]; [reflexivity|].
    simpl concat. rewrite !app_nil_r. reflexivity.
  - simpl words_by. simpl List.filter. destruct (sp c); simpl negb.
    + destruct cur as [|d cur]; [apply (IH [])|].
      rewrite concat_cons, (IH []). reflexivity.
    + rewrite IH. simpl rev. rewrite <- app_assoc. reflexivity.
Qed.

Lemma concat_length_nonempty {A} (ls : list (list A)) :
  Forall (fun l => l <> []) ls -> (length ls <= length (concat ls))%nat.
Proof.
  induction 1 as [|l ls Hl Hls IH]; [reflexivity|].
  rewrite concat_cons, length_app. destruct l; [contradiction|].
  simpl. lia.
Qed.

Lemma filter_length_weaken {A} (f g : A -> bool) (l : list A) :
  (forall x, f x = true -> g x = true) ->
  (length (List.filter f l) <= length (List.filter g l))%nat.
Proof.
  intros Hfg. induction l as [|x l IH]; [reflexivity|].
  simpl. destruct (f x) eqn:Ef.
  - rewrite (Hfg x Ef). simpl. lia.
  - destruct (g x); simpl; lia.
Qed.

(** X21.  The counts of [_get_basic_stats]: there is one line more than
    there are line feeds, so at least one, and an empty text has one line,
    which is blank; the blank lines are among the lines; and the count
    without spaces leaves out the space characters only, not tabs or line
    feeds. *)
Theorem basic_stats_counts `{U : UnicodeDB} (text : str) :
  let stats := _get_basic_stats text in
  line_count stats = (1 + count_if (fun c => N.eqb c NL) text)%Z
  /\ (0 <= blank_lines stats <= line_count stats)%Z
  /\ character_count_no_spaces stats
     = (character_count stats - count_if (fun c => N.eqb c SP) text)%Z
  /\ _get_basic_stats []
     = {| character_count := 0; character_count_no_spaces := 0;
          word_count := 0; line_count := 1; paragraph_count := 0;
          blank_lines := 1 |}.
Proof.
  intros stats. unfold stats, _get_basic_stats, count_if, len. simpl.
  split; [|split; [|split]].
  - rewrite split_on_length. unfold char. lia.
  - pose proof (length_filter
                  (fun line => negb (nonempty (strip_by is_space line)))
                  (split_on NL text)). lia.
  - unfold remove_char.
    pose proof (filter_length (fun c => N.eqb c SP) text).
    unfold char, str in *. lia.
  - reflexivity.
Qed.

(** X22.  The words [_get_basic_stats] counts, put together, are the text
    without its whitespace; so, the space being whitespace, there are never
    more words than characters other than spaces. *)
Theorem basic_stats_words `{U : UnicodeDB} (text : str) :
  is_space SP = true ->
  let stats := _get_basic_stats text in
  concat (words_by is_space [] text)
  = List.filter (fun c => negb (is_space c)) text
  /\ (0 <= word_count stats <= character_count_no_spaces stats)%Z
  /\ (character_count_no_spaces stats <= character_count stats)%Z.
Proof.
  intros Hsp stats.
  assert (Hc : concat (words_by is_space [] text)
               = List.filter (fun c => negb (is_space c)) text)
    by apply (words_by_concat is_space [] text).
  split; [exact Hc|].
  unfold stats, _get_basic_stats, len, remove_char. simpl.
  assert (Hw : (length (words_by is_space [] text)
                <= length (concat (words_by is_space [] text)))%nat).
  { apply concat_length_nonempty.
    eapply Forall_impl; [apply (words_by_words [] text); constructor|].
    intros w [Hne _]. exact Hne. }
  rewrite Hc in Hw.
  assert (Hn : (length (List.filter (fun c => negb (is_space c)) text)
                <= length (List.filter (fun x => negb (N.eqb x SP)) text))%nat).
  { apply filter_length_weaken. intros c Hcs.
    destruct (N.eqb c SP) eqn:E; [|reflexivity].
    apply N.eqb_eq in E. subst c. rewrite Hsp in Hcs. discriminate. }
  pose proof (List.filter_length_le (fun x => negb (N.eqb x SP)) text).
  unfold char, str in *. lia.
Qed.

Lemma basic_stats_words_witness :
  (0 <= word_count (@_get_basic_stats ascii_tables (lit "a  b c"))
     <= character_count_no_spaces (@_get_basic_stats ascii_tables (lit "a  b c")))%Z.
Proof.
  destruct (@basic_stats_words ascii_tables (lit "a  b c")) as (_ & H & _).
  { reflexivity. }
  exact H.
Defined.

(** X23.  In [_analyze_characters] no character counts both as a space and
    as a special character, so the two counts together do not exceed the
    length of the text; and every count is between zero and that length. *)
Theorem character_counts_bounds `{U : UnicodeDB}
    (is_upper is_lower is_digit : char -> bool) (text : str) :
  let counts := _analyze_characters is_upper is_lower is_digit text in
  (spaces counts + special_characters counts <= len text)%Z
  /\ (0 <= uppercase_letters counts <= len text)%Z
  /\ (0 <= lowercase_letters counts <= len text)%Z
  /\ (0 <= digits counts <= len text)%Z
  /\ (0 <= punctuation counts <= len text)%Z
  /\ (0 <= spaces counts)%Z /\ (0 <= special_characters counts)%Z.
Proof.
  intros counts. unfold counts, _analyze_characters, count_if, len.
  cbn [uppercase_letters lowercase_letters digits spaces punctuation
       special_characters].
  assert (Hb : forall p : char -> bool,
            (0 <= Z.of_nat (length (List.filter p text))
               <= Z.of_nat (length text))%Z).
  { intros p. pose proof (List.filter_length_le p text). lia. }
  split; [|repeat split; first [apply Hb|apply (proj1 (Hb _))]].
  pose proof (filter_length is_space text) as Hs.
  assert (Hw : (length (List.filter
                          (fun c => negb (is_alnum c) && negb (is_space c))
                          text)
                <= length (List.filter (fun c => negb (is_space c)) text))%nat).
  { apply filter_length_weaken. intros c Hc.
    apply andb_true_iff in Hc as [_ Hc]. exact Hc. }
  unfold char, str in *. lia.
Qed.

(** ** Paragraphs and lines *)

Lemma split_on_app sep a b :
  split_on sep (a ++ sep :: b) = split_on sep a ++ split_on sep b.
Proof.
  induction a as [|c a IH].
  - simpl. rewrite N.eqb_refl. reflexivity.
  - simpl. destruct (N.eqb c sep).
    + rewrite IH. reflexivity.
    + rewrite IH. pose proof (split_on_nonempty sep a) as Hne.
      destruct (split_on sep a); [contradiction|reflexivity].
Qed.

Lemma split_on2_cons a b c s :
  split_on2 a b (c :: s)
  = match s with
    | d :: s' =>
        if N.eqb c a && N.eqb d b then [] :: split_on2 a b s'
        else match split_on2 a b s with
             | [] => [[c]]
             | p :: ps => (c :: p) :: ps
             end
    | [] => [[c]]
    end.
Proof. destruct s; reflexivity. Qed.

Lemma split_on2_nonempty a b s : split_on2 a b s <> [].
Proof.
  destruct s as [|c s]; [discriminate|]. rewrite split_on2_cons.
  destruct s as [|d s]; [discriminate|].
  destruct (N.eqb c a && N.eqb d b); [discriminate|].
  destruct (split_on2 a b (d :: s)); discriminate.
Qed.

Lemma join_cons_head sep (c : char) p ps :
  join sep ((c :: p) :: ps) = c :: join sep (p :: ps).
Proof. destruct ps; reflexivity. Qed.

(** The pieces of [text.split(sep)], joined by [sep], are the text. *)
Lemma join_split_on2 a b s : join [a; b] (split_on2 a b s) = s.
Proof.
  remember (length s) as n eqn:Hn. revert s Hn.
  induction n as [n IH] using lt_wf_ind. intros s Hn.
  destruct s as [|c s]; [reflexivity|]. rewrite split_on2_cons.
  destruct s as [|d s]; [reflexivity|].
  destruct (N.eqb c a && N.eqb d b) eqn:E.
  - apply andb_true_iff in E as [Ec Ed]. apply N.eqb_eq in Ec, Ed. subst c d.
    pose proof (split_on2_nonempty a b s) as Hne.
    pose proof (IH (length s) ltac:(subst n; simpl; lia) s eq_refl) as Hs.
    destruct (split_on2 a b s) as [|q qs]; [contradiction|].
    rewrite join_cons, Hs. reflexivity.
  - pose proof (split_on2_nonempty a b (d :: s)) as Hne.
    pose proof (IH (length (d :: s)) ltac:(subst n; simpl; lia) (d :: s) eq_refl)
      as Hs.
    destruct (split_on2 a b (d :: s)) as [|q qs]; [contradiction|].
    rewrite join_cons_head. f_equal. exact Hs.
Qed.

Lemma lstrip_by_all sp s :
  lstrip_by sp s = [] \/ exists c, c ∈ s /\ sp c = false.
Proof.
  induction s as [|c s IH]; [left; reflexivity|].
  simpl. destruct (sp c) eqn:E.
  - destruct IH as [IH|(d & Hd & Hsp)]; [left; exact IH|].
    right. exists d. split; [right; exact Hd|exact Hsp].
  - right. exists c. split; [left|exact E].
Qed.

Lemma lstrip_by_nonempty sp s c :
  c ∈ s -> sp c = false -> lstrip_by sp s <> [].
Proof.
  intros Hc Hsp. induction s as [|d s IH]; [inversion Hc|].
  simpl. destruct (sp d) eqn:E; [|discriminate].
  apply IH. apply elem_of_cons in Hc as [->|Hc]; [congruence|exact Hc].
Qed.

Lemma strip_by_char sp s :
  strip_by sp s <> [] <-> exists c, c ∈ s /\ sp c = false.
Proof.
  split.
  - intros Hne. destruct (lstrip_by_all sp s) as [E|H]; [|exact H].
    contradiction Hne. unfold strip_by. rewrite E. reflexivity.
  - intros (c & Hc & Hsp). unfold strip_by, rstrip_by.
    pose proof (lstrip_by_nonempty sp s c Hc Hsp) as Hne.
    pose proof (lstrip_by_head sp s) as Hh.
    destruct (lstrip_by sp s) as [|d t]; [contradiction|].
    simpl in Hh. intros E. apply (f_equal (@rev char)) in E.
    rewrite rev_involutive in E. revert E.
    apply (lstrip_by_nonempty sp _ d); [|exact Hh].
    apply list_elem_of_In, in_rev. rewrite rev_involutive. left. reflexivity.
Qed.

Lemma split_on_char sep s c :
  c ∈ s -> c <> sep -> exists l, l ∈ split_on sep s /\ c ∈ l.
Proof.
  intros Hc Hne. induction s as [|d s IH]; [inversion Hc|].
  simpl. apply elem_of_cons in Hc as [->|Hc].
  - destruct (N.eqb d sep) eqn:E; [apply N.eqb_eq in E; contradiction|].
    destruct (split_on sep s) as [|l ls].
    + exists [d]. split; left.
    + exists (d :: l). split; left.
  - destruct (IH Hc) as (l & Hl & Hcl).
    destruct (N.eqb d sep).
    + exists l. split; [right; exact Hl|exact Hcl].
    + destruct (split_on sep s) as [|l0 ls]; [inversion Hl|].
      apply elem_of_cons in Hl as [->|Hl].
      * exists (d :: l0). split; [left|right; exact Hcl].
      * exists l. split; [right; exact Hl|exact Hcl].
Qed.

Lemma nonempty_spec s : nonempty s = true <-> s <> [].
Proof. destruct s; simpl; split; congruence. Qed.

(** A text that is not blank has a line that is not blank. *)
Lemma nonblank_line `{U : UnicodeDB} p :
  is_space NL = true ->
  nonblank p = true ->
  exists l, l ∈ split_on NL p /\ nonblank l = true.
Proof.
  unfold nonblank. intros Hnl Hp.
  apply nonempty_spec, strip_by_char in Hp as (c & Hc & Hsp).
  assert (Hne : c <> NL) by (intros ->; congruence).
  destruct (split_on_char NL p c Hc Hne) as (l & Hl & Hcl).
  exists l. split; [exact Hl|].
  apply nonempty_spec, strip_by_char. exists c. auto.
Qed.

Lemma filter_partition_length {A} (f : A -> bool) (l : list A) :
  (length (filter (fun x => f x) l)
   + length (filter (fun x => negb (f x)) l) = length l)%nat.
Proof.
  induction l as [|x l IH]; [reflexivity|].
  rewrite !filter_cons. destruct (f x); simpl; lia.
Qed.

Lemma nonblank_lines_of_piece `{U : UnicodeDB} p :
  is_space NL = true ->
  (length (filter (fun l => nonblank l) [p])
   <= length (filter (fun l => nonblank l) (split_on NL p)))%nat.
Proof.
  intros Hnl. rewrite filter_cons. destruct (nonblank p) eqn:Hp; simpl.
  - destruct (nonblank_line p Hnl Hp) as (l & Hl & Hb).
    assert (Hin : l ∈ filter (fun l => nonblank l) (split_on NL p)).
    { apply list_elem_of_filter. split; [rewrite Hb; exact I|exact Hl]. }
    destruct (filter (fun l => nonblank l) (split_on NL p));
      [inversion Hin|simpl; lia].
  - lia.
Qed.

Lemma nonblank_pieces_lines `{U : UnicodeDB} ps :
  is_space NL = true ->
  (length (filter (fun l => nonblank l) ps)
   <= length (filter (fun l => nonblank l)
                (split_on NL (join [NL; NL] ps))))%nat.
Proof.
  intros Hnl. induction ps as [|p ps IH]; [simpl; lia|].
  destruct ps as [|q ps]; [apply nonblank_lines_of_piece, Hnl|].
  rewrite join_cons.
  change ([NL; NL] ++ join [NL; NL] (q :: ps))
    with (NL :: ([] ++ NL :: join [NL; NL] (q :: ps))).
  rewrite !split_on_app, !filter_app, !length_app.
  pose proof (nonblank_lines_of_piece p Hnl) as Hp.
  change (p :: q :: ps) with ([p] ++ q :: ps).
  rewrite filter_app, length_app. lia.
Qed.

(** X24.  Line feeds being whitespace, every paragraph
    [_get_basic_stats] counts holds a line that is not blank, and no line
    belongs to two paragraphs: the paragraphs and the blank lines together
    are never more than the lines. *)
Theorem basic_stats_paragraphs `{U : UnicodeDB} (text : str) :
  is_space NL = true ->
  let stats := _get_basic_stats text in
  (0 <= paragraph_count stats)%Z
  /\ (paragraph_count stats + blank_lines stats <= line_count stats)%Z.
Proof.
  intros Hnl stats. unfold stats, _get_basic_stats, len.
  cbn [paragraph_count blank_lines line_count].
  rewrite length_map.
  pose proof (nonblank_pieces_lines (split_on2 NL NL text) Hnl) as Hp.
  rewrite join_split_on2 in Hp.
  pose proof (filter_partition_length (fun l => nonblank l) (split_on NL text))
    as Hl.
  unfold nonblank in *. unfold char, str in *. lia.
Qed.

Lemma basic_stats_paragraphs_witness :
  let stats :=
    @_get_basic_stats ascii_tables
       (lit "one two" ++ [NL; NL] ++ lit "three" ++ [NL]) in
  (paragraph_count stats + blank_lines stats <= line_count stats)%Z.
Proof.
  apply (@basic_stats_paragraphs ascii_tables
           (lit "one two" ++ [NL; NL] ++ lit "three" ++ [NL])).
  reflexivity.
Defined.

(** ** Normalization *)

(** A substitution whose every replacement has the characters [keep]
    selects in common with the text it replaces leaves the selected
    characters of the whole text as they are. *)
Lemma sub_scan_keeps `{U : UnicodeDB} (keep : char -> bool) pat repl :
  (forall prev s k gs,
     re_match pat prev s 0 [] = Some (S k, gs) ->
     List.filter keep (expand repl gs) = List.filter keep (take (S k) s)) ->
  forall s prev skip,
    List.filter keep (sub_scan pat repl prev s skip)
    = List.filter keep (drop skip s).
Proof.
  intros Hm. induction s as [|c s IH]; intros prev skip.
  - destruct skip as [|k]; [|reflexivity].
    rewrite sub_scan_zero.
    destruct (re_match pat prev [] 0 []) as [[[|k] gs]|] eqn:E;
      try reflexivity.
    rewrite app_nil_r, (Hm _ _ _ _ E). reflexivity.
  - destruct skip as [|k]; [|apply IH].
    rewrite sub_scan_zero.
    destruct (re_match pat prev (c :: s) 0 []) as [[[|k] gs]|] eqn:E.
    + simpl. rewrite IH. reflexivity.
    + rewrite List.filter_app, IH, (Hm _ _ _ _ E), <- List.filter_app.
      change (take (S k) (c :: s) ++ drop k s)
        with (take (S k) (c :: s) ++ drop (S k) (c :: s)).
      rewrite take_drop. reflexivity.
    + simpl. rewrite IH. reflexivity.
Qed.

Lemma run_spaces_take `{U : UnicodeDB} s :
  remove_char SP (take (run (One (CChar SP)) s) s) = [].
Proof.
  induction s as [|c s IH]; [reflexivity|].
  rewrite run_spaces_cons. destruct (N.eqb c SP) eqn:E; [|reflexivity].
  simpl. unfold remove_char in *. simpl. rewrite E. exact IH.
Qed.

Lemma punct_not_space `{U : UnicodeDB} c : cmatch punct c = true -> c <> SP.
Proof. intros H ->. vm_compute in H. discriminate. Qed.

Lemma match_group `{U : UnicodeDB} k prev s n gs :
  re_match [Group k] prev s n gs
  = match s with
    | c :: _ => if cmatch k c then Some (S n, gs ++ [c]) else None
    | [] => None
    end.
Proof.
  destruct s as [|c s]; [reflexivity|].
  cbn [re_match]. destruct (cmatch k c); reflexivity.
Qed.

Lemma match_two_groups `{U : UnicodeDB} k1 k2 prev s :
  re_match [Group k1; Group k2] prev s 0 []
  = match s with
    | c :: d :: _ =>
        if cmatch k1 c && cmatch k2 d then Some (2%nat, [c; d]) else None
    | _ => None
    end.
Proof.
  destruct s as [|c [|d s]]; cbn [re_match app];
    try destruct (cmatch k1 c); try destruct (cmatch k2 d); reflexivity.
Qed.

Lemma space_punct_match `{U : UnicodeDB} prev s k gs :
  re_match space_punct_pat prev s 0 [] = Some (S k, gs) ->
  remove_char SP (expand [RGroup 1] gs) = remove_char SP (take (S k) s).
Proof.
  change (re_match space_punct_pat prev s 0 [])
    with (rep (One (CChar SP))
            (fun prev' s' n' => re_match [Group punct] prev' s' n' [])
            1 None prev s 0).
  rewrite rep_whole_run.
  - destruct ((1 <=? run (One (CChar SP)) s)%nat
              && within (run (One (CChar SP)) s) None); [|discriminate].
    rewrite match_group.
    destruct (drop (run (One (CChar SP)) s) s) as [|c t] eqn:Ed;
      [discriminate|].
    destruct (cmatch punct c) eqn:Ec; [|discriminate].
    intros H. injection H as Hk <-. simpl in Hk. subst k.
    assert (Hl : s !! run (One (CChar SP)) s = Some c).
    { pose proof (lookup_drop s (run (One (CChar SP)) s) 0) as Hd.
      rewrite Ed, Nat.add_0_r in Hd. symmetry. exact Hd. }
    rewrite (take_S_r _ _ _ Hl). unfold remove_char.
    rewrite List.filter_app.
    pose proof (run_spaces_take s) as Hr. unfold remove_char in Hr.
    unfold char, str in *. rewrite Hr. simpl.
    destruct (N.eqb c SP) eqn:E; [|reflexivity].
    apply N.eqb_eq in E. contradiction (punct_not_space c Ec).
  - intros p s' n' _ Hs'. rewrite match_group.
    destruct s' as [|c s']; [reflexivity|].
    simpl in Hs'. apply N.eqb_eq in Hs'. subst c.
    destruct (cmatch punct SP) eqn:E; [|reflexivity].
    contradiction (punct_not_space SP E). reflexivity.
  - discriminate.
Qed.

Lemma punct_next_match `{U : UnicodeDB} prev s k gs :
  re_match punct_next_pat prev s 0 [] = Some (S k, gs) ->
  remove_char SP (expand [RGroup 1; RText [SP]; RGroup 2] gs)
  = remove_char SP (take (S k) s).
Proof.
  unfold punct_next_pat. rewrite match_two_groups.
  destruct s as [|c [|d s]]; try discriminate.
  destruct (cmatch punct c && cmatch (NoneOf [CSpace; CChar NL]) d);
    [|discriminate].
  intros H. injection H as <- <-. reflexivity.
Qed.

Lemma sub_keeps `{U : UnicodeDB} pat repl s :
  (forall prev s k gs,
     re_match pat prev s 0 [] = Some (S k, gs) ->
     remove_char SP (expand repl gs) = remove_char SP (take (S k) s)) ->
  remove_char SP (re_sub pat repl s) = remove_char SP s.
Proof.
  intros Hm. unfold re_sub, remove_char.
  apply (sub_scan_keeps _ pat repl Hm s None 0).
Qed.

Lemma sub_quotes `{U : UnicodeDB} s :
  re_sub quotes_pat [RText [34%N]] s = map (straighten true) s.
Proof.
  unfold re_sub, quotes_pat. generalize (@None char) as prev.
  induction s as [|c s IH]; intros prev; rewrite sub_scan_zero.
  - reflexivity.
  - cbn [re_match].
    assert (Hq : cmatch (AnyOf [CChar 34%N; CChar 34%N; CChar 96%N]) c
                 = (N.eqb c 34 || N.eqb c 96))
      by (simpl; destruct (N.eqb c 34), (N.eqb c 96); reflexivity).
    rewrite Hq.
    change (map (straighten true) (c :: s))
      with ((if N.eqb c 34 || N.eqb c 96 then 34%N else c)
              :: map (straighten true) s).
    destruct (N.eqb c 34 || N.eqb c 96); rewrite IH; reflexivity.
Qed.

Lemma straighten_spaces on s :
  remove_char SP (map (straighten on) s)
  = map (straighten on) (remove_char SP s).
Proof.
  unfold remove_char. induction s as [|c s IH]; [reflexivity|].
  simpl. replace (N.eqb (straighten on c) SP) with (N.eqb c SP).
  - destruct (N.eqb c SP); simpl; rewrite IH; reflexivity.
  - unfold straighten. destruct on; [|reflexivity]. simpl.
    destruct (N.eqb c 34) eqn:E1;
      [apply N.eqb_eq in E1; subst c; reflexivity|].
    destruct (N.eqb c 96) eqn:E2;
      [apply N.eqb_eq in E2; subst c; reflexivity|reflexivity].
Qed.

Lemma straighten_off s : map (straighten false) s = s.
Proof. induction s as [|c s IH]; [reflexivity|]. simpl. rewrite IH. reflexivity. Qed.

Lemma straighten_no_backquote s : 96%N ∉ map (straighten true) s.
Proof.
  intros H. apply list_elem_of_fmap in H as (c & Hc & _).
  unfold straighten in Hc. simpl in Hc.
  destruct (N.eqb c 34); simpl in Hc; [discriminate|].
  destruct (N.eqb c 96) eqn:E; simpl in Hc; [discriminate|].
  subst c. discriminate.
Qed.

(** X25.  [normalize] is [clean] followed by two steps that touch nothing
    but spaces and quotes: apart from the spaces, its result holds the
    characters of the cleaned text in their order, with double quotes for
    the backquotes when [standardize_quotes] is set (apostrophes stay).
    With both steps switched off it is [clean]. *)
Theorem normalize_spaces_and_quotes `{U : UnicodeDB} (text : str) (kw : kwargs) :
  let fix_punctuation := truthy (kw_get kw "fix_punctuation" (VBool true)) in
  let quotes := truthy (kw_get kw "standardize_quotes" (VBool true)) in
  exists cleaned out,
    transform_text text (lit "clean") kw = Ok cleaned
    /\ transform_text text (lit "normalize") kw = Ok out
    /\ remove_char SP out = map (straighten quotes) (remove_char SP cleaned)
    /\ (fix_punctuation = false -> out = map (straighten quotes) cleaned)
    /\ (fix_punctuation = false -> quotes = false -> out = cleaned)
    /\ (quotes = true -> 96%N ∉ out).
Proof.
  intros fix_punctuation quotes.
  change (transform_text text (lit "clean") kw)
    with (_clean_whitespace text kw).
  change (transform_text text (lit "normalize") kw)
    with (_normalize_text text kw).
  unfold _normalize_text.
  destruct (_clean_whitespace text kw) as [cleaned|e] eqn:Ec;
    [|unfold _clean_whitespace in Ec; discriminate].
  cbv beta iota zeta delta [bind]. fold fix_punctuation quotes.
  set (mid := if fix_punctuation
              then re_sub punct_next_pat [RGroup 1; RText [SP]; RGroup 2]
                     (re_sub space_punct_pat [RGroup 1] cleaned)
              else cleaned).
  assert (Hmid : remove_char SP mid = remove_char SP cleaned).
  { unfold mid. destruct fix_punctuation; [|reflexivity].
    rewrite (sub_keeps _ _ _ punct_next_match).
    apply (sub_keeps _ _ _ space_punct_match). }
  assert (Hout : (if quotes then re_sub quotes_pat [RText [34%N]] mid else mid)
                 = map (straighten quotes) mid).
  { destruct quotes; [apply sub_quotes|symmetry; apply straighten_off]. }
  exists cleaned. eexists. split; [reflexivity|]. split; [reflexivity|].
  rewrite Hout. split; [|split; [|split]].
  - rewrite straighten_spaces, Hmid. reflexivity.
  - intros Hf. unfold mid. rewrite Hf. reflexivity.
  - intros Hf Hq. unfold mid. rewrite Hf, Hq. apply straighten_off.
  - intros Hq. rewrite Hq. apply straighten_no_backquote.
Qed.

(** ** The width of the line numbers *)

Lemma uint_text_length d : length (uint_text d) = Decimal.nb_digits d.
Proof. induction d; simpl; congruence. Qed.

Lemma little_succ_digits d :
  (Decimal.nb_digits d <= Decimal.nb_digits (Decimal.Little.succ d))%nat.
Proof. induction d; simpl; lia. Qed.

Lemma to_lu_digits_mono n m :
  (n <= m)%N ->
  (Decimal.nb_digits (DecimalPos.Unsigned.to_lu n)
   <= Decimal.nb_digits (DecimalPos.Unsigned.to_lu m))%nat.
Proof.
  intros Hnm. replace m with (n + (m - n))%N by lia.
  generalize (m - n)%N as k. clear m Hnm.
  induction k as [|k IH] using N.peano_ind.
  - rewrite N.add_0_r. reflexivity.
  - rewrite N.add_succ_r, DecimalPos.Unsigned.to_lu_succ.
    etransitivity; [exact IH|apply little_succ_digits].
Qed.

Lemma str_int_length n :
  (0 <= n)%Z ->
  length (str_int n)
  = Decimal.nb_digits (DecimalPos.Unsigned.to_lu (Z.to_N n)).
Proof.
  intros Hn. destruct n as [|p|p]; [reflexivity| |lia].
  simpl. rewrite uint_text_length. unfold Pos.to_uint.
  apply DecimalFacts.nb_digits_rev.
Qed.

(** A number that is not negative has at most as many digits as a number
    that is not smaller. *)
Lemma str_int_length_mono i j :
  (0 <= i <= j)%Z -> (length (str_int i) <= length (str_int j))%nat.
Proof.
  intros H. rewrite !str_int_length by lia. apply to_lu_digits_mono. lia.
Qed.

Lemma rjust_length width s :
  (len s <= width)%Z -> len (rjust width s) = width.
Proof.
  intros H. unfold rjust, len in *.
  rewrite length_app, repeat_length. lia.
Qed.

(** X26.  With a [start] that is not negative and no [width] given, the
    numbers [add_line_numbers] puts before the lines all take the same
    number of columns, the one of the last number: a shorter number is
    padded with spaces on the left. *)
Theorem add_line_numbers_aligned `{U : UnicodeDB}
    (text : str) (kw : kwargs) (start : Z) :
  as_index (kw_get kw "start" (VInt 1)) = Some start ->
  (0 <= start)%Z ->
  kw !! "width" = None ->
  let lines := split_on NL text in
  let separator := str_value (kw_get kw "separator" (VStr (lit ": "))) in
  let width := len (str_int (len lines + start - 1)) in
  exists out_lines,
    transform_text text (lit "add_line_numbers") kw = Ok (join [NL] out_lines)
    /\ length out_lines = length lines
    /\ forall k line, lines !! k = Some line ->
         exists number,
           out_lines !! k = Some (number ++ separator ++ line)
           /\ number = rjust width (str_int (start + Z.of_nat k))
           /\ len number = width.
Proof.
  intros Hs Hpos Hw lines separator width.
  exists (numbered_lines width (kw_get kw "separator" (VStr (lit ": ")))
            start lines).
  split; [|split].
  - rewrite add_line_numbers_run, Hs. cbv zeta.
    unfold kw_get at 1. rewrite Hw. reflexivity.
  - apply numbered_lines_length.
  - intros k line Hk. eexists. split; [|split; [reflexivity|]].
    + apply numbered_lines_lookup. exact Hk.
    + apply rjust_length. unfold width, len.
      apply lookup_lt_Some in Hk.
      pose proof (str_int_length_mono (start + Z.of_nat k)
                    (Z.of_nat (length lines) + start - 1)) as Hm.
      unfold str, char in *. lia.
Qed.

Lemma add_line_numbers_aligned_witness :
  exists out_lines,
    @transform_text ascii_tables
       (join [NL] (repeat (lit "x") 3)) (lit "add_line_numbers")
       {[ "start" := VInt 8 ]}
    = Ok (join [NL] out_lines)
    /\ out_lines !! 0%nat = Some (lit " 8: x")
    /\ out_lines !! 2%nat = Some (lit "10: x").
Proof.
  destruct (@add_line_numbers_aligned ascii_tables
              (join [NL] (repeat (lit "x") 3)) {[ "start" := VInt 8 ]} 8%Z)
    as (out_lines & H1 & _ & H2).
  { vm_compute. reflexivity. }
  { lia. }
  { vm_compute. reflexivity. }
  exists out_lines. split; [exact H1|]. split.
  - destruct (H2 0%nat (lit "x")) as (number & E1 & E2 & _);
      [vm_compute; reflexivity|].
    etransitivity; [exact E1|]. rewrite E2. vm_compute. reflexivity.
  - destruct (H2 2%nat (lit "x")) as (number & E1 & E2 & _);
      [vm_compute; reflexivity|].
    etransitivity; [exact E1|]. rewrite E2. vm_compute. reflexivity.
Defined.
